(** * SigFig: significant-figure arithmetic

    A shallow embedding of [SigFig/__init__.py]: the parser
    [find_sigfigs_lsf], the [StrictInt] coercion, the [SigFig] value type with
    its constructor, its rendering [__str__], the operators [+ - * / //] and
    the comparisons [==] and [!=].

    The Python run time the module relies on is modelled first:
    - text as lists of ASCII characters with the [str] methods the module
      calls ([lower], [split], [replace], [strip], [rstrip], [join]);
    - exceptions as an error monad;
    - floats as IEEE 754 binary64 numbers ([spec_float] of the standard
      library at precision 53), with [float(str)], [int(str)], the format
      specifications [.Ne], [.Nf] and [#.Ng], [repr], [round] and the float
      operators defined by exact integer arithmetic and correct rounding. *)

From Stdlib Require Import QArith Qpower Lqa.
From Stdlib Require Import ZArith Ascii String List Bool Lia SpecFloat.
Import ListNotations.

Local Open Scope Z_scope.

(** ** Exceptions *)

Inductive exn : Type :=
| ValueError
| IndexError
| TypeError
| RecursionError
| ZeroDivisionError
| OverflowError
| NameError
| AttributeError.

Inductive result (A : Type) : Type :=
| Ok (a : A)
| Raise (e : exn).

Arguments Ok {A} a.
Arguments Raise {A} e.

Definition bind {A B : Type} (c : result A) (k : A -> result B) : result B :=
  match c with
  | Ok a => k a
  | Raise e => Raise e
  end.

Declare Scope py_scope.
Delimit Scope py_scope with py.

Notation "x <- c ;; k" := (bind c (fun x => k))
  (at level 61, c at next level, right associativity) : py_scope.
Notation "' pat <- c ;; k" := (bind c (fun x => match x with pat => k end))
  (at level 61, pat pattern, c at next level, right associativity) : py_scope.

Local Open Scope py_scope.

(** ** Text *)

Module PyStr.

Definition str : Type := list ascii.

(** A literal of the source, as a list of characters. *)
Definition py (s : string) : str := list_ascii_of_string s.

Definition len (s : str) : Z := Z.of_nat (length s).

Definition is_upper (c : ascii) : bool :=
  let n := nat_of_ascii c in (65 <=? n)%nat && (n <=? 90)%nat.

Definition is_digit (c : ascii) : bool :=
  let n := nat_of_ascii c in (48 <=? n)%nat && (n <=? 57)%nat.

(** [Py_ISSPACE] on ASCII text: space, \t, \n, \v, \f, \r. *)
Definition is_space (c : ascii) : bool :=
  let n := nat_of_ascii c in
  ((9 <=? n)%nat && (n <=? 13)%nat) || (n =? 32)%nat.

Definition lower_char (c : ascii) : ascii :=
  if is_upper c then ascii_of_nat (nat_of_ascii c + 32) else c.

(** [x.lower()] *)
Definition lower (s : str) : str := map lower_char s.

(** [c in s] for a one-character [c] *)
Definition contains (c : ascii) (s : str) : bool := existsb (Ascii.eqb c) s.

(** [s.split(sep)] for a one-character separator: never the empty list. *)
Fixpoint split (sep : ascii) (s : str) : list str :=
  match s with
  | [] => [[]]
  | c :: s' =>
      if Ascii.eqb c sep then [] :: split sep s'
      else match split sep s' with
           | p :: ps => (c :: p) :: ps
           | [] => [[c]]
           end
  end.

(** [s.replace(c, '')] *)
Definition remove_char (c : ascii) (s : str) : str :=
  filter (fun d => negb (Ascii.eqb d c)) s.

Fixpoint lstrip (c : ascii) (s : str) : str :=
  match s with
  | d :: s' => if Ascii.eqb d c then lstrip c s' else s
  | [] => []
  end.

(** [s.rstrip(c)] *)
Definition rstrip (c : ascii) (s : str) : str := rev (lstrip c (rev s)).

(** [s.strip(c)] *)
Definition strip (c : ascii) (s : str) : str := rstrip c (lstrip c s).

(** [sep.join(l)] for a one-character separator *)
Fixpoint join (sep : ascii) (l : list str) : str :=
  match l with
  | [] => []
  | [p] => p
  | p :: ps => p ++ sep :: join sep ps
  end.

(** [l[i]]: [IndexError] out of range. *)
Definition item {A : Type} (l : list A) (i : nat) : result A :=
  match nth_error l i with
  | Some a => Ok a
  | None => Raise IndexError
  end.

Definition str_eqb (a b : str) : bool :=
  if list_eq_dec ascii_dec a b then true else false.

(** *** Decimal digits *)

Definition digit_char (d : Z) : ascii := ascii_of_nat (48 + Z.to_nat d).

Definition digit_val (c : ascii) : Z := Z.of_nat (nat_of_ascii c) - 48.

Fixpoint digits_rec (fuel : nat) (n : Z) (acc : str) : str :=
  match fuel with
  | O => acc
  | S fuel' =>
      let acc' := digit_char (n mod 10) :: acc in
      if n <? 10 then acc' else digits_rec fuel' (n / 10) acc'
  end.

(** The decimal digits of [n >= 0], most significant first: [str(n)]. *)
Definition digits_of_Z (n : Z) : str :=
  digits_rec (S (Z.to_nat (Z.log2 n))) n [].

(** The number a string of digits denotes (0 for the empty string). *)
Definition digit_step (acc : Z) (c : ascii) : Z := 10 * acc + digit_val c.

Definition Z_of_digits (s : str) : Z := fold_left digit_step s 0.

(** [str(n)] for an [int] *)
Definition str_of_int (n : Z) : str :=
  if n <? 0 then "-"%char :: digits_of_Z (- n) else digits_of_Z n.

Definition zeros (n : nat) : str := repeat "0"%char n.

(** Digits padded on the left with zeros to at least [w] characters. *)
Definition pad_left (w : nat) (s : str) : str := zeros (w - length s) ++ s.

(** *** [int(s)] in base 10 *)

Fixpoint lstrip_space (s : str) : str :=
  match s with
  | c :: s' => if is_space c then lstrip_space s' else s
  | [] => []
  end.

(** White space dropped at both ends. *)
Definition strip_space (s : str) : str :=
  rev (lstrip_space (rev (lstrip_space s))).

(** Digits grouped by single underscores: [d (_? d)*]. [prev] tells what
    came before: [None] at the start, [Some true] after a digit,
    [Some false] after an underscore. *)
Fixpoint digit_groups (prev : option bool) (s : str) (acc : str) : option str :=
  match s with
  | [] => match prev with Some true => Some (rev acc) | _ => None end
  | c :: s' =>
      if is_digit c then digit_groups (Some true) s' (c :: acc)
      else if Ascii.eqb c "_" then
        match prev with
        | Some true => digit_groups (Some false) s' acc
        | _ => None
        end
      else None
  end.

Definition split_sign (s : str) : bool * str :=
  match s with
  | "-"%char :: s' => (true, s')
  | "+"%char :: s' => (false, s')
  | _ => (false, s)
  end.

(** [sys.int_info.default_max_str_digits]: the most digits [int(s)]
    converts. *)
Definition int_max_str_digits : Z := 4300.

(** [int(s)]: a sign and digits, single underscores between digits, white
    space around; [ValueError] on other text and on more digits than the
    interpreter's limit, leading zeros counted. *)
Definition py_int (s : str) : result Z :=
  let '(neg, body) := split_sign (strip_space s) in
  match digit_groups None body [] with
  | Some ds =>
      if int_max_str_digits <? len ds then Raise ValueError
      else Ok (if neg then - Z_of_digits ds else Z_of_digits ds)
  | None => Raise ValueError
  end.

End PyStr.

Import PyStr.

(** ** Floats *)

Module PyFloat.

Definition float : Type := spec_float.

Definition prec : Z := 53.
Definition emax : Z := 1024.

Definition nan : float := S754_nan.
Definition inf : float := S754_infinity false.
Definition zero : float := S754_zero false.
Definition one : float := S754_finite false 4503599627370496 (-52).
Definition half : float := S754_finite false 4503599627370496 (-53).

(** [math.isnan], [math.isinf] *)
Definition isnan (x : float) : bool :=
  match x with S754_nan => true | _ => false end.

Definition isinf (x : float) : bool :=
  match x with S754_infinity _ => true | _ => false end.

Definition is_finite (x : float) : bool :=
  match x with S754_zero _ | S754_finite _ _ _ => true | _ => false end.

Definition signbit (x : float) : bool :=
  match x with
  | S754_zero s | S754_infinity s | S754_finite s _ _ => s
  | S754_nan => false
  end.

(** [x == y], [x < y] *)
Definition eqb (x y : float) : bool := SFeqb x y.
Definition ltb (x y : float) : bool := SFltb x y.

(** [bool(x)]: [x != 0] *)
Definition truthy (x : float) : bool := negb (eqb x zero).

Definition fabs (x : float) : float := SFabs x.

(** *** Correct rounding of a ratio *)

(** The integer nearest to [n / d], ties to even ([0 <= n], [0 < d]). *)
Definition div_half_even (n d : Z) : Z :=
  let q := n / d in
  match 2 * (n mod d) ?= d with
  | Lt => q
  | Gt => q + 1
  | Eq => if Z.even q then q else q + 1
  end.

(** [2 ^ k <= n / d] *)
Definition ratio_ge_pow2 (n d k : Z) : bool :=
  if 0 <=? k then d * 2 ^ k <=? n else d <=? n * 2 ^ (- k).

(** The binary64 number nearest to [n / d] ([0 <= n], [0 < d]), ties to
    even, with sign [s]; gradual underflow, overflow to infinity. *)
Definition float_of_ratio (s : bool) (n d : Z) : float :=
  if n =? 0 then S754_zero s else
  let lg := Z.log2 n - Z.log2 d in
  let E := if ratio_ge_pow2 n d lg then lg else lg - 1 in
  let e := Z.max (E - 52) (-1074) in
  let q := if 0 <=? e then div_half_even n (d * 2 ^ e)
           else div_half_even (n * 2 ^ (- e)) d in
  if q =? 0 then S754_zero s else
  let '(m, e') := if q =? 2 ^ 53 then (2 ^ 52, e + 1) else (q, e) in
  if e' <=? emax - prec then S754_finite s (Z.to_pos m) e'
  else S754_infinity s.

(** The binary64 number nearest to [n * 10 ^ k]. *)
Definition float_of_dec (s : bool) (n k : Z) : float :=
  if 0 <=? k then float_of_ratio s (n * 10 ^ k) 1
  else float_of_ratio s n (10 ^ (- k)).

(** *** [float(s)] *)

(** Underscores may only stand between two digits; they are dropped. *)
Fixpoint drop_underscores (prev : ascii) (s : str) : option str :=
  match s with
  | [] => if Ascii.eqb prev "_" then None else Some []
  | c :: s' =>
      if Ascii.eqb c "_" then
        if is_digit prev then drop_underscores c s' else None
      else if Ascii.eqb prev "_" && negb (is_digit c) then None
      else option_map (cons c) (drop_underscores c s')
  end.

(** The longest prefix of digits, and what follows it. *)
Fixpoint span_digits (s : str) : str * str :=
  match s with
  | c :: s' =>
      if is_digit c then let '(ds, r) := span_digits s' in (c :: ds, r)
      else ([], s)
  | [] => ([], [])
  end.

(** [digits [. digits] | . digits] with an optional exponent
    [e [+-] digits]: the digits as a number and the decimal exponent. *)
Definition parse_decimal (s : str) : option (Z * Z) :=
  let '(ip, r1) := span_digits s in
  let '(fp, r2) := match r1 with
                   | "."%char :: r => span_digits r
                   | _ => ([], r1)
                   end in
  match ip ++ fp with
  | [] => None
  | ds =>
      match r2 with
      | [] => Some (Z_of_digits ds, - len fp)
      | c :: r3 =>
          if Ascii.eqb c "e" || Ascii.eqb c "E" then
            let '(neg, r4) := split_sign r3 in
            match span_digits r4 with
            | ((_ :: _) as ed, []) =>
                let x := Z_of_digits ed in
                Some (Z_of_digits ds, (if neg then - x else x) - len fp)
            | _ => None
            end
          else None
      end
  end.

Definition parse_inf_nan (neg : bool) (s : str) : option float :=
  let l := lower s in
  if str_eqb l (py "inf") || str_eqb l (py "infinity")
  then Some (S754_infinity neg)
  else if str_eqb l (py "nan") then Some S754_nan
  else None.

Definition py_float (s : str) : result float :=
  match drop_underscores "000"%char (strip_space s) with
  | None => Raise ValueError
  | Some t =>
      let '(neg, body) := split_sign t in
      match parse_decimal body with
      | Some (n, k) => Ok (float_of_dec neg n k)
      | None =>
          match parse_inf_nan neg body with
          | Some x => Ok x
          | None => Raise ValueError
          end
      end
  end.

(** *** Decimal digits of a float *)

(** [m * 2 ^ e * 10 ^ p] as a ratio of integers. *)
Definition scaled (m : positive) (e p : Z) : Z * Z :=
  (Zpos m * 2 ^ Z.max e 0 * 10 ^ Z.max p 0,
   2 ^ Z.max (- e) 0 * 10 ^ Z.max (- p) 0).

(** [m * 2 ^ e] rounded to [p] decimals (ties to even), as the integer
    number of units [10 ^ (- p)]. *)
Definition round_dec (m : positive) (e p : Z) : Z :=
  let '(n, d) := scaled m e p in div_half_even n d.

Definition ndigits (n : Z) : Z := len (digits_of_Z n).

(** The decimal exponent [X] of [m * 2 ^ e]: [10 ^ X <= m * 2 ^ e < 10 ^ (X + 1)]. *)
Definition dec_exponent (m : positive) (e : Z) : Z :=
  let '(n, d) := scaled m e 0 in
  if d <=? n then ndigits (n / d) - 1 else - ndigits ((d - 1) / n).

(** [m * 2 ^ e] rounded to [P >= 1] significant digits: the digits as a
    number in [[10 ^ (P - 1), 10 ^ P)] and the decimal exponent. *)
Definition sig_digits (m : positive) (e P : Z) : Z * Z :=
  let X := dec_exponent m e in
  let R := round_dec m e (P - 1 - X) in
  if R =? 10 ^ P then (10 ^ (P - 1), X + 1) else (R, X).

(** *** Format specifications *)

Definition INT_MAX : Z := 2147483647.

(** The precision of a format specification [.{n}]: a negative one is not
    a specification, one above [INT_MAX] is too big. *)
Definition spec_precision (n : Z) : result Z :=
  if (n <? 0) || (INT_MAX <? n) then Raise ValueError else Ok n.

Definition sign_str (s : bool) : str := if s then ["-"%char] else [].

Definition exp_str (X : Z) : str :=
  (if X <? 0 then "-"%char else "+"%char) :: pad_left 2 (digits_of_Z (Z.abs X)).

(** [d.ddde+XX]; the point is kept without digits after it in the
    alternate form [#]. *)
Definition layout_exp (alt : bool) (ds : str) (X : Z) : str :=
  match ds with
  | d :: rest =>
      d :: (match rest with
            | [] => if alt then ["."%char] else []
            | _ => "."%char :: rest
            end) ++ "e"%char :: exp_str X
  | [] => []
  end.

(** [ddd.ddd] with [p] digits after the point. *)
Definition layout_fixed (alt : bool) (ds : str) (p : nat) : str :=
  let ds' := pad_left (S p) ds in
  let k := (length ds' - p)%nat in
  firstn k ds' ++
  (match p with
   | O => if alt then ["."%char] else []
   | _ => "."%char :: skipn k ds'
   end).

Definition special_str (x : float) : str :=
  match x with
  | S754_nan => py "nan"
  | S754_infinity s => sign_str s ++ py "inf"
  | _ => []
  end.

(** [f'{x:.{p}e}'] *)
Definition format_e (p : Z) (x : float) : str :=
  match x with
  | S754_zero s => sign_str s ++ layout_exp false (zeros (Z.to_nat (p + 1))) 0
  | S754_finite s m e =>
      let '(R, X) := sig_digits m e (p + 1) in
      sign_str s ++ layout_exp false (digits_of_Z R) X
  | _ => special_str x
  end.

(** [f'{x:.{p}f}'] *)
Definition format_f (p : Z) (x : float) : str :=
  match x with
  | S754_zero s => sign_str s ++ layout_fixed false (py "0") (Z.to_nat p)
  | S754_finite s m e =>
      sign_str s ++ layout_fixed false (digits_of_Z (round_dec m e p)) (Z.to_nat p)
  | _ => special_str x
  end.

(** [f'{x:#.{P}g}']: a precision of 0 counts as 1; scientific form when
    the exponent is below -4 or not below the precision. *)
Definition format_g_alt (P : Z) (x : float) : str :=
  let P := Z.max P 1 in
  match x with
  | S754_zero s => sign_str s ++ layout_fixed true (py "0") (Z.to_nat (P - 1))
  | S754_finite s m e =>
      let '(R, X) := sig_digits m e P in
      sign_str s ++
      (if (X <? -4) || (P <=? X) then layout_exp true (digits_of_Z R) X
       else layout_fixed true (digits_of_Z R) (Z.to_nat (P - 1 - X)))
  | _ => special_str x
  end.

(** *** [repr(x)] *)

Definition floor_dec (m : positive) (e p : Z) : Z :=
  let '(n, d) := scaled m e p in n / d.

Definition reads_back (s : bool) (m : positive) (e R q : Z) : bool :=
  eqb (float_of_dec s R q) (S754_finite s m e).

(** The shortest decimal [R * 10 ^ q] that reads back as the float, and
    among those of that length the one nearest to it; [P] is the number
    of digits tried. *)
Fixpoint shortest (fuel : nat) (P : Z) (s : bool) (m : positive) (e X : Z)
  : Z * Z :=
  let q := X - (P - 1) in
  match fuel with
  | O => (round_dec m e (- q), q)
  | S fuel' =>
      let near := round_dec m e (- q) in
      let lo := floor_dec m e (- q) in
      let other := if near =? lo then lo + 1 else lo in
      if reads_back s m e near q then (near, q)
      else if reads_back s m e other q then (other, q)
      else shortest fuel' (P + 1) s m e X
  end.

Definition py_repr (x : float) : str :=
  match x with
  | S754_zero s => sign_str s ++ py "0.0"
  | S754_finite s m e =>
      let '(R, q) := shortest 16 1 s m e (dec_exponent m e) in
      let ds := rstrip "0" (digits_of_Z R) in
      let decpt := ndigits R + q in
      sign_str s ++
      (if (-4 <? decpt) && (decpt <=? 16) then
         if decpt <=? 0 then py "0." ++ zeros (Z.to_nat (- decpt)) ++ ds
         else if len ds <=? decpt
              then ds ++ zeros (Z.to_nat (decpt - len ds)) ++ py ".0"
              else firstn (Z.to_nat decpt) ds ++ "."%char :: skipn (Z.to_nat decpt) ds
       else layout_exp false ds (decpt - 1))
  | _ => special_str x
  end.

(** *** [round(x, ndigits)] *)

Definition py_round (x : float) (ndigits : Z) : result float :=
  match x with
  | S754_finite s m e =>
      if 323 <? ndigits then Ok x
      else if ndigits <? -308 then Ok (S754_zero s)
      else match float_of_dec s (round_dec m e ndigits) (- ndigits) with
           | S754_infinity _ => Raise OverflowError
           | r => Ok r
           end
  | _ => Ok x
  end.

(** *** Operators *)

Definition add (x y : float) : float := SFadd prec emax x y.
Definition sub (x y : float) : float := SFsub prec emax x y.
Definition mul (x y : float) : float := SFmul prec emax x y.
Definition div (x y : float) : float := SFdiv prec emax x y.

(** [x / y] *)
Definition truediv (x y : float) : result float :=
  if eqb y zero then Raise ZeroDivisionError else Ok (div x y).

(** C's [fmod]: the exact remainder, with the sign of [x]. *)
Definition fmod (x y : float) : float :=
  match x, y with
  | S754_nan, _ | _, S754_nan => S754_nan
  | S754_infinity _, _ => S754_nan
  | _, S754_zero _ => S754_nan
  | _, S754_infinity _ => x
  | S754_zero _, _ => x
  | S754_finite sx mx ex, S754_finite _ my ey =>
      let e := Z.min ex ey in
      let r := (Zpos mx * 2 ^ (ex - e)) mod (Zpos my * 2 ^ (ey - e)) in
      binary_normalize prec emax (if sx then - r else r) e sx
  end.

(** C's [floor] *)
Definition floor (x : float) : float :=
  match x with
  | S754_finite s m e =>
      if 0 <=? e then x else
      let q := Zpos m / 2 ^ (- e) in
      let z := if s then
                 if Zpos m mod 2 ^ (- e) =? 0 then - q else - (q + 1)
               else q in
      binary_normalize prec emax z 0 s
  | _ => x
  end.

(** [_float_div_mod] of CPython: the floor quotient and the remainder. *)
Definition float_div_mod (vx wx : float) : float * float :=
  let mod0 := fmod vx wx in
  let div0 := div (sub vx mod0) wx in
  let '(md, dv) :=
    if truthy mod0 then
      if xorb (ltb wx zero) (ltb mod0 zero)
      then (add mod0 wx, sub div0 one)
      else (mod0, div0)
    else (S754_zero (signbit wx), div0) in
  let floordiv :=
    if truthy dv then
      let fl := floor dv in
      if ltb half (sub dv fl) then add fl one else fl
    else S754_zero (signbit (div vx wx)) in
  (floordiv, md).

(** [x // y] *)
Definition floordiv (x y : float) : result float :=
  if eqb y zero then Raise ZeroDivisionError
  else Ok (fst (float_div_mod x y)).

(** [divmod(x, y)] *)
Definition divmod (x y : float) : result (float * float) :=
  if eqb y zero then Raise ZeroDivisionError
  else Ok (float_div_mod x y).

(** [x % y]: [float_rem] of CPython, the remainder with the sign of [y]. *)
Definition rem (x y : float) : result float :=
  if eqb y zero then Raise ZeroDivisionError
  else
    let md := fmod x y in
    Ok (if truthy md then
          if xorb (ltb y zero) (ltb md zero) then add md y else md
        else S754_zero (signbit y)).

(** [- x] and [x <= y] *)
Definition opp (x : float) : float := SFopp x.
Definition leb (x y : float) : bool := SFleb x y.

(** [math.sqrt(x)]: a domain error where the root is not a number and the
    argument is one. *)
Definition sqrt (x : float) : result float :=
  let r := SFsqrt prec emax x in
  if isnan r && negb (isnan x) then Raise ValueError else Ok r.

(** [int(x)] *)
Definition int_of_float (x : float) : result Z :=
  match x with
  | S754_nan => Raise ValueError
  | S754_infinity _ => Raise OverflowError
  | S754_zero _ => Ok 0
  | S754_finite s m e =>
      let a := if 0 <=? e then Zpos m * 2 ^ e else Zpos m / 2 ^ (- e) in
      Ok (if s then - a else a)
  end.

End PyFloat.

Import PyFloat.

(** ** [StrictInt] *)

(** [StrictInt(value)] for a float [value]: its imaginary part is zero, so
    the outcome is decided by the remainder of [divmod(value.real, 1)]. *)
Definition StrictInt (value : float) : result Z :=
  '(quotient, remainder) <- divmod value one ;;
  if truthy remainder then Raise ValueError
  else int_of_float quotient.

(** ** The parser [find_sigfigs_lsf] *)

(** The depth of the interpreter's call stack left to the parser. *)
Definition recursion_limit : nat := 1000.

(** [find_sigfigs_lsf(x)] with [depth] frames left: the number of
    significant figures and the position of the least significant one. *)
Fixpoint find_sigfigs_lsf_rec (depth : nat) (x : str) : result (Z * Z) :=
  match depth with
  | O => Raise RecursionError
  | S depth' =>
      let x := lower x in
      if contains "e" x then
        let string_figure := split "e" x in
        m <- item string_figure 0 ;;
        let m := remove_char "-" m in
        let sf := len m - 1 in
        frac <- item (split "." m) 1 ;;
        if 0 <? len frac then
          ex <- item string_figure 1 ;;
          e <- py_int ex ;;
          Ok (sf, - len frac + e)
        else
          ex <- item string_figure 1 ;;
          e <- py_int ex ;;
          Ok (sf, e)
      else
        v <- py_float x ;;
        if eqb v zero then
          let n := len (remove_char "." (strip "-" x)) in
          frac <- item (split "." x) 1 ;;
          Ok (n, - len frac)
        else
          let n := split "e" (format_e 8 v) in
          n0 <- item n 0 ;;
          let n0' :=
            if contains "." x then
              let s := remove_char "." x in
              let l := (length s - length (rstrip "0" s))%nat in
              rstrip "0" n0 ++ zeros l
            else rstrip "0" n0 in
          find_sigfigs_lsf_rec depth' (join "e" (n0' :: tl n))
  end.

Definition find_sigfigs_lsf (x : str) : result (Z * Z) :=
  find_sigfigs_lsf_rec recursion_limit x.

(** ** The value type [SigFig] *)

(** [sf]: a count, or [math.inf]. *)
Inductive sf_t : Type :=
| SfInt (n : Z)
| SfInf.

(** [lsf]: a decimal position, ['n'] for NaN and Infinity, ['.'] for the
    empty string. *)
Inductive lsf_t : Type :=
| LsfInt (z : Z)
| LsfNA
| LsfUninit.

(** An instance: [value] and [sf] are set by every path of the constructor
    that returns, [lsf] is not ([None]: the attribute is missing). *)
Record SigFig : Type := mkSigFig {
  value : float;
  sf : sf_t;
  lsf : option lsf_t
}.

(** The first argument of the constructor: a string or a number. *)
Inductive arg : Type :=
| AStr (s : str)
| ANum (x : float).

Definition sf_eqb (a b : sf_t) : bool :=
  match a, b with
  | SfInt n, SfInt m => n =? m
  | SfInf, SfInf => true
  | _, _ => false
  end.

(** [min(a, b)] on counts: an [int] is below [math.inf]. *)
Definition sf_min (a b : sf_t) : sf_t :=
  match a, b with
  | SfInt n, SfInt m => SfInt (Z.min n m)
  | SfInt n, SfInf => SfInt n
  | SfInf, SfInt m => SfInt m
  | SfInf, SfInf => SfInf
  end.

(** The attribute [self.lsf]. *)
Definition get_lsf (v : SigFig) : result lsf_t :=
  match lsf v with
  | Some l => Ok l
  | None => Raise AttributeError
  end.

(** [min(a, b)] and [max(a, b)] on [lsf] values: integers compare with
    integers, strings with strings ('.' is below 'n'); an integer and a
    string do not compare. [min] and [max] return their first argument
    unless the second is strictly better. *)
Definition lsf_min (a b : lsf_t) : result lsf_t :=
  match a, b with
  | LsfInt x, LsfInt y => Ok (LsfInt (Z.min x y))
  | LsfInt _, _ | _, LsfInt _ => Raise TypeError
  | LsfNA, LsfNA => Ok LsfNA
  | _, _ => Ok LsfUninit
  end.

Definition lsf_max (a b : lsf_t) : result lsf_t :=
  match a, b with
  | LsfInt x, LsfInt y => Ok (LsfInt (Z.max x y))
  | LsfInt _, _ | _, LsfInt _ => Raise TypeError
  | LsfUninit, LsfUninit => Ok LsfUninit
  | _, _ => Ok LsfNA
  end.

(** [x == 'n'] *)
Definition lsf_is_na (l : lsf_t) : bool :=
  match l with LsfNA => true | _ => false end.

(** [bool(exponent)]: [None] and [0] are false, a marker is a nonempty
    string. *)
Definition exponent_truthy (exponent : option lsf_t) : bool :=
  match exponent with
  | None => false
  | Some (LsfInt z) => negb (z =? 0)
  | Some _ => true
  end.

(** [f"{value:#.{sf}g}"]: [math.inf] is not a precision. *)
Definition format_sf (x : float) (s : sf_t) : result str :=
  match s with
  | SfInt n => P <- spec_precision n ;; Ok (format_g_alt P x)
  | SfInf => Raise ValueError
  end.

(** [SigFig(value, sf, exponent)] *)
Definition SigFig_init (v : arg) (sf0 : option sf_t) (exponent : option lsf_t)
  : result SigFig :=
  match v with
  | AStr s =>
      (* [if value == '']: the three fields are set, and the next test,
         an [if] of its own, runs all the same; of the three only [lsf]
         can survive the assignments below *)
      let lsf0 := if str_eqb s [] then Some LsfUninit else None in
      x <- py_float s ;;
      if eqb x zero then
        '(_, l) <- find_sigfigs_lsf s ;;
        Ok (mkSigFig x (SfInt 0) (Some (LsfInt l)))
      else
        match sf0 with
        | Some SfInf => Ok (mkSigFig x SfInf lsf0)
        | _ =>
            '(n, l) <- find_sigfigs_lsf s ;;
            Ok (mkSigFig x (SfInt n) (Some (LsfInt l)))
        end
  | ANum x =>
      if isnan x then Ok (mkSigFig nan SfInf (Some LsfNA))
      else if isinf x then Ok (mkSigFig inf SfInf (Some LsfNA))
      else
        match sf0 with
        | Some s =>
            if exponent_truthy exponent then Ok (mkSigFig x s exponent)
            else
              r <- format_sf x s ;;
              '(_, l) <- find_sigfigs_lsf r ;;
              Ok (mkSigFig x s (Some (LsfInt l)))
        | None => Raise ValueError
        end
  end.

(** [-self.lsf] *)
Definition lsf_neg (l : lsf_t) : result Z :=
  match l with
  | LsfInt z => Ok (- z)
  | _ => Raise TypeError
  end.

(** [str(self)] *)
Definition SigFig_str (self : SigFig) : result str :=
  if sf_eqb (sf self) SfInf then Ok (py_repr (value self))
  else if sf_eqb (sf self) (SfInt 0) then
    l <- get_lsf self ;;
    n <- lsf_neg l ;;
    p <- spec_precision n ;;
    Ok (format_f p (fabs (value self)))
  else format_sf (value self) (sf self).

(** ** Operators *)

(** The right operand of an operator: an instance, a plain number, or
    anything else. *)
Inductive operand : Type :=
| OSigFig (v : SigFig)
| ONum (x : float)
| OOther.

(** The shared shape of [__mul__], [__truediv__] and [__floordiv__]: the
    count is the smaller of the two; a count of 0 passes the smaller [lsf]
    on as the exponent. *)
Definition multiplicative (op : float -> float -> result float)
  (self : SigFig) (other : operand) : result SigFig :=
  match other with
  | OSigFig o =>
      r <- op (value self) (value o) ;;
      let sig_fig := sf_min (sf self) (sf o) in
      if sf_eqb sig_fig (SfInt 0) then
        a <- get_lsf self ;;
        b <- get_lsf o ;;
        l <- lsf_min a b ;;
        SigFig_init (ANum r) (Some (SfInt 0)) (Some l)
      else SigFig_init (ANum r) (Some sig_fig) None
  | ONum y =>
      r <- op (value self) y ;;
      SigFig_init (ANum r) (Some (sf self)) None
  | OOther => Raise TypeError
  end.

(** [self * other] *)
Definition SigFig_mul : SigFig -> operand -> result SigFig :=
  multiplicative (fun x y => Ok (mul x y)).

(** [self / other] *)
Definition SigFig_truediv : SigFig -> operand -> result SigFig :=
  multiplicative truediv.

(** [self // other] *)
Definition SigFig_floordiv : SigFig -> operand -> result SigFig :=
  multiplicative floordiv.

(** [try: body except E: handler] *)
Definition try_except {A : Type} (body : result A) (E : exn)
  (handler : result A) : result A :=
  match body with
  | Ok a => Ok a
  | Raise e => if match e, E with
                  | ValueError, ValueError
                  | RecursionError, RecursionError => true
                  | _, _ => false
                  end
               then handler else Raise e
  end.

(** [precision < 0] for the [max] of two [lsf]: a marker does not compare
    with 0. *)
Definition lsf_int (l : lsf_t) : result Z :=
  match l with
  | LsfInt z => Ok z
  | _ => Raise TypeError
  end.

(** [SigFig(result, find_sigfigs_lsf(text)[0])] *)
Definition rederive (r : float) (text : str) : result SigFig :=
  '(n, _) <- find_sigfigs_lsf text ;;
  SigFig_init (ANum r) (Some (SfInt n)) None.

(** [self + other] *)
Definition SigFig_add (self : SigFig) (other : operand) : result SigFig :=
  match other with
  | OSigFig o =>
      let r := add (value self) (value o) in
      a <- get_lsf self ;;
      na <- (if lsf_is_na a then Ok true
             else b <- get_lsf o ;; Ok (lsf_is_na b)) ;;
      if na then SigFig_init (ANum r) None None
      else
        b <- get_lsf o ;;
        pl <- lsf_max a b ;;
        precision <- lsf_int pl ;;
        if precision <? 0 then
          p <- spec_precision (- precision) ;;
          let rounded := format_f p r in
          rederive r rounded
        else
          rounded <- py_round r (- precision) ;;
          try_except
            (strict_rounded <- StrictInt rounded ;;
             rederive r (str_of_int strict_rounded))
            ValueError
            (try_except
               (rederive r (py_repr rounded))
               RecursionError
               (SigFig_init (ANum nan) (Some SfInf) None))
  | ONum y =>
      SigFig_init (ANum (add (value self) y)) (Some (sf self)) None
  | OOther => Raise TypeError
  end.

(** [[int(c) for c in text]] *)
Fixpoint digits_list (text : str) : result (list Z) :=
  match text with
  | [] => Ok []
  | c :: text' =>
      d <- py_int [c] ;;
      ds <- digits_list text' ;;
      Ok (d :: ds)
  end.

(** [any(l)] *)
Definition any (l : list Z) : bool := existsb (fun d => negb (d =? 0)) l.

(** [self - other]; the fallback of the last [try] calls [find_sigfigs],
    a name the module does not define. *)
Definition SigFig_sub (self : SigFig) (other : operand) : result SigFig :=
  match other with
  | OSigFig o =>
      let r := sub (value self) (value o) in
      a <- get_lsf self ;;
      na <- (if lsf_is_na a then Ok true
             else b <- get_lsf o ;; Ok (lsf_is_na b)) ;;
      if na then SigFig_init (ANum r) None None
      else
        b <- get_lsf o ;;
        pl <- lsf_max a b ;;
        precision <- lsf_int pl ;;
        if precision <? 0 then
          p <- spec_precision (- precision) ;;
          let rounded := format_f p r in
          check0 <- digits_list (remove_char "-" (remove_char "." rounded)) ;;
          if any check0 then rederive r rounded
          else
            frac <- item (split "." rounded) 1 ;;
            SigFig_init (ANum r) (Some (SfInt 0)) (Some (LsfInt (- len frac)))
        else
          rounded <- py_round r (- precision) ;;
          try_except
            (strict_rounded <- StrictInt rounded ;;
             rederive r (str_of_int strict_rounded))
            ValueError
            (try_except
               (Raise NameError)
               RecursionError
               (SigFig_init (ANum nan) (Some SfInf) None))
  | ONum y =>
      SigFig_init (ANum (sub (value self) y)) (Some (sf self)) None
  | OOther => Raise TypeError
  end.

(** ** Comparisons *)

(** [self == other] *)
Definition SigFig_eq (self other : SigFig) : result bool :=
  if eqb (value self) zero && eqb (value other) zero then Ok true
  else if isnan (value self) || isnan (value other) then Ok false
  else
    a <- SigFig_str self ;;
    b <- SigFig_str other ;;
    Ok (str_eqb a b).

(** [self != other] *)
Definition SigFig_ne (self other : SigFig) : result bool :=
  a <- SigFig_str self ;;
  b <- SigFig_str other ;;
  Ok (negb (str_eqb a b)).

(** ** The other methods *)

(** [repr(self)]: [f"SigFig({self.value}, {self.sf})"] *)
Definition SigFig_repr (self : SigFig) : str :=
  py "SigFig(" ++ py_repr (value self) ++ py ", " ++
  (match sf self with
   | SfInt n => str_of_int n
   | SfInf => py "inf"
   end) ++ py ")".

(** [other / self], the reflected division *)
Definition SigFig_rtruediv (self : SigFig) (other : operand) : result SigFig :=
  match other with
  | OSigFig o =>
      r <- truediv (value o) (value self) ;;
      let sig_fig := sf_min (sf self) (sf o) in
      if sf_eqb sig_fig (SfInt 0) then
        a <- get_lsf self ;;
        b <- get_lsf o ;;
        l <- lsf_min a b ;;
        SigFig_init (ANum r) (Some (SfInt 0)) (Some l)
      else SigFig_init (ANum r) (Some sig_fig) None
  | ONum y =>
      r <- truediv y (value self) ;;
      SigFig_init (ANum r) (Some (sf self)) None
  | OOther => Raise TypeError
  end.

(** [self % other]: no rule of its own for a count of 0. *)
Definition SigFig_mod (self : SigFig) (other : operand) : result SigFig :=
  match other with
  | OSigFig o =>
      r <- rem (value self) (value o) ;;
      SigFig_init (ANum r) (Some (sf_min (sf self) (sf o))) None
  | ONum y =>
      r <- rem (value self) y ;;
      SigFig_init (ANum r) (Some (sf self)) None
  | OOther => Raise TypeError
  end.

(** [other * self] is [self.__mul__(other)]. *)
Definition SigFig_rmul : SigFig -> operand -> result SigFig := SigFig_mul.

(** [float(str(self))], the number the ordering compares *)
Definition shown (self : SigFig) : result float :=
  s <- SigFig_str self ;; py_float s.

(** [self < other], [self > other], [self >= other], [self <= other] *)
Definition SigFig_lt (self other : SigFig) : result bool :=
  x <- shown self ;; y <- shown other ;; Ok (ltb x y).

Definition SigFig_gt (self other : SigFig) : result bool :=
  x <- shown self ;; y <- shown other ;; Ok (ltb y x).

Definition SigFig_ge (self other : SigFig) : result bool :=
  x <- shown self ;; y <- shown other ;; Ok (leb y x).

Definition SigFig_le (self other : SigFig) : result bool :=
  x <- shown self ;; y <- shown other ;; Ok (leb x y).

(** [bool(self)] *)
Definition SigFig_bool (self : SigFig) : bool := truthy (value self).

(** [- self] *)
Definition SigFig_neg (self : SigFig) : result SigFig :=
  SigFig_init (ANum (opp (value self))) (Some (sf self)) None.

(** [abs(self)]: a negative value is built anew and negated, any other
    [self] is returned as it is. *)
Definition SigFig_abs (self : SigFig) : result SigFig :=
  if ltb (value self) zero then
    t <- SigFig_init (ANum (value self)) (Some (sf self)) None ;;
    SigFig_neg t
  else Ok self.

(** [float(self)] and [int(self)] *)
Definition SigFig_float (self : SigFig) : float := value self.

Definition SigFig_int (self : SigFig) : result Z := int_of_float (value self).

(** [self.sqrt()] *)
Definition SigFig_sqrt (self : SigFig) : result SigFig :=
  r <- sqrt (value self) ;;
  SigFig_init (ANum r) (Some (sf self)) None.

(** [self.set_sf(value)]: the instance after the assignment. *)
Definition set_sf (self : SigFig) (s : sf_t) : SigFig :=
  mkSigFig (value self) s (lsf self).

(** The module's [isnan(SF)] *)
Definition SigFig_isnan (SF : SigFig) : bool := isnan (value SF).

(** ** Notions the statements below use *)

(** [SigFig(s)] for a literal [s] of the source text. *)
Definition SigFig_of_str (s : string) : result SigFig :=
  SigFig_init (AStr (py s)) None None.

(** [SigFig(float(s), n)] *)
Definition SigFig_of_num (s : string) (n : Z) : result SigFig :=
  x <- py_float (py s) ;; SigFig_init (ANum x) (Some (SfInt n)) None.

(** [SigFig(math.inf)] *)
Definition Infinity : SigFig := mkSigFig inf SfInf (Some LsfNA).

(** [SigFig(math.nan)] *)
Definition NaN : SigFig := mkSigFig nan SfInf (Some LsfNA).

(** A literal round-trips when the instance built from it renders to a
    text that the parser maps to the very [(sf, lsf)] the instance holds. *)
Definition round_trips (s : str) : Prop :=
  exists v text n l,
    SigFig_init (AStr s) None None = Ok v /\
    SigFig_str v = Ok text /\
    find_sigfigs_lsf text = Ok (n, l) /\
    sf v = SfInt n /\ lsf v = Some (LsfInt l).

(** The parser accepts a literal when it returns a pair for it. *)
Definition accepted (s : str) : Prop :=
  exists p, find_sigfigs_lsf s = Ok p.

(** ** Notions the proofs use *)

Definition digit (c : ascii) : Prop := is_digit c = true.

Definition avoids (c : ascii) (s : str) : Prop := Forall (fun d => d <> c) s.
Definition no_upper (s : str) : Prop := Forall (fun d => is_upper d = false) s.

Definition no_space (s : str) : Prop := Forall (fun c => is_space c = false) s.

(** A sign followed by digits. *)
Definition sign_of (es : str) : option bool :=
  match es with
  | [] => Some false
  | ["+"%char] => Some false
  | ["-"%char] => Some true
  | _ => None
  end.

(** [10 ^ X <= n / d] *)
Definition pow10_le_ratio (X n d : Z) : Prop :=
  if 0 <=? X then 10 ^ X * d <= n else d <= n * 10 ^ (- X).

(** The magnitude of a finite float is that of a binary64 number: a
    mantissa below [2 ^ 53] and an exponent from -1074 to 971. *)
Definition bounded64 (x : float) : Prop :=
  match x with
  | S754_finite _ m e => Z.pos m < 2 ^ 53 /\ -1074 <= e <= 971
  | _ => True
  end.

(** The largest finite binary64 number. *)
Definition max_float : Z := (2 ^ 53 - 1) * 2 ^ 971.

(** [2 ^ k <= n / d] *)
Definition pow2_le_ratio (k n d : Z) : Prop :=
  if 0 <=? k then d * 2 ^ k <= n else d <= n * 2 ^ (- k).

(** The magnitude of a finite float. *)
Definition Qval (m : positive) (e : Z) : Q := (inject_Z (Z.pos m) * 2 ^ e)%Q.

(** Half a unit in the last place, relative to the value. *)
Definition eps : Q := 1 # 9007199254740992.

(** The user's trailing zeros, put back after the mantissa. *)
Definition user_zeros (x : str) : str :=
  if contains "." x then
    let s := remove_char "." x in
    zeros (length s - length (rstrip "0" s))
  else [].

(** The value an expression of the test suite denotes, when it returns. *)
Definition returned (r : result SigFig) : SigFig :=
  match r with Ok v => v | Raise _ => NaN end.

Definition v_6_2 : SigFig := Eval vm_compute in returned (SigFig_of_str "6.2").
Definition v_14_6 : SigFig := Eval vm_compute in returned (SigFig_of_str "14.6").
Definition v_4_8 : SigFig := Eval vm_compute in returned (SigFig_of_str "4.8").
Definition v_256 : SigFig := Eval vm_compute in returned (SigFig_of_str "256").
Definition v_m256 : SigFig := Eval vm_compute in returned (SigFig_of_str "-256").
Definition v_1e308 : SigFig := Eval vm_compute in returned (SigFig_of_str "1.0e308").
Definition v_m1e308 : SigFig := Eval vm_compute in returned (SigFig_of_str "-1.0e308").
Definition v_1e200 : SigFig := Eval vm_compute in returned (SigFig_of_str "1.0e200").
Definition v_0_9978 : SigFig := Eval vm_compute in returned (SigFig_of_str "0.9978").
Definition v_0_99823 : SigFig :=
  Eval vm_compute in returned (SigFig_of_num "0.9982399038924058" 3).
(** [SigFig(0, sf=0)] *)
Definition v_zero : SigFig :=
  Eval vm_compute in returned (SigFig_init (ANum zero) (Some (SfInt 0)) None).

(** [-1.0] *)
Definition minus_one : float := S754_finite true 4503599627370496 (-52).

(** The digits [format_f] lays out. *)
Definition fixed_digits (p : Z) (x : float) : str :=
  match x with
  | S754_finite _ m e => digits_of_Z (round_dec m e p)
  | _ => py "0"
  end.

Definition all_zero (t : str) : Prop := Forall (fun c => c = "0"%char) t.

Definition v_50_00 : SigFig := Eval vm_compute in returned (SigFig_of_str "50.00").
Definition v_50_000 : SigFig := Eval vm_compute in returned (SigFig_of_str "50.000").
Definition v_0_0 : SigFig := Eval vm_compute in returned (SigFig_of_str "0.0").
Definition v_0_00 : SigFig := Eval vm_compute in returned (SigFig_of_str "0.00").

Definition v_0_14 : SigFig := Eval vm_compute in returned (SigFig_of_str "0.14").
Definition v_0_1 : SigFig := Eval vm_compute in returned (SigFig_of_str "0.1").
Definition v_m0_1 : SigFig := Eval vm_compute in returned (SigFig_of_str "-0.1").
Definition v_sum_0_04 : SigFig :=
  Eval vm_compute in returned (SigFig_add v_0_14 (OSigFig v_m0_1)).
Definition v_diff_0_04 : SigFig :=
  Eval vm_compute in returned (SigFig_sub v_0_14 (OSigFig v_0_1)).

(** * Proofs *)

(** ** Facts about text *)

Lemma digit_char_digit (d : Z) : 0 <= d < 10 -> digit (digit_char d).
Proof.
  intros H. assert (E : d = 0 \/ d = 1 \/ d = 2 \/ d = 3 \/ d = 4 \/ d = 5 \/
                        d = 6 \/ d = 7 \/ d = 8 \/ d = 9) by lia.
  repeat (destruct E as [-> | E]; [reflexivity |]). subst d; reflexivity.
Qed.

Lemma digit_val_char (d : Z) : 0 <= d < 10 -> digit_val (digit_char d) = d.
Proof.
  intros H. assert (E : d = 0 \/ d = 1 \/ d = 2 \/ d = 3 \/ d = 4 \/ d = 5 \/
                        d = 6 \/ d = 7 \/ d = 8 \/ d = 9) by lia.
  repeat (destruct E as [-> | E]; [reflexivity |]). subst d; reflexivity.
Qed.

Lemma digit_val_range (c : ascii) : digit c -> 0 <= digit_val c < 10.
Proof.
  unfold digit, is_digit, digit_val. intros H.
  apply andb_prop in H. destruct H as [H1 H2].
  apply Nat.leb_le in H1, H2. lia.
Qed.

Lemma digits_rec_app (fuel : nat) : forall n acc,
  digits_rec fuel n acc = digits_rec fuel n [] ++ acc.
Proof.
  induction fuel as [| fuel IH]; intros n acc; simpl; [reflexivity |].
  destruct (n <? 10); [reflexivity |].
  rewrite (IH _ (_ :: acc)), (IH _ [_]), <- app_assoc. reflexivity.
Qed.

Lemma digits_rec_digits (fuel : nat) : forall n acc,
  Forall digit acc -> Forall digit (digits_rec fuel n acc).
Proof.
  induction fuel as [| fuel IH]; intros n acc Hacc; simpl; [assumption |].
  assert (Forall digit (digit_char (n mod 10) :: acc)).
  { constructor; [| assumption]. apply digit_char_digit, Z.mod_pos_bound. lia. }
  destruct (n <? 10); auto.
Qed.

Lemma digits_of_Z_digits (n : Z) : Forall digit (digits_of_Z n).
Proof. apply digits_rec_digits. constructor. Qed.

Lemma digits_rec_nonempty (fuel : nat) (n : Z) :
  digits_rec (S fuel) n [] <> [].
Proof.
  simpl. destruct (n <? 10); [discriminate |].
  rewrite digits_rec_app. intros H. apply app_eq_nil in H. destruct H; discriminate.
Qed.

Lemma digits_of_Z_nonempty (n : Z) : digits_of_Z n <> [].
Proof. apply digits_rec_nonempty. Qed.

Lemma Z_of_digits_snoc (a : str) (c : ascii) :
  Z_of_digits (a ++ [c]) = 10 * Z_of_digits a + digit_val c.
Proof. unfold Z_of_digits. rewrite fold_left_app. reflexivity. Qed.

Lemma Z_of_digits_app (a b : str) :
  Z_of_digits (a ++ b) = Z_of_digits a * 10 ^ len b + Z_of_digits b.
Proof.
  induction b as [| c b IH] using rev_ind.
  - rewrite app_nil_r. change (len []) with 0. change (Z_of_digits []) with 0. lia.
  - rewrite app_assoc, !Z_of_digits_snoc, IH. unfold len.
    rewrite length_app, Nat2Z.inj_add. change (Z.of_nat (length [c])) with 1.
    rewrite Z.pow_add_r by lia. lia.
Qed.

Lemma Z_of_digits_zeros (k : nat) : Z_of_digits (zeros k) = 0.
Proof.
  unfold Z_of_digits, zeros. induction k as [| k IH]; [reflexivity |].
  cbn [repeat fold_left]. exact IH.
Qed.

Lemma Z_of_digits_pad (w : nat) (s : str) :
  Z_of_digits (pad_left w s) = Z_of_digits s.
Proof. unfold pad_left. rewrite Z_of_digits_app, Z_of_digits_zeros. lia. Qed.

Lemma Z_of_digits_nonneg (s : str) : Forall digit s -> 0 <= Z_of_digits s.
Proof.
  induction s as [| c s IH] using rev_ind; intros H; [reflexivity |].
  apply Forall_app in H. destruct H as [Hs Hc]. inversion Hc; subst.
  rewrite Z_of_digits_snoc.
  specialize (IH Hs). pose proof (digit_val_range c H1). lia.
Qed.

Lemma digits_rec_value (fuel : nat) : forall n,
  0 <= n < 2 ^ Z.of_nat fuel ->
  Z_of_digits (digits_rec fuel n []) = n.
Proof.
  induction fuel as [| fuel IH]; intros n Hn.
  - simpl in *. assert (n = 0) by lia. subst. reflexivity.
  - cbn [digits_rec]. destruct (n <? 10) eqn:E.
    + apply Z.ltb_lt in E. change (Z_of_digits [?c]) with (10 * 0 + digit_val c).
      rewrite Z.mod_small by lia. rewrite digit_val_char; lia.
    + apply Z.ltb_ge in E. rewrite digits_rec_app, Z_of_digits_snoc.
      rewrite IH.
      * rewrite digit_val_char by (apply Z.mod_pos_bound; lia).
        pose proof (Z.div_mod n 10). lia.
      * rewrite Nat2Z.inj_succ, Z.pow_succ_r in Hn by lia.
        split; [apply Z.div_pos; lia |].
        apply Z.div_lt_upper_bound; lia.
Qed.

Lemma Z_of_digits_of_Z (n : Z) : 0 <= n -> Z_of_digits (digits_of_Z n) = n.
Proof.
  intros Hn. apply digits_rec_value. split; [assumption |].
  destruct (Z.eq_dec n 0) as [-> | Hz]; [reflexivity |].
  rewrite Nat2Z.inj_succ, Z2Nat.id by apply Z.log2_nonneg.
  apply Z.log2_spec. lia.
Qed.

Lemma digit_classes (c : ascii) :
  digit c ->
  is_upper c = false /\ is_space c = false /\
  c <> "e"%char /\ c <> "."%char /\ c <> "-"%char /\ c <> "+"%char /\
  c <> "_"%char /\ c <> "E"%char.
Proof.
  unfold digit.
  destruct c as [[] [] [] [] [] [] [] []]; cbv; intros H; try discriminate H;
    repeat split; discriminate.
Qed.

Lemma digits_avoid (c : ascii) (s : str) :
  is_digit c = false -> Forall digit s -> avoids c s.
Proof.
  intros Hc H. induction H as [| d s Hd _ IH]; constructor; [| assumption].
  intros ->. unfold digit in Hd. congruence.
Qed.

Lemma digits_no_upper (s : str) : Forall digit s -> no_upper s.
Proof.
  intros H. induction H as [| d s Hd _ IH]; constructor; [| assumption].
  apply digit_classes, Hd.
Qed.

Lemma avoids_app (c : ascii) (a b : str) :
  avoids c (a ++ b) <-> avoids c a /\ avoids c b.
Proof. apply Forall_app. Qed.

Lemma no_upper_app (a b : str) : no_upper (a ++ b) <-> no_upper a /\ no_upper b.
Proof. apply Forall_app. Qed.

Lemma lower_id (s : str) : no_upper s -> lower s = s.
Proof.
  intros H. induction H as [| c s Hc _ IH]; [reflexivity |].
  cbn [lower map]. unfold lower_char at 1. rewrite Hc. f_equal. exact IH.
Qed.

Lemma contains_avoids (c : ascii) (s : str) : avoids c s -> contains c s = false.
Proof.
  intros H. induction H as [| d s Hd _ IH]; [reflexivity |].
  cbn [contains existsb]. fold (contains c s). rewrite IH, orb_false_r.
  apply Ascii.eqb_neq. congruence.
Qed.

Lemma contains_app_r (c : ascii) (a b : str) :
  contains c (a ++ c :: b) = true.
Proof.
  unfold contains. rewrite existsb_app. cbn [existsb].
  rewrite Ascii.eqb_refl. cbn. apply orb_true_r.
Qed.

Lemma contains_true (c : ascii) (s : str) : contains c s = true -> In c s.
Proof.
  unfold contains. intros H. apply existsb_exists in H.
  destruct H as [d [Hin Hd]]. apply Ascii.eqb_eq in Hd. subst. assumption.
Qed.

Lemma contains_false (c : ascii) (s : str) : contains c s = false -> avoids c s.
Proof.
  intros H. apply Forall_forall. intros d Hin ->.
  unfold contains in H. rewrite <- not_true_iff_false in H. apply H.
  apply existsb_exists. exists c. split; [assumption | apply Ascii.eqb_refl].
Qed.

Lemma split_avoids (c : ascii) (s : str) : avoids c s -> split c s = [s].
Proof.
  intros H. induction H as [| d s Hd _ IH]; [reflexivity |].
  cbn [split]. rewrite IH. apply Ascii.eqb_neq in Hd. rewrite Hd. reflexivity.
Qed.

Lemma split_app (c : ascii) (a b : str) :
  avoids c a -> split c (a ++ c :: b) = a :: split c b.
Proof.
  intros H. induction H as [| d a Hd _ IH].
  - cbn [app split]. rewrite Ascii.eqb_refl. reflexivity.
  - cbn [app split]. rewrite IH. apply Ascii.eqb_neq in Hd. rewrite Hd. reflexivity.
Qed.

Lemma remove_char_avoids (c : ascii) (s : str) : avoids c s -> remove_char c s = s.
Proof.
  intros H. induction H as [| d s Hd _ IH]; [reflexivity |].
  cbn [remove_char filter]. apply Ascii.eqb_neq in Hd. rewrite Hd. cbn [negb].
  f_equal. exact IH.
Qed.

Lemma remove_char_app (c : ascii) (a b : str) :
  remove_char c (a ++ b) = remove_char c a ++ remove_char c b.
Proof. apply filter_app. Qed.

Lemma remove_char_Forall (P : ascii -> Prop) (c : ascii) (s : str) :
  Forall P s -> Forall P (remove_char c s).
Proof.
  intros H. apply Forall_forall. intros d Hd. apply filter_In in Hd.
  rewrite Forall_forall in H. apply H, Hd.
Qed.

Lemma lstrip_app (c d : ascii) (u w : str) :
  d <> c -> lstrip c (u ++ d :: w) = lstrip c u ++ d :: w.
Proof.
  intros Hd. induction u as [| x u IH].
  - cbn [app lstrip]. apply Ascii.eqb_neq in Hd. rewrite Hd. reflexivity.
  - cbn [app lstrip]. destruct (Ascii.eqb x c); [exact IH | reflexivity].
Qed.

Lemma rstrip_app (c d : ascii) (a t : str) :
  d <> c -> rstrip c (a ++ d :: t) = a ++ d :: rstrip c t.
Proof.
  intros Hd. unfold rstrip.
  rewrite rev_app_distr. cbn [rev]. rewrite <- app_assoc. cbn [app].
  rewrite lstrip_app by assumption.
  rewrite rev_app_distr. cbn [rev]. rewrite rev_involutive, <- app_assoc.
  reflexivity.
Qed.

Lemma lstrip_suffix (c : ascii) (s : str) : exists p, s = p ++ lstrip c s.
Proof.
  induction s as [| x s [p IH]]; [exists []; reflexivity |].
  cbn [lstrip]. destruct (Ascii.eqb x c).
  - exists (x :: p). cbn [app]. f_equal. exact IH.
  - exists []. reflexivity.
Qed.

Lemma rstrip_prefix (c : ascii) (s : str) : exists q, s = rstrip c s ++ q.
Proof.
  unfold rstrip. destruct (lstrip_suffix c (rev s)) as [p Hp].
  exists (rev p). rewrite <- rev_app_distr, <- Hp. symmetry. apply rev_involutive.
Qed.

Lemma rstrip_Forall (P : ascii -> Prop) (c : ascii) (s : str) :
  Forall P s -> Forall P (rstrip c s).
Proof.
  intros H. destruct (rstrip_prefix c s) as [q Hq].
  rewrite Hq in H. apply Forall_app in H. tauto.
Qed.

Lemma zeros_digits (k : nat) : Forall digit (zeros k).
Proof.
  unfold zeros. apply Forall_forall. intros c Hc.
  apply repeat_spec in Hc. subst. reflexivity.
Qed.

Lemma pad_left_digits (w : nat) (s : str) :
  Forall digit s -> Forall digit (pad_left w s).
Proof. intros H. apply Forall_app. split; [apply zeros_digits | assumption]. Qed.

Lemma sign_str_avoids (c : ascii) (s : bool) : c <> "-"%char -> avoids c (sign_str s).
Proof.
  intros H. destruct s; cbn; [| constructor].
  constructor; [congruence | constructor].
Qed.

Lemma sign_str_no_upper (s : bool) : no_upper (sign_str s).
Proof. destruct s; repeat constructor. Qed.

(** *** [int(s)] on the exponent of a formatted float *)

Lemma digit_groups_digits (s : str) : forall prev acc,
  Forall digit s -> s <> [] ->
  digit_groups prev s acc = Some (rev acc ++ s).
Proof.
  induction s as [| c s IH]; intros prev acc H Hne; [congruence |].
  inversion H as [| ? ? Hc Hs]; subst.
  cbn [digit_groups]. unfold digit in Hc. rewrite Hc.
  destruct s as [| d s].
  - cbn [digit_groups rev]. reflexivity.
  - rewrite IH by (assumption || discriminate).
    cbn [rev]. rewrite <- app_assoc. reflexivity.
Qed.

(** ** Facts about [int(s)] and [float(s)] *)

Lemma lstrip_space_id (s : str) : no_space s -> lstrip_space s = s.
Proof. intros H. destruct H as [| c s Hc _]; cbn; [| rewrite Hc]; reflexivity. Qed.

Lemma strip_space_id (s : str) : no_space s -> strip_space s = s.
Proof.
  intros H. unfold strip_space. rewrite (lstrip_space_id s H).
  rewrite lstrip_space_id by (apply Forall_rev; exact H).
  apply rev_involutive.
Qed.

Lemma digits_no_space (s : str) : Forall digit s -> no_space s.
Proof.
  intros H. induction H as [| c s Hc _ IH]; constructor; [| assumption].
  apply digit_classes, Hc.
Qed.

Lemma drop_underscores_id (s : str) : forall prev,
  prev <> "_"%char -> avoids "_" s -> drop_underscores prev s = Some s.
Proof.
  induction s as [| c s IH]; intros prev Hp H.
  - cbn. apply Ascii.eqb_neq in Hp. rewrite Hp. reflexivity.
  - inversion H as [| ? ? Hc Hs]; subst. cbn [drop_underscores].
    apply Ascii.eqb_neq in Hp. rewrite Hp. cbn [andb].
    pose proof Hc as Hc'. apply Ascii.eqb_neq in Hc'. rewrite Hc'.
    rewrite IH by assumption. reflexivity.
Qed.

Lemma span_digits_app (ds r : str) :
  Forall digit ds ->
  match r with [] => True | c :: _ => is_digit c = false end ->
  span_digits (ds ++ r) = (ds, r).
Proof.
  intros H Hr. induction H as [| c ds Hc _ IH].
  - destruct r as [| c r]; [reflexivity |]. cbn. rewrite Hr. reflexivity.
  - cbn [app span_digits]. unfold digit in Hc. rewrite Hc, IH. reflexivity.
Qed.

Lemma span_digits_all (ds : str) : Forall digit ds -> span_digits ds = (ds, []).
Proof.
  intros H. rewrite <- (app_nil_r ds) at 1. apply span_digits_app; [assumption | exact I].
Qed.

Lemma split_sign_digits (es ds : str) (neg : bool) :
  sign_of es = Some neg -> Forall digit ds ->
  split_sign (es ++ ds) = (neg, ds).
Proof.
  intros He Hd.
  destruct es as [| c [| c' es]]; cbn in He.
  - injection He as <-. destruct Hd as [| d ds Hd _]; [reflexivity |].
    destruct (digit_classes d Hd) as (_ & _ & _ & _ & Hm & Hp & _).
    cbn [app]. unfold split_sign.
    destruct d as [[] [] [] [] [] [] [] []]; try reflexivity;
      exfalso; (apply Hm; reflexivity) || (apply Hp; reflexivity).
  - destruct c as [[] [] [] [] [] [] [] []]; try discriminate He;
      injection He as <-; reflexivity.
  - destruct c as [[] [] [] [] [] [] [] []]; discriminate He.
Qed.

Lemma sign_of_no_space (es : str) (neg : bool) :
  sign_of es = Some neg -> no_space es /\ avoids "e" es /\ no_upper es /\ avoids "_" es.
Proof.
  intros He. destruct es as [| c [| c' es]]; cbn in He.
  - repeat split; constructor.
  - destruct c as [[] [] [] [] [] [] [] []]; try discriminate He;
      repeat split; repeat constructor; discriminate.
  - destruct c as [[] [] [] [] [] [] [] []]; discriminate He.
Qed.

Lemma py_int_signed (es ds : str) (neg : bool) :
  sign_of es = Some neg -> Forall digit ds -> ds <> [] ->
  len ds <= int_max_str_digits ->
  py_int (es ++ ds) = Ok (if neg then - Z_of_digits ds else Z_of_digits ds).
Proof.
  intros He Hd Hne Hlen. unfold py_int.
  rewrite strip_space_id.
  2:{ apply Forall_app. split; [apply (sign_of_no_space es neg He) | apply digits_no_space, Hd]. }
  rewrite (split_sign_digits es ds neg He Hd).
  rewrite digit_groups_digits by assumption. cbn [rev app].
  replace (int_max_str_digits <? len ds) with false
    by (symmetry; apply Z.ltb_ge; exact Hlen).
  reflexivity.
Qed.

(** More digits than the limit are not converted. *)
Lemma py_int_too_long (es ds : str) (neg : bool) :
  sign_of es = Some neg -> Forall digit ds -> ds <> [] ->
  int_max_str_digits < len ds ->
  py_int (es ++ ds) = Raise ValueError.
Proof.
  intros He Hd Hne Hlen. unfold py_int.
  rewrite strip_space_id.
  2:{ apply Forall_app. split; [apply (sign_of_no_space es neg He) | apply digits_no_space, Hd]. }
  rewrite (split_sign_digits es ds neg He Hd).
  rewrite digit_groups_digits by assumption. cbn [rev app].
  replace (int_max_str_digits <? len ds) with true
    by (symmetry; apply Z.ltb_lt; exact Hlen).
  reflexivity.
Qed.

Lemma exp_str_shape (X : Z) :
  avoids "e" (exp_str X) /\ no_upper (exp_str X).
Proof.
  unfold exp_str.
  assert (Hd : Forall digit (pad_left 2 (digits_of_Z (Z.abs X)))).
  { apply pad_left_digits, digits_of_Z_digits. }
  split.
  - constructor; [destruct (X <? 0); discriminate |].
    apply digits_avoid; [reflexivity | assumption].
  - constructor; [destruct (X <? 0); reflexivity |].
    apply digits_no_upper. assumption.
Qed.

(** *** [float(s)] on plain decimal text *)

Lemma parse_decimal_point (ip fp : str) :
  Forall digit ip -> Forall digit fp -> ip ++ fp <> [] ->
  parse_decimal (ip ++ "."%char :: fp) =
  Some (Z_of_digits (ip ++ fp), - len fp).
Proof.
  intros Hi Hf Hne. unfold parse_decimal.
  rewrite span_digits_app by (assumption || reflexivity).
  rewrite span_digits_all by assumption.
  destruct (ip ++ fp) eqn:E; [congruence | reflexivity].
Qed.

Lemma parse_decimal_int (ip : str) :
  Forall digit ip -> ip <> [] ->
  parse_decimal ip = Some (Z_of_digits ip, 0).
Proof.
  intros Hi Hne. unfold parse_decimal.
  rewrite span_digits_all by assumption. rewrite app_nil_r.
  destruct ip; [congruence | reflexivity].
Qed.

Lemma sign_of_sign_str (s : bool) : sign_of (sign_str s) = Some s.
Proof. destruct s; reflexivity. Qed.

Lemma split_sign_prefix (es t : str) (neg : bool) :
  sign_of es = Some neg ->
  match t with
  | [] => True
  | c :: _ => c <> "-"%char /\ c <> "+"%char
  end ->
  split_sign (es ++ t) = (neg, t).
Proof.
  intros He H. destruct es as [| c [| c' es]]; cbn in He.
  - injection He as <-. destruct t as [| c t]; [reflexivity |].
    destruct H as [Hm Hp]. cbn [app]. unfold split_sign.
    destruct c as [[] [] [] [] [] [] [] []]; try reflexivity;
      exfalso; (apply Hm; reflexivity) || (apply Hp; reflexivity).
  - destruct c as [[] [] [] [] [] [] [] []]; try discriminate He;
      injection He as <-; reflexivity.
  - destruct c as [[] [] [] [] [] [] [] []]; discriminate He.
Qed.

(** [float] of a sign and a body that reads as a decimal. *)
Lemma py_float_signed (es body : str) (neg : bool) (n k : Z) :
  sign_of es = Some neg -> no_space body -> avoids "_" body ->
  match body with
  | [] => True
  | c :: _ => c <> "-"%char /\ c <> "+"%char
  end ->
  parse_decimal body = Some (n, k) ->
  py_float (es ++ body) = Ok (float_of_dec neg n k).
Proof.
  intros He Hs Hu Hh Hp. unfold py_float.
  destruct (sign_of_no_space es neg He) as (Hes & _ & _ & Heu).
  rewrite strip_space_id by (apply Forall_app; split; assumption).
  rewrite drop_underscores_id;
    [| discriminate | apply Forall_app; split; assumption].
  rewrite (split_sign_prefix es body neg He Hh), Hp. reflexivity.
Qed.

Lemma head_not_sign (ip r : str) (c : ascii) :
  Forall digit ip -> c <> "-"%char /\ c <> "+"%char ->
  match ip ++ c :: r with
  | [] => True
  | d :: _ => d <> "-"%char /\ d <> "+"%char
  end.
Proof.
  intros Hi Hc. destruct Hi as [| d ip Hd _]; cbn [app]; [exact Hc |].
  destruct (digit_classes d Hd) as (_ & _ & _ & _ & Hm & Hp & _). tauto.
Qed.

Lemma py_float_point (es : str) (s : bool) (ip fp : str) :
  sign_of es = Some s ->
  Forall digit ip -> Forall digit fp -> ip ++ fp <> [] ->
  py_float (es ++ ip ++ "."%char :: fp) =
  Ok (float_of_dec s (Z_of_digits (ip ++ fp)) (- len fp)).
Proof.
  intros He Hi Hf Hne. apply py_float_signed; [exact He | | | |].
  - apply Forall_app. split; [apply digits_no_space, Hi |].
    constructor; [reflexivity | apply digits_no_space, Hf].
  - apply Forall_app. split; [apply digits_avoid; [reflexivity | exact Hi] |].
    constructor; [discriminate | apply digits_avoid; [reflexivity | exact Hf]].
  - apply head_not_sign; [exact Hi | split; discriminate].
  - apply parse_decimal_point; assumption.
Qed.

Lemma py_float_int (es : str) (s : bool) (ip : str) :
  sign_of es = Some s -> Forall digit ip -> ip <> [] ->
  py_float (es ++ ip) = Ok (float_of_dec s (Z_of_digits ip) 0).
Proof.
  intros He Hi Hne. apply py_float_signed; [exact He | | | |].
  - apply digits_no_space, Hi.
  - apply digits_avoid; [reflexivity | exact Hi].
  - destruct Hi as [| c ip Hc _]; [exact I |].
    destruct (digit_classes c Hc) as (_ & _ & _ & _ & Hm & Hp & _). tauto.
  - apply parse_decimal_int; assumption.
Qed.

(** *** [float(s)] on text in scientific form *)

Lemma parse_decimal_sci (ip fp xs ed : str) (c : ascii) (sneg : bool) :
  Forall digit ip -> Forall digit fp -> ip ++ fp <> [] ->
  c = "e"%char \/ c = "E"%char ->
  sign_of xs = Some sneg -> Forall digit ed -> ed <> [] ->
  parse_decimal (ip ++ "."%char :: fp ++ c :: xs ++ ed) =
  Some (Z_of_digits (ip ++ fp),
        (if sneg then - Z_of_digits ed else Z_of_digits ed) - len fp).
Proof.
  intros Hi Hf Hne Hc Hx Hed Hne'. unfold parse_decimal.
  rewrite span_digits_app by (assumption || reflexivity).
  rewrite span_digits_app by (assumption || (destruct Hc as [-> | ->]; reflexivity)).
  destruct (ip ++ fp) eqn:E; [congruence |]. rewrite <- E.
  replace (Ascii.eqb c "e" || Ascii.eqb c "E") with true
    by (destruct Hc as [-> | ->]; reflexivity).
  rewrite (split_sign_digits xs ed sneg Hx Hed).
  rewrite span_digits_all by assumption.
  destruct ed; [congruence | reflexivity].
Qed.

Lemma py_float_sci (es : str) (s : bool) (ip fp xs ed : str) (c : ascii) (sneg : bool) :
  sign_of es = Some s ->
  Forall digit ip -> Forall digit fp -> ip ++ fp <> [] ->
  c = "e"%char \/ c = "E"%char ->
  sign_of xs = Some sneg -> Forall digit ed -> ed <> [] ->
  py_float (es ++ ip ++ "."%char :: fp ++ c :: xs ++ ed) =
  Ok (float_of_dec s (Z_of_digits (ip ++ fp))
        ((if sneg then - Z_of_digits ed else Z_of_digits ed) - len fp)).
Proof.
  intros He Hi Hf Hne Hc Hx Hed Hne'.
  destruct (sign_of_no_space xs sneg Hx) as (Hxs & _ & _ & Hxu).
  assert (Hcs : is_space c = false) by (destruct Hc as [-> | ->]; reflexivity).
  assert (Hcu : c <> "_"%char) by (destruct Hc as [-> | ->]; discriminate).
  apply py_float_signed; [exact He | | | |].
  - apply Forall_app. split; [apply digits_no_space, Hi |].
    constructor; [reflexivity |].
    apply Forall_app. split; [apply digits_no_space, Hf |].
    constructor; [exact Hcs |].
    apply Forall_app. split; [exact Hxs | apply digits_no_space, Hed].
  - apply Forall_app. split; [apply digits_avoid; [reflexivity | exact Hi] |].
    constructor; [discriminate |].
    apply Forall_app. split; [apply digits_avoid; [reflexivity | exact Hf] |].
    constructor; [exact Hcu |].
    apply Forall_app. split; [exact Hxu | apply digits_avoid; [reflexivity | exact Hed]].
  - apply head_not_sign; [exact Hi | split; discriminate].
  - apply parse_decimal_sci; assumption.
Qed.

(** ** Facts about decimal digits of numbers *)

Lemma digits_rec_bounds (fuel : nat) : forall n,
  1 <= n < 2 ^ Z.of_nat fuel ->
  let k := len (digits_rec fuel n []) in
  1 <= k /\ 10 ^ (k - 1) <= n < 10 ^ k.
Proof.
  induction fuel as [| fuel IH]; intros n Hn; [simpl in Hn; lia |].
  cbn [digits_rec]. destruct (n <? 10) eqn:E.
  - apply Z.ltb_lt in E. change (len [_]) with 1. cbn. lia.
  - apply Z.ltb_ge in E. rewrite digits_rec_app. unfold len.
    rewrite length_app, Nat2Z.inj_add. change (Z.of_nat (length [_])) with 1.
    rewrite Nat2Z.inj_succ, Z.pow_succ_r in Hn by lia.
    assert (Hq : 1 <= n / 10 < 2 ^ Z.of_nat fuel).
    { split; [apply Z.div_le_lower_bound; lia | apply Z.div_lt_upper_bound; lia]. }
    specialize (IH _ Hq). cbv zeta in IH. unfold len in IH.
    destruct IH as (Hk & Hlo & Hhi).
    set (k := Z.of_nat (length (digits_rec fuel (n / 10) []))) in *.
    replace (k + 1 - 1) with (Z.succ (k - 1)) by lia.
    rewrite (Z.pow_add_r 10 k 1) by lia. change (10 ^ 1) with 10.
    rewrite !Z.pow_succ_r by lia.
    pose proof (Z.div_mod n 10 ltac:(lia)).
    pose proof (Z.mod_pos_bound n 10 ltac:(lia)).
    lia.
Qed.

Lemma ndigits_bounds (n : Z) :
  1 <= n -> 1 <= ndigits n /\ 10 ^ (ndigits n - 1) <= n < 10 ^ ndigits n.
Proof.
  intros Hn. apply digits_rec_bounds. split; [assumption |].
  rewrite Nat2Z.inj_succ, Z2Nat.id by apply Z.log2_nonneg.
  apply Z.log2_spec. lia.
Qed.

Lemma ndigits_pos (n : Z) : 1 <= ndigits n.
Proof.
  unfold ndigits, len. pose proof (digits_of_Z_nonempty n).
  destruct (digits_of_Z n); [congruence |]. cbn [length]. lia.
Qed.

Lemma digits_of_Z_two (n : Z) :
  10 <= n -> exists d c rest, digits_of_Z n = d :: c :: rest.
Proof.
  intros Hn. destruct (ndigits_bounds n ltac:(lia)) as (_ & _ & Hhi).
  unfold ndigits, len in Hhi.
  destruct (digits_of_Z n) as [| d [| c rest]] eqn:E.
  - exfalso. exact (digits_of_Z_nonempty n E).
  - cbn in Hhi. lia.
  - eauto.
Qed.

(** ** Facts about rounding a ratio to an integer *)

Lemma div_half_even_lower (n d : Z) : n / d <= div_half_even n d.
Proof.
  unfold div_half_even. destruct (2 * (n mod d) ?= d); [| lia | lia].
  destruct (Z.even (n / d)); lia.
Qed.

Lemma div_half_even_le (n d K : Z) :
  0 < d -> n <= K * d -> div_half_even n d <= K.
Proof.
  intros Hd Hn. unfold div_half_even.
  pose proof (Z.div_mod n d ltac:(lia)) as Hdm.
  pose proof (Z.mod_pos_bound n d Hd) as Hm.
  assert (Hq : n / d <= K) by (apply Z.div_le_upper_bound; lia).
  destruct (Z.eq_dec (n / d) K) as [E | E].
  - assert (n mod d = 0) by nia.
    replace (2 * (n mod d) ?= d) with Lt; [lia |].
    symmetry. apply Z.compare_lt_iff. lia.
  - destruct (2 * (n mod d) ?= d); [destruct (Z.even (n / d)) | |]; lia.
Qed.

Lemma div_half_even_ge (n d K : Z) :
  0 < d -> K * d <= n -> K <= div_half_even n d.
Proof.
  intros Hd Hn. pose proof (div_half_even_lower n d).
  assert (K <= n / d) by (apply Z.div_le_lower_bound; lia). lia.
Qed.

(** ** The decimal exponent *)

Lemma scaled_pos (m : positive) (e p : Z) :
  0 < fst (scaled m e p) /\ 0 < snd (scaled m e p).
Proof.
  unfold scaled. cbn [fst snd].
  assert (0 < 2 ^ Z.max e 0) by (apply Z.pow_pos_nonneg; lia).
  assert (0 < 10 ^ Z.max p 0) by (apply Z.pow_pos_nonneg; lia).
  assert (0 < 2 ^ Z.max (- e) 0) by (apply Z.pow_pos_nonneg; lia).
  assert (0 < 10 ^ Z.max (- p) 0) by (apply Z.pow_pos_nonneg; lia).
  split; [| nia]. assert (0 < Z.pos m * 2 ^ Z.max e 0) by nia. nia.
Qed.

Lemma dec_exponent_lower (m : positive) (e : Z) :
  pow10_le_ratio (dec_exponent m e)
    (Z.pos m * 2 ^ Z.max e 0) (2 ^ Z.max (- e) 0).
Proof.
  unfold dec_exponent, scaled. rewrite !Z.max_id. change (10 ^ 0) with 1.
  rewrite !Z.mul_1_r.
  set (n := Z.pos m * 2 ^ Z.max e 0). set (d := 2 ^ Z.max (- e) 0).
  assert (Hn : 0 < n).
  { assert (0 < 2 ^ Z.max e 0) by (apply Z.pow_pos_nonneg; lia). subst n. nia. }
  assert (Hd : 0 < d) by (apply Z.pow_pos_nonneg; lia).
  unfold pow10_le_ratio.
  destruct (d <=? n) eqn:E.
  - apply Z.leb_le in E.
    assert (Hq : 1 <= n / d) by (apply Z.div_le_lower_bound; lia).
    destruct (ndigits_bounds _ Hq) as (Hk & Hlo & _).
    replace (0 <=? ndigits (n / d) - 1) with true by (symmetry; apply Z.leb_le; lia).
    pose proof (Z.mul_div_le n d Hd). nia.
  - apply Z.leb_gt in E.
    assert (Hq : 1 <= (d - 1) / n) by (apply Z.div_le_lower_bound; lia).
    destruct (ndigits_bounds _ Hq) as (Hk & _ & Hhi).
    replace (0 <=? - ndigits ((d - 1) / n)) with false by (symmetry; apply Z.leb_gt; lia).
    rewrite Z.opp_involutive.
    set (j := ndigits ((d - 1) / n)) in *.
    assert (d - 1 < n * 10 ^ j).
    { pose proof (Z.div_mod (d - 1) n ltac:(lia)).
      pose proof (Z.mod_pos_bound (d - 1) n Hn). nia. }
    lia.
Qed.

Lemma round_dec_lower (m : positive) (e P : Z) :
  1 <= P -> 10 ^ (P - 1) <= round_dec m e (P - 1 - dec_exponent m e).
Proof.
  intros HP. pose proof (dec_exponent_lower m e) as HX.
  unfold round_dec, scaled.
  set (X := dec_exponent m e) in *.
  set (n := Z.pos m * 2 ^ Z.max e 0) in *. set (d := 2 ^ Z.max (- e) 0) in *.
  assert (Hd : 0 < d) by (apply Z.pow_pos_nonneg; lia).
  assert (Hn : 0 < n).
  { assert (0 < 2 ^ Z.max e 0) by (apply Z.pow_pos_nonneg; lia). subst n. nia. }
  apply div_half_even_ge.
  - assert (0 < 10 ^ Z.max (- (P - 1 - X)) 0) by (apply Z.pow_pos_nonneg; lia). nia.
  - unfold pow10_le_ratio in HX.
    assert (H10 : 0 < 10 ^ (P - 1)) by (apply Z.pow_pos_nonneg; lia).
    destruct (0 <=? X) eqn:E; [apply Z.leb_le in E | apply Z.leb_gt in E].
    + destruct (Z.le_gt_cases 0 (P - 1 - X)) as [Hp | Hp].
      * rewrite (Z.max_l (P - 1 - X)), (Z.max_r (- (P - 1 - X))) by lia.
        change (10 ^ 0) with 1.
        replace (P - 1) with ((P - 1 - X) + X) at 1 by lia.
        rewrite Z.pow_add_r by lia.
        assert (0 < 10 ^ (P - 1 - X)) by (apply Z.pow_pos_nonneg; lia). nia.
      * rewrite (Z.max_r (P - 1 - X)), (Z.max_l (- (P - 1 - X))) by lia.
        change (10 ^ 0) with 1.
        replace (10 ^ (P - 1) * (d * 10 ^ (- (P - 1 - X)))) with (10 ^ X * d).
        -- lia.
        -- replace X with ((P - 1) + (- (P - 1 - X))) at 1 by lia.
           rewrite Z.pow_add_r by lia. ring.
    + rewrite (Z.max_l (P - 1 - X)), (Z.max_r (- (P - 1 - X))) by lia.
      change (10 ^ 0) with 1.
      replace (P - 1 - X) with ((P - 1) + (- X)) by lia.
      rewrite Z.pow_add_r by lia. nia.
Qed.

Lemma sig_digits_lower (m : positive) (e P : Z) :
  1 <= P -> 10 ^ (P - 1) <= fst (sig_digits m e P).
Proof.
  intros HP. unfold sig_digits.
  destruct (_ =? _); cbn [fst]; [lia | apply round_dec_lower, HP].
Qed.

(** ** The exponent of a formatted float *)

(** The exponent of a formatted float has few digits. *)
Lemma exp_digits_few (X : Z) :
  Z.abs X <= 9999 ->
  len (pad_left 2 (digits_of_Z (Z.abs X))) <= int_max_str_digits.
Proof.
  intros HX. unfold pad_left, len, zeros. rewrite length_app, repeat_length.
  assert (H : Z.of_nat (length (digits_of_Z (Z.abs X))) <= 4).
  { destruct (Z.eq_dec (Z.abs X) 0) as [-> | Hz]; [cbn; lia |].
    destruct (ndigits_bounds (Z.abs X) ltac:(lia)) as (_ & Hlo & _).
    unfold ndigits, len in Hlo.
    set (k := Z.of_nat (length (digits_of_Z (Z.abs X)))) in *.
    destruct (Z_le_gt_dec k 4) as [L | G]; [exact L | exfalso].
    assert (10 ^ 4 <= 10 ^ (k - 1)) by (apply Z.pow_le_mono_r; lia).
    change (10 ^ 4) with 10000 in *. lia. }
  unfold int_max_str_digits. lia.
Qed.

Lemma py_int_exp_str (X : Z) : Z.abs X <= 9999 -> py_int (exp_str X) = Ok X.
Proof.
  intros HX. unfold exp_str.
  assert (Hd : Forall digit (pad_left 2 (digits_of_Z (Z.abs X)))).
  { apply pad_left_digits, digits_of_Z_digits. }
  assert (Hne : pad_left 2 (digits_of_Z (Z.abs X)) <> []).
  { unfold pad_left. intros H. apply app_eq_nil in H. destruct H as [_ H].
    exact (digits_of_Z_nonempty _ H). }
  pose proof (exp_digits_few X HX) as Hlen.
  destruct (X <? 0) eqn:E.
  - pose proof (py_int_signed ["-"%char] _ true eq_refl Hd Hne Hlen) as H.
    cbn [app] in H. rewrite H.
    rewrite Z_of_digits_pad, Z_of_digits_of_Z by lia.
    apply Z.ltb_lt in E. f_equal. lia.
  - pose proof (py_int_signed ["+"%char] _ false eq_refl Hd Hne Hlen) as H.
    cbn [app] in H. rewrite H.
    rewrite Z_of_digits_pad, Z_of_digits_of_Z by lia.
    apply Z.ltb_ge in E. f_equal. lia.
Qed.

(** ** The parser on scientific text *)

Lemma find_sci (depth : nat) (m ex whole frac : str) (k : Z) :
  no_upper m -> avoids "e" m -> no_upper ex -> avoids "e" ex ->
  split "." (remove_char "-" m) = whole :: frac :: nil ->
  py_int ex = Ok k ->
  find_sigfigs_lsf_rec (S depth) (m ++ "e"%char :: ex) =
  Ok (len (remove_char "-" m) - 1,
      if 0 <? len frac then - len frac + k else k).
Proof.
  intros Hum Hem Hux Hex Hsplit Hint.
  cbn [find_sigfigs_lsf_rec].
  rewrite lower_id.
  2:{ apply Forall_app. split; [assumption |]. constructor; [reflexivity | assumption]. }
  rewrite contains_app_r, split_app by assumption.
  rewrite (split_avoids _ ex Hex).
  cbn [item nth_error bind]. rewrite Hsplit. cbn [item nth_error bind].
  rewrite Hint. destruct (0 <? len frac); reflexivity.
Qed.

(** The mantissa of a formatted float: a sign, a digit, a point, digits. *)
Lemma find_sci_mantissa (depth : nat) (s : bool) (d : ascii) (rest : str) (X : Z) :
  digit d -> Forall digit rest -> Z.abs X <= 9999 ->
  find_sigfigs_lsf_rec (S depth)
    ((sign_str s ++ d :: "."%char :: rest) ++ "e"%char :: exp_str X) =
  Ok (1 + len rest, X - len rest).
Proof.
  intros Hd Hr HX.
  assert (Hbody : Forall digit (d :: rest)) by (constructor; assumption).
  assert (Hrm : remove_char "-" (sign_str s ++ d :: "."%char :: rest) =
                d :: "."%char :: rest).
  { rewrite remove_char_app.
    replace (remove_char "-" (sign_str s)) with (@nil ascii) by (destruct s; reflexivity).
    apply remove_char_avoids.
    constructor; [apply (digit_classes d Hd) |].
    constructor; [discriminate | apply digits_avoid; [reflexivity | exact Hr]]. }
  rewrite (find_sci depth _ _ [d] rest X).
  - rewrite Hrm. f_equal. f_equal.
    + unfold len. cbn [length]. lia.
    + destruct (0 <? len rest) eqn:E; [lia |].
      apply Z.ltb_ge in E. unfold len in *. lia.
  - apply Forall_app. split; [apply sign_str_no_upper |].
    constructor; [apply (digit_classes d Hd) |].
    constructor; [reflexivity | apply digits_no_upper, Hr].
  - apply Forall_app. split; [apply sign_str_avoids; discriminate |].
    constructor; [apply (digit_classes d Hd) |].
    constructor; [discriminate | apply digits_avoid; [reflexivity | exact Hr]].
  - apply exp_str_shape.
  - apply exp_str_shape.
  - rewrite Hrm. change (d :: "."%char :: rest) with ([d] ++ "."%char :: rest).
    rewrite split_app.
    + rewrite split_avoids; [reflexivity |]. apply digits_avoid; [reflexivity | exact Hr].
    + constructor; [apply (digit_classes d Hd) | constructor].
  - apply py_int_exp_str, HX.
Qed.

(** ** Facts about rounding to binary64 *)

Lemma ratio_ge_pow2_spec (n d k : Z) :
  ratio_ge_pow2 n d k = true -> pow2_le_ratio k n d.
Proof.
  unfold ratio_ge_pow2, pow2_le_ratio. destruct (0 <=? k); apply Z.leb_le.
Qed.

Lemma log2_ratio_lower (n d : Z) :
  0 < n -> 0 < d -> pow2_le_ratio (Z.log2 n - Z.log2 d - 1) n d.
Proof.
  intros Hn Hd.
  destruct (Z.log2_spec n Hn) as [Ha _]. destruct (Z.log2_spec d Hd) as [_ Hb].
  pose proof (Z.log2_nonneg n). pose proof (Z.log2_nonneg d).
  set (a := Z.log2 n) in *. set (b := Z.log2 d) in *.
  unfold pow2_le_ratio.
  destruct (0 <=? a - b - 1) eqn:E; [apply Z.leb_le in E | apply Z.leb_gt in E].
  - assert (Hp : 2 ^ a = 2 ^ Z.succ b * 2 ^ (a - b - 1)).
    { rewrite <- Z.pow_add_r by lia. f_equal. lia. }
    assert (0 < 2 ^ (a - b - 1)) by (apply Z.pow_pos_nonneg; lia). nia.
  - assert (Hp : 2 ^ Z.succ b = 2 ^ a * 2 ^ (- (a - b - 1))).
    { rewrite <- Z.pow_add_r by lia. f_equal. lia. }
    assert (0 < 2 ^ (- (a - b - 1))) by (apply Z.pow_pos_nonneg; lia). nia.
Qed.

Lemma float_of_ratio_finite (s : bool) (n d : Z) :
  0 <= n -> 0 < d -> n <= max_float * d ->
  is_finite (float_of_ratio s n d) = true.
Proof.
  intros Hn Hd Hmax. unfold float_of_ratio.
  destruct (n =? 0) eqn:En; [reflexivity |]. apply Z.eqb_neq in En.
  assert (Hn' : 0 < n) by lia.
  set (lg := Z.log2 n - Z.log2 d).
  set (E := if ratio_ge_pow2 n d lg then lg else lg - 1).
  assert (HE : pow2_le_ratio E n d).
  { subst E. destruct (ratio_ge_pow2 n d lg) eqn:Er.
    - apply ratio_ge_pow2_spec, Er.
    - apply log2_ratio_lower; assumption. }
  set (T := 2 ^ 971) in *.
  assert (HT : 0 < T) by (apply Z.pow_pos_nonneg; lia).
  assert (HE' : E <= 1023).
  { destruct (Z.le_gt_cases E 1023) as [| Hbig]; [assumption | exfalso].
    unfold pow2_le_ratio in HE.
    replace (0 <=? E) with true in HE by (symmetry; apply Z.leb_le; lia).
    assert (H1 : 2 ^ 1024 <= 2 ^ E) by (apply Z.pow_le_mono_r; lia).
    assert (H2 : 2 ^ 1024 = 2 ^ 53 * T).
    { subst T. rewrite <- Z.pow_add_r by lia. reflexivity. }
    unfold max_float in Hmax. fold T in Hmax.
    assert (d * (2 ^ 53 * T) <= (2 ^ 53 - 1) * T * d) by nia.
    assert (0 < T * d) by nia. nia. }
  set (e := Z.max (E - 52) (-1074)).
  assert (He : e <= 971) by lia.
  set (q := if 0 <=? e then div_half_even n (d * 2 ^ e)
            else div_half_even (n * 2 ^ (- e)) d).
  destruct (q =? 0); [reflexivity |].
  assert (Hq : e = 971 -> q <= 2 ^ 53 - 1).
  { intros ->. subst q. cbn [Z.leb Z.compare]. fold T.
    apply div_half_even_le; [nia | unfold max_float in Hmax; fold T in Hmax; nia]. }
  destruct (q =? 2 ^ 53) eqn:Eq.
  - apply Z.eqb_eq in Eq.
    assert (e + 1 <= 971) by (destruct (Z.eq_dec e 971) as [E1 | E1]; [specialize (Hq E1) |]; lia).
    replace (e + 1 <=? emax - prec) with true; [reflexivity |].
    symmetry. apply Z.leb_le. exact H.
  - replace (e <=? emax - prec) with true; [reflexivity |].
    symmetry. apply Z.leb_le. exact He.
Qed.

Lemma float_of_dec_finite (s : bool) (n p : Z) :
  0 <= n -> 0 <= p -> n <= max_float * 10 ^ p ->
  is_finite (float_of_dec s n (- p)) = true.
Proof.
  intros Hn Hp Hmax. unfold float_of_dec.
  destruct (0 <=? - p) eqn:E.
  - apply Z.leb_le in E. assert (p = 0) by lia. subst p.
    change (10 ^ (- 0)) with 1. change (10 ^ 0) with 1 in Hmax.
    apply float_of_ratio_finite; lia.
  - rewrite Z.opp_involutive. apply float_of_ratio_finite; try assumption.
    apply Z.pow_pos_nonneg; lia.
Qed.

Lemma float_of_dec_zero (s : bool) (k : Z) : float_of_dec s 0 k = S754_zero s.
Proof. unfold float_of_dec. destruct (0 <=? k); reflexivity. Qed.

Lemma float_of_ratio_not_nan (s : bool) (n d : Z) :
  isnan (float_of_ratio s n d) = false.
Proof.
  unfold float_of_ratio. destruct (n =? 0); [reflexivity |].
  destruct (_ =? 0); [reflexivity |].
  destruct (_ =? 2 ^ 53); destruct (_ <=? _); reflexivity.
Qed.

Lemma float_of_ratio_sign (s : bool) (n d : Z) :
  signbit (float_of_ratio s n d) = s.
Proof.
  unfold float_of_ratio. destruct (n =? 0); [reflexivity |].
  destruct (_ =? 0); [reflexivity |].
  destruct (_ =? 2 ^ 53); destruct (_ <=? _); reflexivity.
Qed.

Lemma round_dec_upper (m : positive) (e p : Z) :
  Z.pos m < 2 ^ 53 -> e <= 971 -> 0 <= p ->
  round_dec m e p <= max_float * 10 ^ p.
Proof.
  intros Hm He Hp. unfold round_dec, scaled.
  rewrite (Z.max_l p 0), (Z.max_r (- p) 0) by lia. change (10 ^ 0) with 1.
  assert (H10 : 0 < 10 ^ p) by (apply Z.pow_pos_nonneg; lia).
  assert (Hd2 : 0 < 2 ^ Z.max (- e) 0) by (apply Z.pow_pos_nonneg; lia).
  apply div_half_even_le; [lia |].
  unfold max_float. set (T := 2 ^ 971).
  assert (HT : 0 < T) by (apply Z.pow_pos_nonneg; lia).
  destruct (Z.le_gt_cases 0 e) as [H0 | H0].
  - rewrite (Z.max_l e 0), (Z.max_r (- e) 0) by lia. change (2 ^ 0) with 1.
    assert (2 ^ e <= T) by (apply Z.pow_le_mono_r; lia).
    assert (0 < 2 ^ e) by (apply Z.pow_pos_nonneg; lia).
    assert (Z.pos m * 2 ^ e <= (2 ^ 53 - 1) * T) by nia. nia.
  - rewrite (Z.max_r e 0), (Z.max_l (- e) 0) by lia. change (2 ^ 0) with 1.
    assert (0 < 2 ^ (- e)) by (apply Z.pow_pos_nonneg; lia).
    assert (Z.pos m * 1 <= (2 ^ 53 - 1) * T * 2 ^ (- e)) by nia. nia.
Qed.

Lemma round_dec_nonneg (m : positive) (e p : Z) : 0 <= round_dec m e p.
Proof.
  unfold round_dec. destruct (scaled_pos m e p) as [Hn Hd].
  destruct (scaled m e p) as [n d]. cbn [fst snd] in *.
  pose proof (div_half_even_lower n d).
  assert (0 <= n / d) by (apply Z.div_pos; lia). lia.
Qed.

(** ** Floats and decimals as rational numbers *)

Lemma Qpow_pos (b : Q) (k : Z) : (0 < b)%Q -> (0 < b ^ k)%Q.
Proof. apply Qpower_0_lt. Qed.

Lemma Qpow_split (b : Q) (k : Z) :
  (0 < b)%Q -> (b ^ Z.max k 0 == b ^ k * b ^ Z.max (- k) 0)%Q.
Proof.
  intros Hb. assert (Hnz : ~ (b == 0)%Q) by (intros E; rewrite E in Hb; discriminate Hb).
  rewrite <- Qpower_plus by exact Hnz. 
  destruct (Z.le_gt_cases 0 k).
  - rewrite (Z.max_l k 0), (Z.max_r (- k) 0) by lia. rewrite Z.add_0_r. reflexivity.
  - rewrite (Z.max_r k 0), (Z.max_l (- k) 0) by lia. rewrite Z.add_opp_diag_r. reflexivity.
Qed.

Lemma inject_pow (b k : Z) : 0 <= k -> (inject_Z (b ^ k) == inject_Z b ^ k)%Q.
Proof. apply Zpower_Qpower. Qed.

Lemma scaled_Q (m : positive) (e p : Z) :
  (inject_Z (fst (scaled m e p)) ==
   Qval m e * 10 ^ p * inject_Z (snd (scaled m e p)))%Q.
Proof.
  unfold scaled, Qval. cbn [fst snd].
  rewrite !inject_Z_mult, !inject_pow by lia.
  change (inject_Z 2) with 2%Q. change (inject_Z 10) with 10%Q.
  rewrite (Qpow_split 2 e), (Qpow_split 10 p) by reflexivity. ring.
Qed.

Lemma scaled_den_pos (m : positive) (e p : Z) :
  (0 < inject_Z (snd (scaled m e p)))%Q.
Proof.
  rewrite <- (Zlt_Qlt 0). apply scaled_pos.
Qed.

(** Rounding to the nearest integer, read on the exact quotient [x]. *)
Lemma div_half_even_unique (n d N : Z) :
  0 < d -> 2 * Z.abs (n - N * d) < d -> div_half_even n d = N.
Proof.
  intros Hd H. unfold div_half_even.
  pose proof (Z.div_mod n d ltac:(lia)) as Hdm.
  pose proof (Z.mod_pos_bound n d Hd) as Hm.
  destruct (Z.le_gt_cases (N * d) n) as [Hge | Hlt].
  - assert (n / d = N) by nia.
    replace (2 * (n mod d) ?= d) with Lt; [assumption |].
    symmetry. apply Z.compare_lt_iff. nia.
  - assert (n / d = N - 1) by nia.
    replace (2 * (n mod d) ?= d) with Gt; [lia |].
    symmetry. apply Z.compare_gt_iff. nia.
Qed.

Lemma div_half_even_Q (A B N : Z) (x : Q) :
  0 < B -> (inject_Z A == x * inject_Z B)%Q ->
  (inject_Z N - (1 # 2) < x)%Q -> (x < inject_Z N + (1 # 2))%Q ->
  div_half_even A B = N.
Proof.
  intros HB HA Hlo Hhi. apply div_half_even_unique; [assumption |].
  assert (HBq : (0 < inject_Z B)%Q) by (rewrite <- (Zlt_Qlt 0); exact HB).
  assert (H1 : (inject_Z (2 * N * B + - B) < inject_Z (2 * A))%Q).
  { rewrite inject_Z_plus, inject_Z_opp, !inject_Z_mult, HA.
    change (inject_Z 2) with 2%Q. nra. }
  assert (H2 : (inject_Z (2 * A) < inject_Z (2 * N * B + B))%Q).
  { rewrite inject_Z_plus, !inject_Z_mult, HA. change (inject_Z 2) with 2%Q. nra. }
  rewrite <- Zlt_Qlt in H1, H2. lia.
Qed.

Lemma round_dec_Q (m : positive) (e p N : Z) :
  (inject_Z N - (1 # 2) < Qval m e * 10 ^ p)%Q ->
  (Qval m e * 10 ^ p < inject_Z N + (1 # 2))%Q ->
  round_dec m e p = N.
Proof.
  intros Hlo Hhi. unfold round_dec.
  pose proof (scaled_Q m e p) as HA. pose proof (scaled_pos m e p) as [_ HB].
  destruct (scaled m e p) as [A B]. cbn [fst snd] in *.
  exact (div_half_even_Q A B N _ HB HA Hlo Hhi).
Qed.

Lemma Qpow_succ (b : Q) (k : Z) : (0 < b)%Q -> (b ^ (k + 1) == b ^ k * b)%Q.
Proof.
  intros Hb. rewrite Qpower_plus by (intros E; rewrite E in Hb; discriminate Hb).
  reflexivity.
Qed.

Lemma Qpow_opp_r (b : Q) (k : Z) : (0 < b)%Q -> (b ^ k * b ^ (- k) == 1)%Q.
Proof.
  intros Hb. rewrite <- Qpower_plus by (intros E; rewrite E in Hb; discriminate Hb).
  rewrite Z.add_opp_diag_r. reflexivity.
Qed.

Lemma Qpow_add (b : Q) (j k : Z) : (0 < b)%Q -> (b ^ (j + k) == b ^ j * b ^ k)%Q.
Proof.
  intros Hb. apply Qpower_plus. intros E; rewrite E in Hb; discriminate Hb.
Qed.

Lemma dec_exponent_Q (m : positive) (e : Z) :
  (10 ^ dec_exponent m e <= Qval m e)%Q /\
  (Qval m e < 10 ^ (dec_exponent m e + 1))%Q.
Proof.
  unfold dec_exponent.
  pose proof (scaled_Q m e 0) as HA. pose proof (scaled_pos m e 0) as [HAp HBp].
  destruct (scaled m e 0) as [A B]. cbn [fst snd] in *.
  change (10 ^ 0)%Q with 1%Q in HA. rewrite Qmult_1_r in HA.
  set (f := Qval m e) in *.
  assert (HBq : (0 < inject_Z B)%Q) by (rewrite <- (Zlt_Qlt 0); exact HBp).
  destruct (B <=? A) eqn:E.
  - apply Z.leb_le in E.
    assert (Hq : 1 <= A / B) by (apply Z.div_le_lower_bound; lia).
    destruct (ndigits_bounds _ Hq) as (Hk & Hlo & Hhi).
    set (k := ndigits (A / B)) in *.
    replace (k - 1 + 1) with k by lia.
    pose proof (Z.div_mod A B ltac:(lia)) as Hdm.
    pose proof (Z.mod_pos_bound A B HBp) as Hmod.
    assert (H1 : 10 ^ (k - 1) * B <= A) by nia.
    assert (H2 : A < 10 ^ k * B) by nia.
    rewrite Zle_Qle, inject_Z_mult, inject_pow, HA in H1 by lia.
    rewrite Zlt_Qlt, inject_Z_mult, inject_pow, HA in H2 by lia.
    change (inject_Z 10) with 10%Q in *. split; nra.
  - apply Z.leb_gt in E.
    assert (Hq : 1 <= (B - 1) / A) by (apply Z.div_le_lower_bound; lia).
    destruct (ndigits_bounds _ Hq) as (Hk & Hlo & Hhi).
    set (j := ndigits ((B - 1) / A)) in *.
    pose proof (Z.div_mod (B - 1) A ltac:(lia)) as Hdm.
    pose proof (Z.mod_pos_bound (B - 1) A HAp) as Hmod.
    assert (H1 : B <= 10 ^ j * A) by nia.
    assert (H2 : 10 ^ (j - 1) * A < B) by nia.
    rewrite Zle_Qle, inject_Z_mult, inject_pow, HA in H1 by lia.
    rewrite Zlt_Qlt, inject_Z_mult, inject_pow, HA in H2 by lia.
    change (inject_Z 10) with 10%Q in *.
    pose proof (Qpow_pos 10 (- j) eq_refl) as Hp1.
    pose proof (Qpow_opp_r 10 j eq_refl) as Hp2.
    pose proof (Qpow_pos 10 (- j + 1) eq_refl) as Hp3.
    pose proof (Qpow_add 10 (- j + 1) (j - 1) eq_refl) as Hp4.
    replace (- j + 1 + (j - 1)) with 0 in Hp4 by lia. change (10 ^ 0)%Q with 1%Q in Hp4.
    pose proof (Qpow_pos 10 j eq_refl) as Hp5.
    pose proof (Qpow_pos 10 (j - 1) eq_refl) as Hp6.
    split.
    + assert (H3 : (1 <= 10 ^ j * f)%Q) by nra.
      assert (H4 : (10 ^ (- j) * 1 <= 10 ^ (- j) * (10 ^ j * f))%Q)
        by (apply Qmult_le_l; assumption).
      rewrite Qmult_1_r, Qmult_assoc, (Qmult_comm (10 ^ (- j))), Hp2, Qmult_1_l in H4.
      exact H4.
    + assert (H3 : (10 ^ (j - 1) * f < 1)%Q) by nra.
      assert (H4 : (10 ^ (- j + 1) * (10 ^ (j - 1) * f) < 10 ^ (- j + 1) * 1)%Q)
        by (apply Qmult_lt_l; assumption).
      rewrite Qmult_1_r, Qmult_assoc, <- Hp4, Qmult_1_l in H4. exact H4.
Qed.

(** ** The accuracy of [float(s)] *)

Lemma div_half_even_error (n d : Z) :
  0 < d -> 2 * Z.abs (div_half_even n d * d - n) <= d.
Proof.
  intros Hd. unfold div_half_even. cbv zeta.
  pose proof (Z.div_mod n d ltac:(lia)) as Hdm.
  pose proof (Z.mod_pos_bound n d Hd) as Hm.
  set (q := n / d) in *. set (r := n mod d) in *. clearbody q r.
  destruct (2 * r ?= d) eqn:E.
  - apply Z.compare_eq_iff in E. subst n. destruct (Z.even q).
    + replace (q * d - (d * q + r)) with (- r) by ring. lia.
    + replace ((q + 1) * d - (d * q + r)) with (d - r) by ring. lia.
  - assert (2 * r < d) by (apply Z.compare_lt_iff; exact E). subst n.
    replace (q * d - (d * q + r)) with (- r) by ring. lia.
  - assert (d < 2 * r) by (apply Z.compare_gt_iff; exact E). subst n.
    replace ((q + 1) * d - (d * q + r)) with (d - r) by ring. lia.
Qed.

Lemma div_half_even_error_Q (A B : Z) (x : Q) :
  0 < B -> (inject_Z A == x * inject_Z B)%Q ->
  (inject_Z (div_half_even A B) - (1 # 2) <= x)%Q /\
  (x <= inject_Z (div_half_even A B) + (1 # 2))%Q.
Proof.
  intros HB HA. pose proof (div_half_even_error A B HB) as H.
  set (q := div_half_even A B) in *.
  assert (HBq : (0 < inject_Z B)%Q) by (rewrite <- (Zlt_Qlt 0); exact HB).
  assert (H1 : 2 * q * B + - B <= 2 * A) by lia.
  assert (H2 : 2 * A <= 2 * q * B + B) by lia.
  rewrite Zle_Qle, inject_Z_plus, inject_Z_opp, !inject_Z_mult, HA in H1.
  rewrite Zle_Qle, inject_Z_plus, !inject_Z_mult, HA in H2.
  change (inject_Z 2) with 2%Q in *. split; nra.
Qed.

Lemma ratio_ge_pow2_Q (n d k : Z) :
  if ratio_ge_pow2 n d k then (2 ^ k * inject_Z d <= inject_Z n)%Q
  else (inject_Z n < 2 ^ k * inject_Z d)%Q.
Proof.
  unfold ratio_ge_pow2. destruct (0 <=? k) eqn:E.
  - apply Z.leb_le in E. destruct (d * 2 ^ k <=? n) eqn:C.
    + apply Z.leb_le in C. rewrite Zle_Qle, inject_Z_mult, inject_pow in C by lia.
      change (inject_Z 2) with 2%Q in C. rewrite Qmult_comm. exact C.
    + apply Z.leb_gt in C. rewrite Zlt_Qlt, inject_Z_mult, inject_pow in C by lia.
      change (inject_Z 2) with 2%Q in C. rewrite Qmult_comm. exact C.
  - apply Z.leb_gt in E.
    pose proof (Qpow_pos 2 k eq_refl) as Hp.
    pose proof (Qpow_opp_r 2 k eq_refl) as Hp2.
    destruct (d <=? n * 2 ^ (- k)) eqn:C.
    + apply Z.leb_le in C. rewrite Zle_Qle, inject_Z_mult, inject_pow in C by lia.
      change (inject_Z 2) with 2%Q in C.
      assert (H : (2 ^ k * inject_Z d <= 2 ^ k * (inject_Z n * 2 ^ (- k)))%Q)
        by (apply Qmult_le_l; assumption).
      rewrite (Qmult_comm (inject_Z n)), Qmult_assoc, Hp2, Qmult_1_l in H. exact H.
    + apply Z.leb_gt in C. rewrite Zlt_Qlt, inject_Z_mult, inject_pow in C by lia.
      change (inject_Z 2) with 2%Q in C.
      assert (H : (2 ^ k * (inject_Z n * 2 ^ (- k)) < 2 ^ k * inject_Z d)%Q)
        by (apply Qmult_lt_l; assumption).
      rewrite (Qmult_comm (inject_Z n)), Qmult_assoc, Hp2, Qmult_1_l in H. exact H.
Qed.

Lemma log2_Q (n : Z) :
  0 < n ->
  (2 ^ Z.log2 n <= inject_Z n)%Q /\ (inject_Z n < 2 ^ Z.log2 n * 2)%Q.
Proof.
  intros Hn. destruct (Z.log2_spec n Hn) as [H1 H2].
  pose proof (Z.log2_nonneg n) as H0.
  rewrite Z.pow_succ_r in H2 by assumption.
  rewrite Zle_Qle, inject_pow in H1 by assumption.
  rewrite Zlt_Qlt, inject_Z_mult, inject_pow in H2 by assumption.
  change (inject_Z 2) with 2%Q in *. split; [exact H1 | lra].
Qed.

(** The exponent [E] the conversion chooses brackets the ratio. *)
Lemma binade_Q (n d : Z) :
  0 < n -> 0 < d ->
  let lg := Z.log2 n - Z.log2 d in
  let E := if ratio_ge_pow2 n d lg then lg else lg - 1 in
  (2 ^ E * inject_Z d <= inject_Z n)%Q /\
  (inject_Z n < 2 ^ (E + 1) * inject_Z d)%Q.
Proof.
  intros Hn Hd lg E.
  destruct (log2_Q n Hn) as [Ha1 Ha2]. destruct (log2_Q d Hd) as [Hb1 Hb2].
  set (a := Z.log2 n) in *. set (b := Z.log2 d) in *.
  assert (HD : (0 < inject_Z d)%Q) by (rewrite <- (Zlt_Qlt 0); exact Hd).
  pose proof (Qpow_pos 2 lg eq_refl) as Hlg.
  pose proof (Qpow_pos 2 b eq_refl) as Hpb.
  assert (Hsum : (2 ^ a == 2 ^ lg * 2 ^ b)%Q).
  { rewrite <- Qpow_add by reflexivity. subst lg. replace (a - b + b) with a by lia. reflexivity. }
  pose proof (ratio_ge_pow2_Q n d lg) as Hc.
  subst E. destruct (ratio_ge_pow2 n d lg).
  - split; [exact Hc |]. rewrite Qpow_succ by reflexivity. rewrite Hsum in Ha2. nra.
  - replace (lg - 1 + 1) with lg by lia. split; [| exact Hc].
    assert (Hm : (2 ^ (lg - 1) * 2 == 2 ^ lg)%Q).
    { rewrite <- Qpow_succ by reflexivity. replace (lg - 1 + 1) with lg by lia. reflexivity. }
    pose proof (Qpow_pos 2 (lg - 1) eq_refl) as Hlg1.
    rewrite Hsum in Ha1. rewrite <- Hm in Ha1. nra.
Qed.

(** ** The floats that [float(s)] returns are binary64 numbers *)

Lemma Qpow2_le (j k : Z) : j <= k -> (2 ^ j <= 2 ^ k)%Q.
Proof. intros H. apply Qpower_le_compat_l; [exact H | discriminate]. Qed.

(** The quotient [float_of_ratio] rounds has at most 53 bits. *)
Lemma float_of_ratio_quotient (n d : Z) :
  0 < n -> 0 < d ->
  let lg := Z.log2 n - Z.log2 d in
  let E := if ratio_ge_pow2 n d lg then lg else lg - 1 in
  let e := Z.max (E - 52) (-1074) in
  (if 0 <=? e then div_half_even n (d * 2 ^ e)
   else div_half_even (n * 2 ^ (- e)) d) <= 2 ^ 53.
Proof.
  intros Hn Hd lg E e.
  destruct (binade_Q n d Hn Hd) as [_ Hup]. fold lg E in Hup.
  assert (HdQ : (0 < inject_Z d)%Q) by (rewrite <- (Zlt_Qlt 0); exact Hd).
  assert (He : E + 1 <= e + 53) by (subst e; lia).
  assert (H1 : (inject_Z n < 2 ^ (e + 53) * inject_Z d)%Q).
  { apply Qlt_le_trans with (2 ^ (E + 1) * inject_Z d)%Q; [exact Hup |].
    apply Qmult_le_compat_r; [apply Qpow2_le, He | apply Qlt_le_weak, HdQ]. }
  assert (H53 : (2 ^ (e + 53) == 2 ^ e * 2 ^ 53)%Q) by (apply Qpow_add; reflexivity).
  rewrite H53 in H1.
  destruct (0 <=? e) eqn:E0; [apply Z.leb_le in E0 | apply Z.leb_gt in E0].
  - assert (Hp : 0 < 2 ^ e) by (apply Z.pow_pos_nonneg; lia).
    apply div_half_even_le; [nia |].
    rewrite Zle_Qle, !inject_Z_mult, !inject_pow by lia.
    change (inject_Z 2) with 2%Q.
    setoid_replace (2 ^ 53 * (inject_Z d * 2 ^ e))%Q
      with (2 ^ e * 2 ^ 53 * inject_Z d)%Q by ring.
    apply Qlt_le_weak, H1.
  - assert (Hp : 0 < 2 ^ (- e)) by (apply Z.pow_pos_nonneg; lia).
    apply div_half_even_le; [exact Hd |].
    rewrite Zle_Qle, !inject_Z_mult, !inject_pow by lia.
    change (inject_Z 2) with 2%Q.
    assert (Hone : (2 ^ e * 2 ^ (- e) == 1)%Q) by (apply Qpow_opp_r; reflexivity).
    assert (Hq : (0 < 2 ^ (- e))%Q) by (apply Qpow_pos; reflexivity).
    assert (H2 : (inject_Z n * 2 ^ (- e) <
                  2 ^ e * 2 ^ 53 * inject_Z d * 2 ^ (- e))%Q)
      by (apply Qmult_lt_compat_r; assumption).
    setoid_replace (2 ^ e * 2 ^ 53 * inject_Z d * 2 ^ (- e))%Q
      with (2 ^ e * 2 ^ (- e) * (2 ^ 53 * inject_Z d))%Q in H2 by ring.
    rewrite Hone, Qmult_1_l in H2. apply Qlt_le_weak, H2.
Qed.

Lemma float_of_ratio_bounded (s : bool) (n d : Z) :
  0 < d -> bounded64 (float_of_ratio s n d).
Proof.
  intros Hd. unfold float_of_ratio.
  destruct (n =? 0) eqn:En; [exact I |]. apply Z.eqb_neq in En.
  set (lg := Z.log2 n - Z.log2 d).
  set (E := if ratio_ge_pow2 n d lg then lg else lg - 1).
  set (e := Z.max (E - 52) (-1074)).
  set (q := if 0 <=? e then div_half_even n (d * 2 ^ e)
            else div_half_even (n * 2 ^ (- e)) d).
  assert (Hq : q <= 2 ^ 53).
  { destruct (Z_lt_ge_dec 0 n) as [Hn | Hn].
    - apply (float_of_ratio_quotient n d Hn Hd).
    - subst q. destruct (0 <=? e) eqn:E0.
      + apply Z.leb_le in E0.
        assert (0 < 2 ^ e) by (apply Z.pow_pos_nonneg; lia).
        apply div_half_even_le; nia.
      + apply Z.leb_gt in E0.
        assert (0 < 2 ^ (- e)) by (apply Z.pow_pos_nonneg; lia).
        apply div_half_even_le; nia. }
  assert (He : -1074 <= e) by (subst e; lia).
  clearbody q e. clear E lg.
  destruct (q =? 0); [exact I |].
  destruct (q =? 2 ^ 53) eqn:Eq.
  - change (emax - prec) with 971.
    destruct (e + 1 <=? 971) eqn:E1; [| exact I].
    apply Z.leb_le in E1. cbn [bounded64]. split; [reflexivity | lia].
  - apply Z.eqb_neq in Eq. change (emax - prec) with 971.
    destruct (e <=? 971) eqn:E1; [| exact I].
    apply Z.leb_le in E1. cbn [bounded64]. split; [| lia].
    assert (Hq' : q < 2 ^ 53) by lia.
    destruct q as [| p | p]; cbn [Z.to_pos]; [reflexivity | exact Hq' | reflexivity].
Qed.

Lemma float_of_dec_bounded (s : bool) (n k : Z) : bounded64 (float_of_dec s n k).
Proof.
  unfold float_of_dec. destruct (0 <=? k) eqn:E; apply float_of_ratio_bounded.
  - lia.
  - apply Z.leb_gt in E. apply Z.pow_pos_nonneg; lia.
Qed.

Lemma py_float_bounded (x : str) (f : float) : py_float x = Ok f -> bounded64 f.
Proof.
  unfold py_float. destruct (drop_underscores _ _) as [t |]; [| discriminate].
  destruct (split_sign t) as [neg body].
  destruct (parse_decimal body) as [[n k] |].
  - intros H. injection H as <-. apply float_of_dec_bounded.
  - unfold parse_inf_nan. destruct (_ || _); [intros H; injection H as <-; exact I |].
    destruct (str_eqb _ _); [intros H; injection H as <-; exact I | discriminate].
Qed.

(** ** The decimal exponent of a binary64 number *)

Lemma ndigits_upper (v k : Z) : 0 <= v < 10 ^ k -> 1 <= k -> ndigits v <= k.
Proof.
  intros [H0 Hv] Hk.
  destruct (Z.eq_dec v 0) as [-> | Hz]; [change (ndigits 0) with 1; lia |].
  destruct (ndigits_bounds v ltac:(lia)) as (_ & Hlo & _).
  destruct (Z_le_gt_dec (ndigits v) k) as [L | G]; [exact L | exfalso].
  assert (10 ^ k <= 10 ^ (ndigits v - 1)) by (apply Z.pow_le_mono_r; lia). lia.
Qed.

Lemma dec_exponent_bound (m : positive) (e : Z) :
  Z.pos m < 2 ^ 53 -> -1074 <= e <= 971 -> -324 <= dec_exponent m e <= 308.
Proof.
  intros Hm He. unfold dec_exponent, scaled. change (10 ^ Z.max 0 0) with 1.
  change (10 ^ Z.max (- 0) 0) with 1. rewrite !Z.mul_1_r.
  set (n := Z.pos m * 2 ^ Z.max e 0). set (d := 2 ^ Z.max (- e) 0).
  assert (Hd : 0 < d) by (subst d; apply Z.pow_pos_nonneg; lia).
  assert (Hn : 0 < n).
  { subst n. assert (0 < 2 ^ Z.max e 0) by (apply Z.pow_pos_nonneg; lia). nia. }
  assert (H2 : 2 ^ 1024 < 10 ^ 309) by (vm_compute; reflexivity).
  assert (H3 : 2 ^ 1074 < 10 ^ 324) by (vm_compute; reflexivity).
  assert (Hnmax : n < 2 ^ 1024).
  { subst n. assert (2 ^ Z.max e 0 <= 2 ^ 971) by (apply Z.pow_le_mono_r; lia).
    assert (0 < 2 ^ Z.max e 0) by (apply Z.pow_pos_nonneg; lia).
    replace (2 ^ 1024) with (2 ^ 53 * 2 ^ 971)
      by (rewrite <- Z.pow_add_r by lia; reflexivity).
    nia. }
  assert (Hdmax : d <= 2 ^ 1074) by (subst d; apply Z.pow_le_mono_r; lia).
  destruct (d <=? n).
  - pose proof (ndigits_pos (n / d)).
    assert (ndigits (n / d) <= 309).
    { apply ndigits_upper; [| lia].
      split; [apply Z.div_pos; lia |].
      apply Z.le_lt_trans with n; [| lia].
      apply Z.div_le_upper_bound; [exact Hd | nia]. }
    lia.
  - pose proof (ndigits_pos ((d - 1) / n)).
    assert (ndigits ((d - 1) / n) <= 324).
    { apply ndigits_upper; [| lia].
      split; [apply Z.div_pos; lia |].
      apply Z.le_lt_trans with (d - 1); [| lia].
      apply Z.div_le_upper_bound; [exact Hn | nia]. }
    lia.
Qed.

Lemma sig_digits_exponent (m : positive) (e P : Z) :
  Z.pos m < 2 ^ 53 -> -1074 <= e <= 971 ->
  Z.abs (snd (sig_digits m e P)) <= 9999.
Proof.
  intros Hm He. pose proof (dec_exponent_bound m e Hm He) as H.
  unfold sig_digits. destruct (_ =? _); cbn [snd]; lia.
Qed.

(** ** The shape of formatted floats *)

Lemma layout_exp_alt (d : ascii) (rest : str) (X : Z) :
  layout_exp true (d :: rest) X = (d :: "."%char :: rest) ++ "e"%char :: exp_str X.
Proof. destruct rest; reflexivity. Qed.

Lemma layout_exp_two (alt : bool) (d c : ascii) (rest : str) (X : Z) :
  layout_exp alt (d :: c :: rest) X =
  (d :: "."%char :: c :: rest) ++ "e"%char :: exp_str X.
Proof. reflexivity. Qed.

Lemma pad_left_length (w : nat) (s : str) : (w <= length (pad_left w s))%nat.
Proof. unfold pad_left, zeros. rewrite length_app, repeat_length. lia. Qed.

Lemma layout_fixed_shape (alt : bool) (ds : str) (p : nat) :
  alt = true \/ p <> O ->
  exists ip fp,
    layout_fixed alt ds p = ip ++ "."%char :: fp /\
    ip ++ fp = pad_left (S p) ds /\ length fp = p /\ ip <> [].
Proof.
  intros H. unfold layout_fixed.
  pose proof (pad_left_length (S p) ds) as Hlen.
  set (ds' := pad_left (S p) ds) in *.
  set (k := (length ds' - p)%nat).
  exists (firstn k ds'), (skipn k ds').
  assert (Hfp : length (skipn k ds') = p) by (rewrite length_skipn; subst k; lia).
  repeat split.
  - destruct p as [| p]; [| reflexivity].
    destruct H as [-> | H]; [| congruence].
    destruct (skipn k ds'); [reflexivity | discriminate Hfp].
  - apply firstn_skipn.
  - exact Hfp.
  - intros E. apply (f_equal (@length ascii)) in E.
    rewrite length_firstn in E. cbn [length] in E. subst k. lia.
Qed.

Lemma format_e_shape (s : bool) (m : positive) (e : Z) :
  exists d c rest,
    digits_of_Z (fst (sig_digits m e 9)) = d :: c :: rest /\
    format_e 8 (S754_finite s m e) =
    (sign_str s ++ d :: "."%char :: c :: rest) ++
    "e"%char :: exp_str (snd (sig_digits m e 9)).
Proof.
  pose proof (sig_digits_lower m e 9 ltac:(lia)) as Hlo.
  unfold format_e. change (8 + 1) with 9.
  destruct (sig_digits m e 9) as [R X]. cbn [fst snd] in *.
  destruct (digits_of_Z_two R) as (d & c & rest & E).
  { change (10 ^ (9 - 1)) with 100000000 in Hlo. lia. }
  exists d, c, rest. split; [exact E |].
  rewrite E, layout_exp_two, <- app_assoc. reflexivity.
Qed.

(** ** The parser on plain decimal text *)

Lemma find_step (depth : nat) (x : str) :
  find_sigfigs_lsf_rec (S depth) x =
  let x := lower x in
  if contains "e" x then
    let string_figure := split "e" x in
    m <- item string_figure 0 ;;
    let m := remove_char "-" m in
    let sf := len m - 1 in
    frac <- item (split "." m) 1 ;;
    if 0 <? len frac then
      ex <- item string_figure 1 ;;
      e <- py_int ex ;;
      Ok (sf, - len frac + e)
    else
      ex <- item string_figure 1 ;;
      e <- py_int ex ;;
      Ok (sf, e)
  else
    v <- py_float x ;;
    if eqb v zero then
      let n := len (remove_char "." (strip "-" x)) in
      frac <- item (split "." x) 1 ;;
      Ok (n, - len frac)
    else
      let n := split "e" (format_e 8 v) in
      n0 <- item n 0 ;;
      let n0' :=
        if contains "." x then
          let s := remove_char "." x in
          let l := (length s - length (rstrip "0" s))%nat in
          rstrip "0" n0 ++ zeros l
        else rstrip "0" n0 in
      find_sigfigs_lsf_rec depth (join "e" (n0' :: tl n)).
Proof. reflexivity. Qed.

Lemma find_plain_zero (depth : nat) (x : str) (s : bool) :
  no_upper x -> avoids "e" x -> py_float x = Ok (S754_zero s) ->
  find_sigfigs_lsf_rec (S depth) x =
  (frac <- item (split "." x) 1 ;;
   Ok (len (remove_char "." (strip "-" x)), - len frac)).
Proof.
  intros Hu He Hf. rewrite find_step. cbv zeta.
  rewrite (lower_id x Hu), (contains_avoids _ x He), Hf.
  reflexivity.
Qed.

Lemma find_plain_finite (depth : nat) (x : str) (s : bool) (m : positive) (e : Z) :
  no_upper x -> avoids "e" x -> py_float x = Ok (S754_finite s m e) ->
  exists d rest,
    digits_of_Z (fst (sig_digits m e 9)) = d :: rest /\
    find_sigfigs_lsf_rec (S (S depth)) x =
    let t := rstrip "0" rest ++ user_zeros x in
    Ok (1 + len t, snd (sig_digits m e 9) - len t).
Proof.
  intros Hu He Hf.
  destruct (format_e_shape s m e) as (d & c & rest & Hds & Hfmt).
  exists d, (c :: rest). split; [exact Hds |].
  pose proof (digits_of_Z_digits (fst (sig_digits m e 9))) as Hdig.
  rewrite Hds in Hdig. inversion Hdig as [| ? ? Hd Hrest]; subst.
  rewrite find_step. cbv zeta.
  rewrite (lower_id x Hu), (contains_avoids _ x He), Hf.
  cbn [bind].
  replace (eqb (S754_finite s m e) zero) with false by (destruct s; reflexivity).
  rewrite Hfmt.
  assert (Hman : avoids "e" (sign_str s ++ d :: "."%char :: c :: rest)).
  { apply Forall_app. split; [apply sign_str_avoids; discriminate |].
    constructor; [apply (digit_classes d Hd) |].
    constructor; [discriminate | apply digits_avoid; [reflexivity | exact Hrest]]. }
  rewrite split_app by exact Hman.
  rewrite (split_avoids _ _ (proj1 (exp_str_shape _))).
  cbn [item nth_error bind tl join].
  assert (Hstrip : rstrip "0" (sign_str s ++ d :: "."%char :: c :: rest) =
                   sign_str s ++ d :: "."%char :: rstrip "0" (c :: rest)).
  { replace (sign_str s ++ d :: "."%char :: c :: rest)
      with ((sign_str s ++ [d]) ++ "."%char :: c :: rest)
      by (rewrite <- app_assoc; reflexivity).
    rewrite rstrip_app by discriminate. rewrite <- app_assoc. reflexivity. }
  rewrite Hstrip.
  assert (Hgoal : forall z, Forall digit z ->
            find_sigfigs_lsf_rec (S depth)
              ((sign_str s ++ d :: "."%char :: rstrip "0" (c :: rest)) ++ z ++
               "e"%char :: exp_str (snd (sig_digits m e 9))) =
            Ok (1 + len (rstrip "0" (c :: rest) ++ z),
                snd (sig_digits m e 9) - len (rstrip "0" (c :: rest) ++ z))).
  { intros z Hz.
    replace ((sign_str s ++ d :: "."%char :: rstrip "0" (c :: rest)) ++ z ++
             "e"%char :: exp_str (snd (sig_digits m e 9)))
      with ((sign_str s ++ d :: "."%char :: (rstrip "0" (c :: rest) ++ z)) ++
            "e"%char :: exp_str (snd (sig_digits m e 9))).
    - apply find_sci_mantissa; [exact Hd | |].
      + apply Forall_app. split; [apply rstrip_Forall; exact Hrest | exact Hz].
      + destruct (py_float_bounded _ _ Hf) as [Hm He'].
        apply sig_digits_exponent; assumption.
    - rewrite <- !app_assoc. cbn [app]. rewrite <- !app_assoc. reflexivity. }
  unfold user_zeros. destruct (contains "." x).
  - rewrite <- app_assoc. apply Hgoal, zeros_digits.
  - specialize (Hgoal [] (Forall_nil _)). cbn [app] in Hgoal.
    rewrite app_nil_r. rewrite app_nil_r in Hgoal. exact Hgoal.
Qed.

(** ** The parser on the text of a formatted float *)

Lemma find_fixed_text (depth : nat) (alt s : bool) (ds : str) (p : nat) :
  Forall digit ds -> alt = true \/ p <> O ->
  Z_of_digits ds <= max_float * 10 ^ Z.of_nat p ->
  exists n l,
    find_sigfigs_lsf_rec (S (S depth)) (sign_str s ++ layout_fixed alt ds p) =
    Ok (n, l).
Proof.
  intros Hds Halt Hmax.
  destruct (layout_fixed_shape alt ds p Halt) as (ip & fp & Hlay & Hcat & Hlen & Hne).
  rewrite Hlay.
  assert (Hdig : Forall digit (ip ++ fp)) by (rewrite Hcat; apply pad_left_digits, Hds).
  apply Forall_app in Hdig. destruct Hdig as [Hip Hfp].
  assert (Hnum : Z_of_digits (ip ++ fp) = Z_of_digits ds) by (rewrite Hcat; apply Z_of_digits_pad).
  assert (Hpy := py_float_point (sign_str s) s ip fp (sign_of_sign_str s) Hip Hfp).
  rewrite Hnum in Hpy. unfold len in Hpy. rewrite Hlen in Hpy.
  specialize (Hpy ltac:(intros E; apply app_eq_nil in E; tauto)).
  assert (Hfin := float_of_dec_finite s (Z_of_digits ds) (Z.of_nat p)
                    (Z_of_digits_nonneg ds Hds) (Nat2Z.is_nonneg p) Hmax).
  set (x := sign_str s ++ ip ++ "."%char :: fp) in *.
  assert (Hu : no_upper x).
  { apply Forall_app. split; [apply sign_str_no_upper |].
    apply Forall_app. split; [apply digits_no_upper, Hip |].
    constructor; [reflexivity | apply digits_no_upper, Hfp]. }
  assert (He : avoids "e" x).
  { apply Forall_app. split; [apply sign_str_avoids; discriminate |].
    apply Forall_app. split; [apply digits_avoid; [reflexivity | exact Hip] |].
    constructor; [discriminate | apply digits_avoid; [reflexivity | exact Hfp]]. }
  destruct (float_of_dec s (Z_of_digits ds) (- Z.of_nat p)) as [s' | s' | | s' m e] eqn:Ev;
    try discriminate Hfin.
  - rewrite (find_plain_zero _ x s' Hu He Hpy).
    subst x. rewrite app_assoc, split_app.
    + rewrite split_avoids by (apply digits_avoid; [reflexivity | exact Hfp]).
      cbn [item nth_error bind]. eauto.
    + apply Forall_app. split; [apply sign_str_avoids; discriminate |].
      apply digits_avoid; [reflexivity | exact Hip].
  - destruct (find_plain_finite depth x s' m e Hu He Hpy) as (d & rest & _ & ->).
    cbv zeta. eauto.
Qed.

Lemma sig_digits_upper (m : positive) (e P : Z) :
  Z.pos m < 2 ^ 53 -> e <= 971 -> 1 <= P ->
  snd (sig_digits m e P) < P ->
  0 <= fst (sig_digits m e P) <=
  max_float * 10 ^ (P - 1 - snd (sig_digits m e P)).
Proof.
  intros Hm He HP. unfold sig_digits.
  set (X := dec_exponent m e).
  destruct (round_dec m e (P - 1 - X) =? 10 ^ P) eqn:E; cbn [fst snd]; intros HX.
  - apply Z.eqb_eq in E.
    pose proof (round_dec_upper m e (P - 1 - X) Hm He ltac:(lia)) as Hup.
    rewrite E in Hup.
    replace P with (Z.succ (P - 1)) in Hup at 1 by lia.
    replace (P - 1 - X) with (Z.succ (P - 1 - (X + 1))) in Hup by lia.
    rewrite !Z.pow_succ_r in Hup by lia.
    assert (0 < 10 ^ (P - 1)) by (apply Z.pow_pos_nonneg; lia). nia.
  - split; [apply round_dec_nonneg | apply round_dec_upper; lia].
Qed.

Lemma find_format_g (r : float) (P : Z) :
  is_finite r = true -> bounded64 r ->
  exists n l, find_sigfigs_lsf (format_g_alt P r) = Ok (n, l).
Proof.
  intros Hfin Hb. unfold find_sigfigs_lsf, recursion_limit, format_g_alt.
  set (P' := Z.max P 1). assert (HP : 1 <= P') by lia.
  destruct r as [s | s | | s m e]; try discriminate Hfin.
  - apply find_fixed_text; [repeat constructor | left; reflexivity |].
    change (Z_of_digits (py "0")) with 0.
    assert (0 < max_float) by reflexivity.
    assert (0 < 10 ^ Z.of_nat (Z.to_nat (P' - 1))) by (apply Z.pow_pos_nonneg; lia).
    nia.
  - destruct Hb as [Hm [He0 He]].
    pose proof (sig_digits_upper m e P' Hm He HP) as Hup.
    pose proof (sig_digits_exponent m e P' Hm (conj He0 He)) as HX.
    pose proof (digits_of_Z_digits (fst (sig_digits m e P'))) as Hdig.
    pose proof (digits_of_Z_nonempty (fst (sig_digits m e P'))) as Hne.
    destruct (sig_digits m e P') as [R X]. cbn [fst snd] in *.
    destruct ((X <? -4) || (P' <=? X)) eqn:E.
    + destruct (digits_of_Z R) as [| d rest]; [congruence |].
      inversion Hdig; subst.
      rewrite layout_exp_alt, app_assoc.
      change (sign_str s ++ d :: "."%char :: rest)
        with (sign_str s ++ d :: "."%char :: rest).
      rewrite find_sci_mantissa by assumption. eauto.
    + apply orb_false_iff in E. destruct E as [E1 E2].
      apply Z.ltb_ge in E1. apply Z.leb_gt in E2.
      apply find_fixed_text; [exact Hdig | left; reflexivity |].
      rewrite Z_of_digits_of_Z by (apply Hup; lia).
      rewrite Z2Nat.id by lia. apply Hup. lia.
Qed.

(** ** The constructor on numbers *)

Lemma SigFig_init_num (r : float) (n : Z) :
  is_finite r = true -> bounded64 r -> 0 <= n <= INT_MAX ->
  exists l,
    SigFig_init (ANum r) (Some (SfInt n)) None =
    Ok (mkSigFig r (SfInt n) (Some (LsfInt l))).
Proof.
  intros Hfin Hb Hn. unfold SigFig_init.
  replace (isnan r) with false by (destruct r; try discriminate Hfin; reflexivity).
  replace (isinf r) with false by (destruct r; try discriminate Hfin; reflexivity).
  cbn [exponent_truthy]. unfold format_sf, spec_precision.
  replace ((n <? 0) || (INT_MAX <? n)) with false.
  2:{ symmetry. apply orb_false_iff. split; [apply Z.ltb_ge | apply Z.ltb_ge]; lia. }
  cbn [bind].
  destruct (find_format_g r n Hfin Hb) as (k & l & ->).
  cbn [bind]. eauto.
Qed.

Lemma SigFig_init_exponent (r : float) (s : sf_t) (z : Z) :
  is_finite r = true -> z <> 0 ->
  SigFig_init (ANum r) (Some s) (Some (LsfInt z)) =
  Ok (mkSigFig r s (Some (LsfInt z))).
Proof.
  intros Hfin Hz. unfold SigFig_init.
  replace (isnan r) with false by (destruct r; try discriminate Hfin; reflexivity).
  replace (isinf r) with false by (destruct r; try discriminate Hfin; reflexivity).
  cbn [exponent_truthy]. apply Z.eqb_neq in Hz. rewrite Hz. reflexivity.
Qed.

(** ** The operators return binary64 numbers *)

Lemma digits2_pos_upper (p : positive) : Z.pos p < 2 ^ Z.pos (digits2_pos p).
Proof.
  induction p as [p IH | p IH |]; cbn [digits2_pos]; [| | reflexivity];
    rewrite Pos2Z.inj_succ, Z.pow_succ_r by lia; lia.
Qed.

Lemma Zdigits2_upper (m : Z) : 0 <= m -> m < 2 ^ Zdigits2 m.
Proof.
  destruct m as [| p | p]; intros H; [reflexivity | apply digits2_pos_upper | lia].
Qed.

Lemma Zdigits2_nonneg (m : Z) : 0 <= Zdigits2 m.
Proof. destruct m; cbn; lia. Qed.

Lemma iter_pos_eq {A : Type} (f : A -> A) (p : positive) : forall x,
  iter_pos f p x = Pos.iter f x p.
Proof.
  induction p as [p IH | p IH |]; intros x; cbn [iter_pos Pos.iter].
  - rewrite !IH. rewrite <- !Pos.iter_swap. reflexivity.
  - rewrite !IH. reflexivity.
  - reflexivity.
Qed.

Lemma shr_1_m (r : shr_record) :
  0 <= shr_m r -> shr_m (shr_1 r) = shr_m r / 2.
Proof.
  destruct r as [m b1 b2]. cbn [shr_m]. intros H.
  destruct m as [| [p | p |] | p]; cbn [shr_1 shr_m]; try lia;
    destruct (b1 || b2); cbn [shr_m]; try reflexivity.
  all: (apply Z.div_unique with 1; lia) || (apply Z.div_unique with 0; lia).
Qed.

Lemma shr_iter_m (p : positive) (r : shr_record) :
  0 <= shr_m r -> shr_m (iter_pos shr_1 p r) = shr_m r / 2 ^ Z.pos p.
Proof.
  intros H. rewrite iter_pos_eq. revert r H.
  induction p as [| p IH] using Pos.peano_ind; intros r H.
  - cbn [Pos.iter]. rewrite shr_1_m by assumption. reflexivity.
  - rewrite Pos.iter_succ, shr_1_m.
    + rewrite IH by assumption. rewrite Pos2Z.inj_succ, Z.pow_succ_r by lia.
      rewrite Z.div_div by (try apply Z.pow_pos_nonneg; lia).
      f_equal. lia.
    + rewrite IH by assumption. apply Z.div_pos; [assumption |].
      apply Z.pow_pos_nonneg; lia.
Qed.

Lemma shr_record_of_loc_m (m : Z) (l : location) : shr_m (shr_record_of_loc m l) = m.
Proof. destruct l as [| []]; reflexivity. Qed.

Lemma shr_fexp_bound (m e : Z) (l : location) :
  0 <= m ->
  0 <= shr_m (fst (shr_fexp prec emax m e l)) < 2 ^ 53.
Proof.
  intros Hm. unfold shr_fexp, shr, fexp, emin, prec, emax.
  pose proof (Zdigits2_upper m Hm) as Hd.
  pose proof (Zdigits2_nonneg m) as Hd0.
  set (d := Zdigits2 m) in *.
  destruct (Z.max (d + e - 53) (3 - 1024 - 53) - e) as [| n | n] eqn:En; cbn [fst].
  - rewrite shr_record_of_loc_m. split; [assumption |].
    assert (2 ^ d <= 2 ^ 53) by (apply Z.pow_le_mono_r; lia). lia.
  - rewrite shr_iter_m by (rewrite shr_record_of_loc_m; assumption).
    rewrite shr_record_of_loc_m.
    assert (Hp : 0 < 2 ^ Z.pos n) by (apply Z.pow_pos_nonneg; lia).
    split; [apply Z.div_pos; lia |].
    apply Z.div_lt_upper_bound; [assumption |].
    assert (2 ^ d <= 2 ^ (Z.pos n + 53)) by (apply Z.pow_le_mono_r; lia).
    rewrite Z.pow_add_r in H by lia. lia.
  - rewrite shr_record_of_loc_m. split; [assumption |].
    assert (2 ^ d <= 2 ^ 53) by (apply Z.pow_le_mono_r; lia). lia.
Qed.

Lemma shr_fexp_exponent (m e : Z) (l : location) :
  -1074 <= snd (shr_fexp prec emax m e l).
Proof.
  unfold shr_fexp, shr, fexp, emin, prec, emax.
  set (d := Zdigits2 m).
  destruct (Z.max (d + e - 53) (3 - 1024 - 53) - e) as [| n | n] eqn:En;
    cbn [snd]; lia.
Qed.

Lemma round_nearest_even_nonneg (m : Z) (l : location) :
  0 <= m -> 0 <= round_nearest_even m l.
Proof.
  intros H. unfold round_nearest_even.
  destruct l as [| []]; try lia. destruct (Z.even m); lia.
Qed.

Lemma binary_round_aux_bounded (s : bool) (m e : Z) (l : location) :
  0 <= m -> bounded64 (binary_round_aux prec emax s m e l).
Proof.
  intros Hm. unfold binary_round_aux.
  pose proof (shr_fexp_bound m e l Hm) as H1.
  destruct (shr_fexp prec emax m e l) as [r1 e1]. cbn [fst] in H1.
  pose proof (shr_fexp_bound (round_nearest_even (shr_m r1) (loc_of_shr_record r1))
                e1 loc_Exact (round_nearest_even_nonneg _ _ (proj1 H1))) as H2.
  pose proof (shr_fexp_exponent (round_nearest_even (shr_m r1) (loc_of_shr_record r1))
                e1 loc_Exact) as H3.
  destruct (shr_fexp prec emax _ e1 loc_Exact) as [r2 e2]. cbn [fst snd] in H2, H3.
  destruct (shr_m r2) as [| p | p]; try exact I.
  change (emax - prec) with 971.
  destruct (e2 <=? 971) eqn:E; [| exact I].
  apply Z.leb_le in E. cbn [bounded64]. lia.
Qed.

Lemma binary_normalize_bounded (m e : Z) (s : bool) :
  bounded64 (binary_normalize prec emax m e s).
Proof.
  unfold binary_normalize, binary_round.
  destruct m as [| p | p]; [exact I | |];
    destruct (shl_align _ _ _) as [mz ez]; apply binary_round_aux_bounded; lia.
Qed.

Lemma mul_bounded (x y : float) : bounded64 (mul x y).
Proof.
  destruct x as [sx | sx | | sx mx ex], y as [sy | sy | | sy my ey]; try exact I.
  apply binary_round_aux_bounded. lia.
Qed.

Lemma div_bounded (x y : float) : bounded64 (div x y).
Proof.
  destruct x as [sx | sx | | sx mx ex], y as [sy | sy | | sy my ey]; try exact I.
  unfold div, SFdiv, SFdiv_core_binary.
  match goal with |- context [Z.div_eucl ?a ?b] =>
    pose proof (Z_div_mod a b ltac:(lia)) as H; destruct (Z.div_eucl a b) as [q r];
    assert (Ha : 0 <= a)
  end.
  { destruct (_ - _ - _); try lia. apply Z.shiftl_nonneg. lia. }
  apply binary_round_aux_bounded. destruct H as [H1 H2]. nia.
Qed.

Lemma add_bounded (x y : float) : bounded64 x -> bounded64 y -> bounded64 (add x y).
Proof.
  intros Hx Hy.
  destruct x as [sx | sx | | sx mx ex], y as [sy | sy | | sy my ey];
    try exact I; try assumption.
  - destruct sx, sy; exact I.
  - destruct sx, sy; exact I.
  - apply binary_normalize_bounded.
Qed.

Lemma sub_bounded (x y : float) : bounded64 x -> bounded64 y -> bounded64 (sub x y).
Proof.
  intros Hx Hy.
  destruct x as [sx | sx | | sx mx ex], y as [sy | sy | | sy my ey];
    try exact I; try assumption.
  - destruct sx, sy; exact I.
  - destruct sx, sy; exact I.
  - apply binary_normalize_bounded.
Qed.

Lemma floor_bounded (x : float) : bounded64 x -> bounded64 (floor x).
Proof.
  intros Hx. destruct x as [s | s | | s m e]; try exact I.
  unfold floor. destruct (0 <=? e); [assumption | apply binary_normalize_bounded].
Qed.

Lemma one_bounded : bounded64 one.
Proof. cbn. split; [reflexivity | lia]. Qed.

Lemma floordiv_bounded (x y r : float) : floordiv x y = Ok r -> bounded64 r.
Proof.
  unfold floordiv. destruct (eqb y zero); [discriminate |].
  intros H. injection H as <-. unfold float_div_mod.
  set (mod0 := fmod x y). set (div0 := div (sub x mod0) y).
  assert (Hdiv0 : bounded64 div0) by apply div_bounded.
  assert (Hdv : bounded64 (sub div0 one)) by (apply sub_bounded; [assumption | apply one_bounded]).
  destruct (truthy mod0); [destruct (xorb _ _) |]; cbn [fst];
    (destruct (truthy _); [| exact I]);
    (destruct (ltb half _);
     [apply add_bounded; [apply floor_bounded; assumption | apply one_bounded]
     | apply floor_bounded; assumption]).
Qed.

Lemma truediv_bounded (x y r : float) : truediv x y = Ok r -> bounded64 r.
Proof.
  unfold truediv. destruct (eqb y zero); [discriminate |].
  intros H. injection H as <-. apply div_bounded.
Qed.

Lemma SigFig_init_derived (r : float) (n : Z) (exponent : option lsf_t) :
  is_finite r = true -> bounded64 r -> 0 <= n <= INT_MAX ->
  exponent_truthy exponent = false ->
  exists l,
    SigFig_init (ANum r) (Some (SfInt n)) exponent =
    Ok (mkSigFig r (SfInt n) (Some (LsfInt l))).
Proof.
  intros Hfin Hb Hn He.
  destruct (SigFig_init_num r n Hfin Hb Hn) as [l Hl]. exists l.
  unfold SigFig_init in *. rewrite He. exact Hl.
Qed.

(** The shared rule of [*], [/] and [//] on a finite quotient. *)
Lemma multiplicative_min (op : float -> float -> result float)
  (a b : SigFig) (na nb : Z) (r : float) :
  sf a = SfInt na -> sf b = SfInt nb ->
  0 <= Z.min na nb <= INT_MAX ->
  (Z.min na nb = 0 ->
   exists la lb, lsf a = Some (LsfInt la) /\ lsf b = Some (LsfInt lb)) ->
  op (value a) (value b) = Ok r -> bounded64 r -> is_finite r = true ->
  exists v,
    multiplicative op a (OSigFig b) = Ok v /\
    value v = r /\ sf v = SfInt (Z.min na nb).
Proof.
  intros Ha Hb Hmin Hl Hop Hbd Hfin. unfold multiplicative.
  rewrite Hop, Ha, Hb. cbn [bind sf_min].
  unfold sf_eqb. destruct (Z.min na nb =? 0) eqn:E.
  - apply Z.eqb_eq in E. destruct (Hl E) as (la & lb & Hla & Hlb).
    unfold get_lsf. rewrite Hla, Hlb. cbn [bind lsf_min].
    destruct (Z.eq_dec (Z.min la lb) 0) as [Ez | Ez].
    + destruct (SigFig_init_derived r 0 (Some (LsfInt (Z.min la lb))) Hfin Hbd)
        as [l Hi]; [unfold INT_MAX; lia | cbn; rewrite Ez; reflexivity |].
      rewrite Hi. eexists. rewrite E. repeat split.
    + rewrite SigFig_init_exponent by assumption.
      eexists. rewrite E. repeat split.
  - destruct (SigFig_init_num r (Z.min na nb) Hfin Hbd Hmin) as [l Hi].
    rewrite Hi. eexists. repeat split.
Qed.

(** C3 (amended): the multiplicative min-rule.  For two instances with
    integer counts [na] and [nb] whose smaller count is a valid precision
    (and, when it is 0, integer [lsf]s), whenever the raw product is finite
    the product is an instance with that raw magnitude and [min(na, nb)]
    significant figures; the same holds for [/] and [//] when the divisor
    is not zero and the raw quotient is finite. *)
Theorem multiplicative_min_rule (a b : SigFig) (na nb : Z) :
  sf a = SfInt na -> sf b = SfInt nb ->
  0 <= Z.min na nb <= INT_MAX ->
  (Z.min na nb = 0 ->
   exists la lb, lsf a = Some (LsfInt la) /\ lsf b = Some (LsfInt lb)) ->
  (is_finite (mul (value a) (value b)) = true ->
   exists v, SigFig_mul a (OSigFig b) = Ok v /\
             value v = mul (value a) (value b) /\
             sf v = SfInt (Z.min na nb)) /\
  (forall r, truediv (value a) (value b) = Ok r -> is_finite r = true ->
   exists v, SigFig_truediv a (OSigFig b) = Ok v /\
             value v = r /\ sf v = SfInt (Z.min na nb)) /\
  (forall r, floordiv (value a) (value b) = Ok r -> is_finite r = true ->
   exists v, SigFig_floordiv a (OSigFig b) = Ok v /\
             value v = r /\ sf v = SfInt (Z.min na nb)).
Proof.
  intros Ha Hb Hmin Hl. repeat split.
  - intros Hfin.
    apply (multiplicative_min _ a b na nb _ Ha Hb Hmin Hl eq_refl);
      [apply mul_bounded | exact Hfin].
  - intros r Hr Hfin.
    apply (multiplicative_min _ a b na nb r Ha Hb Hmin Hl Hr);
      [exact (truediv_bounded _ _ _ Hr) | exact Hfin].
  - intros r Hr Hfin.
    apply (multiplicative_min _ a b na nb r Ha Hb Hmin Hl Hr);
      [exact (floordiv_bounded _ _ _ Hr) | exact Hfin].
Qed.

Lemma multiplicative_min_rule_witness :
  (exists v, SigFig_mul v_6_2 (OSigFig v_14_6) = Ok v /\
             value v = mul (value v_6_2) (value v_14_6) /\ sf v = SfInt 2) /\
  (exists v, SigFig_truediv v_6_2 (OSigFig v_14_6) = Ok v /\ sf v = SfInt 2) /\
  (exists v, SigFig_floordiv v_6_2 (OSigFig v_14_6) = Ok v /\ sf v = SfInt 2).
Proof.
  assert (Hmin : 0 <= Z.min 2 3 <= INT_MAX) by (unfold INT_MAX; cbn; lia).
  assert (Hl : Z.min 2 3 = 0 ->
               exists la lb, lsf v_6_2 = Some (LsfInt la) /\
                             lsf v_14_6 = Some (LsfInt lb))
    by (intros _; exists (-1), (-1); split; reflexivity).
  destruct (multiplicative_min_rule v_6_2 v_14_6 2 3 eq_refl eq_refl Hmin Hl)
    as (Hmul & Hdiv & Hfloor).
  split; [exact (Hmul eq_refl) |].
  split.
  - destruct (Hdiv _ eq_refl eq_refl) as (v & Hv & _ & Hsf). exists v. split; assumption.
  - destruct (Hfloor _ eq_refl eq_refl) as (v & Hv & _ & Hsf). exists v. split; assumption.
Defined.

(** C3 (as stated) fails on overflow: both counts are 2, the product is
    Infinity with an unbounded count. *)
Lemma min_rule_counterexample :
  sf v_1e200 = SfInt 2 /\
  SigFig_mul v_1e200 (OSigFig v_1e200) = Ok Infinity /\
  sf Infinity <> SfInt (Z.min 2 2).
Proof. repeat split. discriminate. Qed.

(** The raw quotients by Infinity. *)
Lemma div_inf (x : float) :
  is_finite x = true -> div x inf = S754_zero (signbit x).
Proof.
  destruct x as [s | s | | s m e]; try discriminate; intros _; cbn;
    destruct s; reflexivity.
Qed.

Lemma sub_diag (s : bool) (m : positive) (e : Z) :
  sub (S754_finite s m e) (S754_finite s m e) = S754_zero false.
Proof.
  unfold sub, SFsub. rewrite Z.min_id. unfold shl_align.
  rewrite Z.sub_diag. cbn [fst]. reflexivity.
Qed.

Lemma floordiv_inf (x : float) :
  is_finite x = true ->
  floordiv x inf =
  Ok (match x with
      | S754_finite true _ _ => minus_one
      | _ => S754_zero (signbit x)
      end).
Proof.
  destruct x as [s | s | | s m e]; try discriminate; intros _.
  - destruct s; reflexivity.
  - unfold floordiv. change (eqb inf zero) with false. cbv iota.
    unfold float_div_mod. change (fmod (S754_finite s m e) inf) with (S754_finite s m e).
    rewrite sub_diag.
    change (div (S754_zero false) inf) with (S754_zero false).
    replace (truthy (S754_finite s m e)) with true by (destruct s; reflexivity).
    change (ltb inf zero) with false.
    replace (ltb (S754_finite s m e) zero) with s by (destruct s; reflexivity).
    destruct s; reflexivity.
Qed.

(** C4 (amended): division by Infinity.  For an instance [a] with an
    integer count [n >= 1] (a valid precision) and a finite magnitude,
    [a / Infinity] is an instance of magnitude zero that keeps the count [n]
    (it is not 0) and compares equal to [SigFig(0, sf=0)]; [a // Infinity]
    keeps the count [n] too, with magnitude zero when [a] is not negative
    and [-1.0] when it is. *)
Theorem division_by_infinity (a : SigFig) (n : Z) :
  sf a = SfInt n -> 1 <= n <= INT_MAX -> is_finite (value a) = true ->
  (exists v, SigFig_truediv a (OSigFig Infinity) = Ok v /\
             value v = S754_zero (signbit (value a)) /\
             sf v = SfInt n /\
             SigFig_eq v v_zero = Ok true) /\
  (exists v, SigFig_floordiv a (OSigFig Infinity) = Ok v /\
             value v = match value a with
                       | S754_finite true _ _ => minus_one
                       | _ => S754_zero (signbit (value a))
                       end /\
             sf v = SfInt n).
Proof.
  intros Ha Hn Hfin.
  assert (Hmin : 0 <= Z.min n n <= INT_MAX) by lia.
  assert (Hdiv : forall r, is_finite r = true -> bounded64 r ->
            forall op, op (value a) inf = Ok r ->
            exists v, multiplicative op a (OSigFig Infinity) = Ok v /\
                      value v = r /\ sf v = SfInt n).
  { intros r Hr Hb op Hop. unfold multiplicative.
    change (value Infinity) with inf. rewrite Hop, Ha. cbn [bind sf Infinity sf_min].
    unfold sf_eqb. replace (n =? 0) with false by (symmetry; apply Z.eqb_neq; lia).
    destruct (SigFig_init_num r n Hr Hb ltac:(lia)) as [l Hi].
    rewrite Hi. eexists. repeat split. }
  split.
  - destruct (Hdiv (S754_zero (signbit (value a))) eq_refl I truediv) as (v & Hv & Hval & Hsf).
    { unfold truediv. change (eqb inf zero) with false. cbv iota.
      f_equal. apply div_inf, Hfin. }
    exists v. repeat split; try assumption.
    unfold SigFig_eq. rewrite Hval. reflexivity.
  - pose proof (floordiv_inf _ Hfin) as Hq.
    set (r := match value a with
              | S754_finite true _ _ => minus_one
              | _ => S754_zero (signbit (value a))
              end) in *.
    assert (Hr : is_finite r = true)
      by (subst r; destruct (value a) as [| | | [] ? ?]; reflexivity).
    assert (Hb : bounded64 r).
    { subst r; destruct (value a) as [| | | [] ? ?]; try exact I.
      split; [reflexivity | lia]. }
    destruct (Hdiv r Hr Hb floordiv Hq) as (v & Hv & Hval & Hsf).
    exists v. repeat split; assumption.
Qed.

Lemma division_by_infinity_witness :
  (exists v, SigFig_truediv v_4_8 (OSigFig Infinity) = Ok v /\
             value v = zero /\ sf v = SfInt 2 /\
             SigFig_eq v v_zero = Ok true) /\
  (exists v, SigFig_floordiv v_4_8 (OSigFig Infinity) = Ok v /\
             value v = zero /\ sf v = SfInt 2).
Proof.
  assert (Hn : 1 <= 2 <= INT_MAX) by (unfold INT_MAX; lia).
  exact (division_by_infinity v_4_8 2 eq_refl Hn eq_refl).
Defined.

(** C4 (as stated) fails: [SigFig('4.8') / SigFig(math.inf)] has 2
    significant figures, not 0. *)
Lemma division_by_infinity_counterexample :
  exists v, SigFig_truediv v_4_8 (OSigFig Infinity) = Ok v /\
            sf v = SfInt 2 /\ sf v <> SfInt 0.
Proof. eexists. repeat split. discriminate. Qed.

(** ** Subtraction *)

Lemma format_f_fixed (p : Z) (x : float) :
  is_finite x = true ->
  format_f p x =
  sign_str (signbit x) ++ layout_fixed false (fixed_digits p x) (Z.to_nat p).
Proof. destruct x; try discriminate; reflexivity. Qed.

Lemma fixed_digits_digits (p : Z) (x : float) : Forall digit (fixed_digits p x).
Proof.
  destruct x; try (repeat constructor). apply digits_of_Z_digits.
Qed.

Lemma format_f_shape (p : Z) (x : float) :
  is_finite x = true -> 1 <= p ->
  exists ip fp,
    format_f p x = sign_str (signbit x) ++ ip ++ "."%char :: fp /\
    Forall digit ip /\ Forall digit fp /\ len fp = p /\
    ip ++ fp = pad_left (S (Z.to_nat p)) (fixed_digits p x).
Proof.
  intros Hfin Hp. rewrite format_f_fixed by assumption.
  destruct (layout_fixed_shape false (fixed_digits p x) (Z.to_nat p))
    as (ip & fp & Hlay & Hcat & Hlen & _); [right; lia |].
  exists ip, fp. rewrite Hlay.
  assert (Hd : Forall digit (ip ++ fp))
    by (rewrite Hcat; apply pad_left_digits, fixed_digits_digits).
  apply Forall_app in Hd. destruct Hd as [Hip Hfp].
  repeat split; try assumption. unfold len. rewrite Hlen. lia.
Qed.

Lemma digits_list_zeros (t : str) :
  all_zero t -> exists l, digits_list t = Ok l /\ any l = false.
Proof.
  intros H. induction H as [| c t Hc _ (l & Hl & Ha)].
  - exists []. split; reflexivity.
  - subst c. exists (0 :: l). cbn [digits_list].
    change (py_int ["0"%char]) with (Ok 0). cbn [bind]. rewrite Hl.
    split; [reflexivity | exact Ha].
Qed.

Lemma all_zero_value (t : str) : all_zero t -> Z_of_digits t = 0.
Proof.
  intros H. induction t as [| c t IH] using rev_ind; [reflexivity |].
  apply Forall_app in H. destruct H as [Ht Hc]. inversion Hc; subst.
  rewrite Z_of_digits_snoc, (IH Ht). reflexivity.
Qed.

Lemma remove_sign_str (s : bool) : remove_char "-" (sign_str s) = [].
Proof. destruct s; reflexivity. Qed.

Lemma format_f_digits (p : Z) (x : float) (ip fp : str) :
  Forall digit ip -> Forall digit fp ->
  remove_char "-" (remove_char "." (sign_str (signbit x) ++ ip ++ "."%char :: fp)) =
  ip ++ fp.
Proof.
  intros Hip Hfp.
  assert (Hdot : remove_char "." (sign_str (signbit x) ++ ip ++ "."%char :: fp) =
                 sign_str (signbit x) ++ ip ++ fp).
  { rewrite !remove_char_app.
    rewrite (remove_char_avoids "." (sign_str _)) by (apply sign_str_avoids; discriminate).
    rewrite (remove_char_avoids "." ip) by (apply digits_avoid; [reflexivity | exact Hip]).
    change (remove_char "." ("."%char :: fp)) with (remove_char "." fp).
    rewrite (remove_char_avoids "." fp) by (apply digits_avoid; [reflexivity | exact Hfp]).
    reflexivity. }
  rewrite Hdot, remove_char_app, remove_sign_str.
  apply remove_char_avoids, digits_avoid; [reflexivity |].
  apply Forall_app. split; assumption.
Qed.

Lemma zeros_snoc (k : nat) : zeros k ++ ["0"%char] = zeros (S k).
Proof. unfold zeros. induction k as [| k IH]; [reflexivity |]. cbn [repeat app]. f_equal. exact IH. Qed.

Lemma layout_fixed_zero (p : nat) :
  p <> O -> layout_fixed false (py "0") p = py "0." ++ zeros p.
Proof.
  intros Hp. unfold layout_fixed, pad_left. change (length (py "0")) with 1%nat.
  replace (S p - 1)%nat with p by lia.
  change (py "0") with ["0"%char]. rewrite zeros_snoc.
  unfold zeros. rewrite repeat_length. replace (S p - p)%nat with 1%nat by lia.
  destruct p; [congruence | reflexivity].
Qed.

(** When every digit of the formatted difference is zero, the digits laid
    out are the single digit 0. *)
Lemma all_zero_fixed_digits (p : Z) (x : float) (ip fp : str) :
  ip ++ fp = pad_left (S (Z.to_nat p)) (fixed_digits p x) ->
  all_zero (ip ++ fp) -> fixed_digits p x = py "0".
Proof.
  intros Hcat Hz. rewrite Hcat in Hz. unfold pad_left in Hz.
  apply Forall_app in Hz. destruct Hz as [_ Hz].
  destruct x as [s | s | | s m e]; try reflexivity.
  cbn [fixed_digits] in *.
  pose proof (all_zero_value _ Hz) as Hv.
  rewrite Z_of_digits_of_Z in Hv by apply round_dec_nonneg.
  rewrite Hv. reflexivity.
Qed.

(** C5: subtraction's zero-cancellation.  For two instances with integer
    [lsf]s whose larger one, [precision], is negative (and whose negation
    is a valid format precision), when every digit of the raw difference
    formatted to [-precision] decimals is zero, [a - b] is the instance with
    the raw difference as magnitude, a count of 0, and an [lsf] that is the
    negated number of digits after the point of the formatted text, which is
    [precision]; it renders as "0." followed by [-precision] zeros. *)
Theorem sub_zero_cancellation (a b : SigFig) (la lb : Z) :
  lsf a = Some (LsfInt la) -> lsf b = Some (LsfInt lb) ->
  let precision := Z.max la lb in
  let r := sub (value a) (value b) in
  let rounded := format_f (- precision) r in
  precision < 0 -> - precision <= INT_MAX ->
  all_zero (remove_char "-" (remove_char "." rounded)) ->
  exists whole frac v,
    split "." rounded = [whole; frac] /\
    SigFig_sub a (OSigFig b) = Ok v /\
    v = mkSigFig r (SfInt 0) (Some (LsfInt (- len frac))) /\
    - len frac = precision /\
    SigFig_str v = Ok (py "0." ++ zeros (Z.to_nat (- precision))).
Proof.
  intros Hla Hlb precision r rounded Hneg Hmax Hzero.
  assert (Hfin : is_finite r = true).
  { subst rounded. destruct r as [s | s | | s m e]; try reflexivity; exfalso.
    - destruct s; cbn in Hzero; inversion Hzero; discriminate.
    - cbn in Hzero. inversion Hzero; discriminate. }
  destruct (format_f_shape (- precision) r Hfin ltac:(lia))
    as (ip & fp & Hfmt & Hip & Hfp & Hlen & Hcat).
  assert (Hsplit : split "." rounded = [sign_str (signbit r) ++ ip; fp]).
  { subst rounded. rewrite Hfmt, app_assoc, split_app.
    - rewrite split_avoids by (apply digits_avoid; [reflexivity | exact Hfp]). reflexivity.
    - apply Forall_app. split; [apply sign_str_avoids; discriminate |].
      apply digits_avoid; [reflexivity | exact Hip]. }
  assert (Hzero' : all_zero (ip ++ fp)).
  { subst rounded. rewrite Hfmt, format_f_digits in Hzero; assumption. }
  exists (sign_str (signbit r) ++ ip), fp. eexists.
  split; [exact Hsplit |].
  assert (Hsub : SigFig_sub a (OSigFig b) =
                 Ok (mkSigFig r (SfInt 0) (Some (LsfInt (- len fp))))).
  { unfold SigFig_sub, get_lsf. rewrite Hla, Hlb.
    cbn [bind lsf_is_na lsf_max lsf_int]. fold precision.
    replace (precision <? 0) with true by (symmetry; apply Z.ltb_lt; exact Hneg).
    unfold spec_precision.
    replace ((- precision <? 0) || (INT_MAX <? - precision)) with false.
    2:{ symmetry. apply orb_false_iff. split; apply Z.ltb_ge; lia. }
    cbn [bind]. fold r. fold rounded.
    destruct (digits_list_zeros _ Hzero) as (l & Hl & Hany).
    rewrite Hl. cbn [bind]. rewrite Hany, Hsplit. cbn [item nth_error bind].
    apply SigFig_init_exponent; [exact Hfin | lia]. }
  split; [exact Hsub |]. split; [reflexivity |]. split; [lia |].
  unfold SigFig_str. cbn [sf sf_eqb value]. change (0 =? 0) with true. cbv iota.
  unfold get_lsf. cbn [lsf bind lsf_neg]. rewrite Z.opp_involutive, Hlen.
  unfold spec_precision.
  replace ((- precision <? 0) || (INT_MAX <? - precision)) with false.
  2:{ symmetry. apply orb_false_iff. split; apply Z.ltb_ge; lia. }
  cbn [bind]. f_equal.
  assert (Hfabs : is_finite (fabs r) = true) by (destruct r; try discriminate; reflexivity).
  rewrite (format_f_fixed _ _ Hfabs).
  replace (signbit (fabs r)) with false by (destruct r; try discriminate; reflexivity).
  replace (fixed_digits (- precision) (fabs r)) with (fixed_digits (- precision) r)
    by (destruct r; reflexivity).
  rewrite (all_zero_fixed_digits _ _ _ _ Hcat Hzero').
  apply layout_fixed_zero. lia.
Qed.

Lemma sub_zero_cancellation_witness :
  exists v,
    SigFig_sub v_0_99823 (OSigFig v_0_9978) = Ok v /\
    sf v = SfInt 0 /\ lsf v = Some (LsfInt (-3)) /\
    SigFig_str v = Ok (py "0.000").
Proof.
  assert (Hz : all_zero (remove_char "-" (remove_char "."
                 (format_f (- Z.max (-3) (-4))
                    (sub (value v_0_99823) (value v_0_9978))))))
    by (vm_compute; repeat constructor).
  destruct (sub_zero_cancellation v_0_99823 v_0_9978 (-3) (-4) eq_refl eq_refl
              ltac:(reflexivity) ltac:(discriminate) Hz)
    as (whole & frac & v & Hsplit & Hv & Heq & Hl & Hstr).
  exists v. rewrite Heq at 2 3. cbn [sf lsf]. rewrite Hl.
  repeat split; assumption.
Defined.

Lemma str_eqb_eq (a b : str) : str_eqb a b = true <-> a = b.
Proof.
  unfold str_eqb. destruct (list_eq_dec ascii_dec a b); split; congruence.
Qed.

(** ** Comparisons *)

(** C9: the equality rule.  [a == b] is true when both magnitudes are
    zero, whatever the counts; otherwise it is false when either magnitude
    is NaN; otherwise, the two instances rendering to [sa] and [sb], it is
    true exactly when [sa] and [sb] are the same text.  So
    [SigFig('50.00')] and [SigFig('50.000')], of equal magnitude, are not
    equal. *)
Theorem equality_rule (a b : SigFig) :
  (eqb (value a) zero = true -> eqb (value b) zero = true ->
   SigFig_eq a b = Ok true) /\
  (isnan (value a) = true \/ isnan (value b) = true ->
   SigFig_eq a b = Ok false) /\
  (forall sa sb,
     eqb (value a) zero && eqb (value b) zero = false ->
     isnan (value a) = false -> isnan (value b) = false ->
     SigFig_str a = Ok sa -> SigFig_str b = Ok sb ->
     SigFig_eq a b = Ok (str_eqb sa sb) /\
     (SigFig_eq a b = Ok true <-> sa = sb)) /\
  (SigFig_of_str "50.00" = Ok v_50_00 /\
   SigFig_of_str "50.000" = Ok v_50_000 /\
   value v_50_00 = value v_50_000 /\
   SigFig_eq v_50_00 v_50_000 = Ok false).
Proof.
  repeat split.
  - intros Ha Hb. unfold SigFig_eq. rewrite Ha, Hb. reflexivity.
  - intros H. unfold SigFig_eq.
    replace (eqb (value a) zero && eqb (value b) zero) with false.
    + destruct H as [-> | ->]; [| rewrite orb_true_r]; reflexivity.
    + destruct H as [H | H]; [destruct (value a) | destruct (value b)];
        try discriminate H; cbn; [| symmetry; apply andb_false_r]; reflexivity.
  - unfold SigFig_eq. rewrite H, H0, H1, H2, H3. reflexivity.
  - unfold SigFig_eq. rewrite H, H0, H1, H2, H3. cbn [orb bind].
    intros E. injection E as E. apply str_eqb_eq, E.
  - intros ->. unfold SigFig_eq. rewrite H, H0, H1, H2, H3. cbn [orb bind].
    f_equal. apply str_eqb_eq. reflexivity.
Qed.

Lemma equality_rule_witness :
  SigFig_eq v_0_0 v_0_00 = Ok true /\
  SigFig_eq NaN v_4_8 = Ok false /\
  SigFig_eq v_50_00 v_50_000 = Ok (str_eqb (py "50.00") (py "50.000")).
Proof.
  split; [exact (proj1 (equality_rule v_0_0 v_0_00) eq_refl eq_refl) |].
  split; [exact (proj1 (proj2 (equality_rule NaN v_4_8)) (or_introl eq_refl)) |].
  exact (proj1 (proj1 (proj2 (proj2 (equality_rule v_50_00 v_50_000)))
                  (py "50.00") (py "50.000") eq_refl eq_refl eq_refl eq_refl eq_refl)).
Defined.

(** C10: [!=] is not the negation of [==].  The two zero-valued instances
    [SigFig('0.0')] and [SigFig('0.00')] render differently; [==] and [!=]
    are both true of them.  ([!=] compares the renderings only: of NaN and
    itself both [==] and [!=] are false.) *)
Theorem ne_is_not_the_negation_of_eq :
  exists a b,
    SigFig_of_str "0.0" = Ok a /\ SigFig_of_str "0.00" = Ok b /\
    SigFig_str a = Ok (py "0.0") /\ SigFig_str b = Ok (py "0.00") /\
    SigFig_eq a b = Ok true /\ SigFig_ne a b = Ok true /\
    SigFig_eq NaN NaN = Ok false /\ SigFig_ne NaN NaN = Ok false.
Proof. exists v_0_0, v_0_00. repeat split. Qed.

(** ** Construction *)

(** C7 (evaluated on the code): [SigFig('')] raises [ValueError]: the
    fields the first [if] sets are followed by [float('')]. *)
Theorem empty_string_raises (sf0 : option sf_t) (exponent : option lsf_t) :
  SigFig_init (AStr []) sf0 exponent = Raise ValueError.
Proof. reflexivity. Qed.

(** ** The rounding fallbacks of [+] and [-] *)

Lemma additive_prefix (a b : SigFig) (la lb : Z) :
  lsf a = Some (LsfInt la) -> lsf b = Some (LsfInt lb) ->
  0 <= Z.max la lb ->
  (a0 <- get_lsf a ;;
   na <- (if lsf_is_na a0 then Ok true
          else b0 <- get_lsf b ;; Ok (lsf_is_na b0)) ;;
   Ok na) = Ok false /\ (Z.max la lb <? 0) = false.
Proof.
  intros Ha Hb Hp. unfold get_lsf. rewrite Ha, Hb. split; [reflexivity |].
  apply Z.ltb_ge. exact Hp.
Qed.

(** C6 (evaluated on the code): in [a - b] with integer [lsf]s and
    [precision >= 0], when the rounded difference fails the strict integer
    coercion, the fallback calls the undefined name [find_sigfigs]: a
    [NameError] reaches the caller. *)
Theorem sub_fallback_raises_NameError (a b : SigFig) (la lb : Z) (rounded : float) :
  lsf a = Some (LsfInt la) -> lsf b = Some (LsfInt lb) ->
  0 <= Z.max la lb ->
  py_round (sub (value a) (value b)) (- Z.max la lb) = Ok rounded ->
  StrictInt rounded = Raise ValueError ->
  SigFig_sub a (OSigFig b) = Raise NameError.
Proof.
  intros Ha Hb Hp Hround Hstrict. unfold SigFig_sub, get_lsf.
  rewrite Ha, Hb. cbn [bind lsf_is_na lsf_max lsf_int].
  replace (Z.max la lb <? 0) with false by (symmetry; apply Z.ltb_ge; exact Hp).
  rewrite Hround. cbn [bind]. rewrite Hstrict. reflexivity.
Qed.

Lemma sub_fallback_raises_NameError_witness :
  SigFig_of_str "1.0e308" = Ok v_1e308 /\
  SigFig_of_str "-1.0e308" = Ok v_m1e308 /\
  SigFig_sub v_1e308 (OSigFig v_m1e308) = Raise NameError.
Proof.
  split; [reflexivity |]. split; [reflexivity |].
  apply (sub_fallback_raises_NameError v_1e308 v_m1e308 307 307 (S754_infinity false));
    reflexivity || discriminate.
Defined.

(** The same fallback in [+] parses the text of the rounded sum; on
    ['inf'] the parser recurses until the interpreter stops it, and the
    result is NaN. *)
Lemma add_fallback_returns_NaN :
  SigFig_add v_1e308 (OSigFig v_1e308) = Ok NaN.
Proof. vm_compute. reflexivity. Qed.

(** C2 (evaluated on the code): in [a + b] with integer [lsf]s and
    [precision >= 0], when the sum rounds to 0 the text parsed is ['0']:
    the parser's zero rule indexes the part after a decimal point that is
    not there, and an [IndexError] reaches the caller. *)
Theorem add_rounding_to_zero_raises (a b : SigFig) (la lb : Z) (rounded : float) :
  lsf a = Some (LsfInt la) -> lsf b = Some (LsfInt lb) ->
  0 <= Z.max la lb ->
  py_round (add (value a) (value b)) (- Z.max la lb) = Ok rounded ->
  StrictInt rounded = Ok 0 ->
  SigFig_add a (OSigFig b) = Raise IndexError.
Proof.
  intros Ha Hb Hp Hround Hstrict. unfold SigFig_add, get_lsf.
  rewrite Ha, Hb. cbn [bind lsf_is_na lsf_max lsf_int].
  replace (Z.max la lb <? 0) with false by (symmetry; apply Z.ltb_ge; exact Hp).
  rewrite Hround. cbn [bind]. rewrite Hstrict. reflexivity.
Qed.

Lemma add_rounding_to_zero_raises_witness :
  SigFig_of_str "256" = Ok v_256 /\
  SigFig_of_str "-256" = Ok v_m256 /\
  SigFig_add v_256 (OSigFig v_m256) = Raise IndexError.
Proof.
  split; [reflexivity |]. split; [reflexivity |].
  apply (add_rounding_to_zero_raises v_256 v_m256 0 0 zero);
    reflexivity || discriminate.
Defined.

(** ** The parser on literals in scientific form *)

Lemma lower_char_idem (c : ascii) : lower_char (lower_char c) = lower_char c.
Proof. destruct c as [[] [] [] [] [] [] [] []]; reflexivity. Qed.

Lemma lower_idem (x : str) : lower (lower x) = lower x.
Proof.
  unfold lower. rewrite map_map. apply map_ext. apply lower_char_idem.
Qed.

Lemma find_lower (depth : nat) (x : str) :
  find_sigfigs_lsf_rec depth x = find_sigfigs_lsf_rec depth (lower x).
Proof.
  destruct depth as [| depth]; [reflexivity |].
  rewrite !find_step. cbv zeta. rewrite lower_idem. reflexivity.
Qed.

Lemma lower_app (a b : str) : lower (a ++ b) = lower a ++ lower b.
Proof. apply map_app. Qed.

(** The parser on a literal made of an optional minus sign, a mantissa
    [ip.fp], the letter [e] or [E] and an exponent: the outcome is that of
    [int] on the exponent. *)
Lemma find_scientific_int
  (neg sneg : bool) (ip fp es ed : str) (c : ascii) :
  Forall digit ip -> Forall digit fp ->
  c = "e"%char \/ c = "E"%char ->
  sign_of es = Some sneg -> Forall digit ed ->
  let mantissa := ip ++ "."%char :: fp in
  find_sigfigs_lsf (sign_str neg ++ mantissa ++ c :: es ++ ed) =
  (e <- py_int (es ++ ed) ;;
   Ok (len mantissa - 1, if 0 <? len fp then - len fp + e else e)).
Proof.
  intros Hip Hfp Hc Hes Hed mantissa.
  destruct (sign_of_no_space es sneg Hes) as (_ & Hes_e & Hes_u & _).
  assert (Hman_u : no_upper (sign_str neg ++ mantissa)).
  { apply Forall_app. split; [apply sign_str_no_upper |].
    apply Forall_app. split; [apply digits_no_upper, Hip |].
    constructor; [reflexivity | apply digits_no_upper, Hfp]. }
  assert (Hman_e : avoids "e" (sign_str neg ++ mantissa)).
  { apply Forall_app. split; [apply sign_str_avoids; discriminate |].
    apply Forall_app. split; [apply digits_avoid; [reflexivity | exact Hip] |].
    constructor; [discriminate | apply digits_avoid; [reflexivity | exact Hfp]]. }
  assert (Hex_u : no_upper (es ++ ed)).
  { apply Forall_app. split; [exact Hes_u | apply digits_no_upper, Hed]. }
  assert (Hex_e : avoids "e" (es ++ ed)).
  { apply Forall_app. split; [exact Hes_e | apply digits_avoid; [reflexivity | exact Hed]]. }
  assert (Hrm : remove_char "-" (sign_str neg ++ mantissa) = mantissa).
  { rewrite remove_char_app, remove_sign_str. apply remove_char_avoids.
    apply Forall_app. split; [apply digits_avoid; [reflexivity | exact Hip] |].
    constructor; [discriminate | apply digits_avoid; [reflexivity | exact Hfp]]. }
  unfold find_sigfigs_lsf, recursion_limit. rewrite find_lower.
  replace (lower (sign_str neg ++ mantissa ++ c :: es ++ ed))
    with ((sign_str neg ++ mantissa) ++ "e"%char :: es ++ ed).
  2:{ rewrite app_assoc, lower_app, (lower_id _ Hman_u).
      change (c :: es ++ ed) with ([c] ++ es ++ ed).
      rewrite lower_app, (lower_id _ Hex_u).
      destruct Hc as [-> | ->]; reflexivity. }
  rewrite find_step. cbv zeta.
  rewrite lower_id.
  2:{ apply Forall_app. split; [exact Hman_u |]. constructor; [reflexivity | exact Hex_u]. }
  rewrite contains_app_r, split_app by exact Hman_e.
  rewrite (split_avoids _ _ Hex_e).
  cbn [item nth_error bind]. rewrite Hrm. subst mantissa.
  rewrite split_app by (apply digits_avoid; [reflexivity | exact Hip]).
  rewrite split_avoids by (apply digits_avoid; [reflexivity | exact Hfp]).
  cbn [item nth_error bind].
  destruct (0 <? len fp); reflexivity.
Qed.

Lemma find_scientific
  (neg sneg : bool) (ip fp es ed : str) (c : ascii) :
  Forall digit ip -> Forall digit fp ->
  c = "e"%char \/ c = "E"%char ->
  sign_of es = Some sneg -> Forall digit ed -> ed <> [] ->
  len ed <= int_max_str_digits ->
  let mantissa := ip ++ "."%char :: fp in
  let exponent := if sneg then - Z_of_digits ed else Z_of_digits ed in
  find_sigfigs_lsf (sign_str neg ++ mantissa ++ c :: es ++ ed) =
  Ok (len mantissa - 1,
      if 0 <? len fp then - len fp + exponent else exponent).
Proof.
  intros Hip Hfp Hc Hes Hed Hne Hlen mantissa exponent. subst mantissa exponent.
  rewrite (find_scientific_int neg sneg ip fp es ed c Hip Hfp Hc Hes Hed).
  rewrite (py_int_signed es ed sneg Hes Hed Hne Hlen). reflexivity.
Qed.

(** C8 (amended): the scientific form.  For a literal made of an optional
    minus sign, a mantissa [ip.fp] of digits around a decimal point, the
    letter [e] or [E], and an exponent of digits with an optional sign, at
    most as many digits as [int] converts (4300), the parser returns the
    length of the mantissa minus 1 as the count, and as [lsf] the exponent
    minus the number of digits after the point when there are such digits,
    the exponent otherwise. *)
Theorem parser_scientific_form
  (neg sneg : bool) (ip fp es ed : str) (c : ascii) :
  Forall digit ip -> Forall digit fp ->
  c = "e"%char \/ c = "E"%char ->
  sign_of es = Some sneg -> Forall digit ed -> ed <> [] ->
  len ed <= int_max_str_digits ->
  let mantissa := ip ++ "."%char :: fp in
  let exponent := if sneg then - Z_of_digits ed else Z_of_digits ed in
  find_sigfigs_lsf (sign_str neg ++ mantissa ++ c :: es ++ ed) =
  Ok (len mantissa - 1,
      if 0 <? len fp then - len fp + exponent else exponent).
Proof. exact (find_scientific neg sneg ip fp es ed c). Qed.

Lemma parser_scientific_form_witness :
  find_sigfigs_lsf (py "1.23e+3") = Ok (3, 1) /\
  find_sigfigs_lsf (py "-4.E-02") = Ok (1, -2).
Proof.
  split.
  - apply (parser_scientific_form false false (py "1") (py "23") (py "+") (py "3") "e");
      try (vm_compute; discriminate); repeat constructor; discriminate.
  - apply (parser_scientific_form true true (py "4") (py "") (py "-") (py "02") "E");
      try (vm_compute; discriminate); repeat constructor; discriminate.
Defined.

(** An exponent of more digits than [int] converts, leading zeros counted,
    makes the parser raise [ValueError], whatever number it denotes. *)
Lemma scientific_exponent_too_long
  (neg sneg : bool) (ip fp es ed : str) (c : ascii) :
  Forall digit ip -> Forall digit fp ->
  c = "e"%char \/ c = "E"%char ->
  sign_of es = Some sneg -> Forall digit ed ->
  int_max_str_digits < len ed ->
  find_sigfigs_lsf (sign_str neg ++ (ip ++ "."%char :: fp) ++ c :: es ++ ed) =
  Raise ValueError.
Proof.
  intros Hip Hfp Hc Hes Hed Hlen.
  rewrite (find_scientific_int neg sneg ip fp es ed c Hip Hfp Hc Hes Hed).
  rewrite (py_int_too_long es ed sneg Hes Hed); [reflexivity | | exact Hlen].
  intros ->. cbn in Hlen. unfold int_max_str_digits in Hlen. lia.
Qed.

(** C8 (as stated) fails on a mantissa without a decimal point: the
    parser raises [IndexError] on ['1e5'] where the claim has [lsf] equal
    to the exponent 5. *)
Lemma parser_scientific_form_counterexample :
  find_sigfigs_lsf (py "1e5") = Raise IndexError /\
  forall n, find_sigfigs_lsf (py "1e5") <> Ok (n, 5).
Proof. split; [reflexivity | intros n; discriminate]. Qed.

(** ** The round trip *)

(** C1 (as stated) fails on a literal of zero: the parser accepts
    ['0.00'], the instance holds 0 significant figures, and its rendering
    ['0.00'] parses to 3. *)
Lemma round_trip_counterexample :
  accepted (py "0.00") /\ ~ round_trips (py "0.00").
Proof.
  split; [exists (3, -2); reflexivity |].
  intros (v & text & n & l & Hv & Htext & Hfind & Hsf & Hlsf).
  change (SigFig_init (AStr (py "0.00")) None None) with (Ok v_0_00) in Hv.
  injection Hv as <-.
  change (SigFig_str v_0_00) with (Ok (py "0.00")) in Htext.
  injection Htext as <-.
  change (find_sigfigs_lsf (py "0.00")) with (@Ok (Z * Z) (3, -2)) in Hfind.
  injection Hfind as <- <-. discriminate Hsf.
Qed.

Lemma Qpow_lt_inv (j k : Z) : (2 ^ j < 2 ^ k)%Q -> j < k.
Proof. intros H. apply (Qpower_lt_compat_l_inv 2); [exact H | reflexivity]. Qed.

(** In the normal range the conversion is accurate to half a unit in the
    last place. *)
Lemma float_of_ratio_accurate (s : bool) (n d : Z) :
  0 < n -> 0 < d -> d <= n * 2 ^ 1022 -> n <= max_float * d ->
  exists m e,
    float_of_ratio s n d = S754_finite s m e /\
    ((1 - eps) * inject_Z n <= Qval m e * inject_Z d)%Q /\
    (Qval m e * inject_Z d <= (1 + eps) * inject_Z n)%Q.
Proof.
  intros Hn Hd Hlow Hmax.
  pose proof (float_of_ratio_finite s n d ltac:(lia) Hd Hmax) as Hfin.
  destruct (binade_Q n d Hn Hd) as [HElo HEhi]. cbv zeta in HElo, HEhi.
  unfold float_of_ratio in *.
  replace (n =? 0) with false in * by (symmetry; apply Z.eqb_neq; lia).
  set (lg := Z.log2 n - Z.log2 d) in *.
  set (E := if ratio_ge_pow2 n d lg then lg else lg - 1) in *.
  assert (HN : (0 < inject_Z n)%Q) by (rewrite <- (Zlt_Qlt 0); exact Hn).
  assert (HD : (0 < inject_Z d)%Q) by (rewrite <- (Zlt_Qlt 0); exact Hd).
  (* the range of E *)
  assert (HE1 : -1022 <= E).
  { rewrite Zle_Qle, inject_Z_mult in Hlow.
    assert (Hc : (inject_Z (2 ^ 1022) * 2 ^ (-1022) == 1)%Q) by reflexivity.
    assert (H1 : (2 ^ (-1022) * inject_Z d <= inject_Z n)%Q).
    { pose proof (Qpow_pos 2 (-1022) eq_refl) as Hp.
      assert (H2 : (2 ^ (-1022) * inject_Z d <=
                   2 ^ (-1022) * (inject_Z n * inject_Z (2 ^ 1022)))%Q)
        by (apply Qmult_le_l; assumption).
      setoid_replace (2 ^ (-1022) * (inject_Z n * inject_Z (2 ^ 1022)))%Q
        with (inject_Z n * (inject_Z (2 ^ 1022) * 2 ^ (-1022)))%Q in H2 by ring.
      rewrite Hc, Qmult_1_r in H2. exact H2. }
    assert (H3 : (2 ^ (-1022) < 2 ^ (E + 1))%Q).
    { apply (Qmult_lt_r _ _ (inject_Z d) HD). lra. }
    apply Qpow_lt_inv in H3. lia. }
  set (e := Z.max (E - 52) (-1074)) in *.
  assert (He : e = E - 52) by lia.
  (* the exact quotient in units of 2 ^ e *)
  set (x := (inject_Z n * 2 ^ (- e) * / inject_Z d)%Q).
  assert (Hx : (x * inject_Z d == inject_Z n * 2 ^ (- e))%Q).
  { subst x. field. intros Hz. rewrite Hz in HD. discriminate HD. }
  pose proof (Qpow_pos 2 e eq_refl) as Hpe.
  pose proof (Qpow_pos 2 (- e) eq_refl) as Hpne.
  pose proof (Qpow_opp_r 2 e eq_refl) as Hpp.
  assert (Hx52 : (2 ^ 52 <= x)%Q /\ (x < 2 ^ 53)%Q).
  { assert (H52 : (2 ^ E * 2 ^ (- e) == 2 ^ 52)%Q).
    { rewrite <- Qpow_add by reflexivity. replace (E + - e) with 52 by lia. reflexivity. }
    assert (H53 : (2 ^ (E + 1) * 2 ^ (- e) == 2 ^ 53)%Q).
    { rewrite <- Qpow_add by reflexivity. replace (E + 1 + - e) with 53 by lia. reflexivity. }
    split.
    - apply (Qmult_le_r _ _ (inject_Z d) HD). rewrite Hx, <- H52. 
      setoid_replace (2 ^ E * 2 ^ (- e) * inject_Z d)%Q
        with (2 ^ E * inject_Z d * 2 ^ (- e))%Q by ring.
      apply Qmult_le_compat_r; [exact HElo | apply Qlt_le_weak, Hpne].
    - apply (Qmult_lt_r _ _ (inject_Z d) HD). rewrite Hx, <- H53.
      setoid_replace (2 ^ (E + 1) * 2 ^ (- e) * inject_Z d)%Q
        with (2 ^ (E + 1) * inject_Z d * 2 ^ (- e))%Q by ring.
      apply Qmult_lt_compat_r; [exact Hpne | exact HEhi]. }
  set (q := if 0 <=? e then div_half_even n (d * 2 ^ e)
            else div_half_even (n * 2 ^ (- e)) d) in *.
  assert (Hq : (inject_Z q - (1 # 2) <= x)%Q /\ (x <= inject_Z q + (1 # 2))%Q).
  { subst q. destruct (0 <=? e) eqn:Ee.
    - apply Z.leb_le in Ee. apply div_half_even_error_Q.
      + assert (0 < 2 ^ e) by (apply Z.pow_pos_nonneg; lia). nia.
      + rewrite inject_Z_mult, inject_pow by lia. change (inject_Z 2) with 2%Q.
        setoid_replace (x * (inject_Z d * 2 ^ e))%Q with (x * inject_Z d * 2 ^ e)%Q by ring.
        rewrite Hx. rewrite <- Qmult_assoc, (Qmult_comm (2 ^ (- e))), Hpp. ring.
    - apply Z.leb_gt in Ee. apply div_half_even_error_Q; [exact Hd |].
      rewrite inject_Z_mult, inject_pow by lia. change (inject_Z 2) with 2%Q.
      symmetry. exact Hx. }
  assert (Hq52 : 2 ^ 52 <= q <= 2 ^ 53).
  { destruct Hq as [Hq1 Hq2]. destruct Hx52 as [Hx1 Hx2]. split.
    - assert (H : (inject_Z (2 ^ 52 - 1) < inject_Z q)%Q).
      { change (inject_Z (2 ^ 52 - 1)) with (2 ^ 52 - 1)%Q. lra. }
      rewrite <- Zlt_Qlt in H. lia.
    - assert (H : (inject_Z q < inject_Z (2 ^ 53 + 1))%Q).
      { change (inject_Z (2 ^ 53 + 1)) with (2 ^ 53 + 1)%Q. lra. }
      rewrite <- Zlt_Qlt in H. lia. }
  replace (q =? 0) with false in * by (symmetry; apply Z.eqb_neq; lia).
  (* the value is q * 2 ^ e *)
  assert (Hacc : ((1 - eps) * inject_Z n <= inject_Z q * 2 ^ e * inject_Z d)%Q /\
                 (inject_Z q * 2 ^ e * inject_Z d <= (1 + eps) * inject_Z n)%Q).
  { assert (Hn' : (inject_Z n == x * (2 ^ e * inject_Z d))%Q).
    { setoid_replace (x * (2 ^ e * inject_Z d))%Q with (x * inject_Z d * 2 ^ e)%Q by ring.
      rewrite Hx, <- Qmult_assoc, (Qmult_comm (2 ^ (- e))), Hpp. ring. }
    assert (Ht : (0 < 2 ^ e * inject_Z d)%Q) by (apply Qmult_lt_0_compat; assumption).
    set (t := (2 ^ e * inject_Z d)%Q) in *.
    setoid_replace (inject_Z q * 2 ^ e * inject_Z d)%Q with (inject_Z q * t)%Q
      by (subst t; ring).
    rewrite Hn'. destruct Hq as [Hq1 Hq2]. destruct Hx52 as [Hx1 Hx2].
    assert (Hh : (eps * 2 ^ 52 == 1 # 2)%Q) by reflexivity.
    assert (H1 : ((1 - eps) * x <= inject_Z q)%Q).
    { assert (eps * 2 ^ 52 <= eps * x)%Q by (apply Qmult_le_l; [reflexivity | exact Hx1]).
      lra. }
    assert (H2 : (inject_Z q <= (1 + eps) * x)%Q).
    { assert (eps * 2 ^ 52 <= eps * x)%Q by (apply Qmult_le_l; [reflexivity | exact Hx1]).
      lra. }
    split.
    - setoid_replace ((1 - eps) * (x * t))%Q with ((1 - eps) * x * t)%Q by ring.
      apply Qmult_le_compat_r; [exact H1 | apply Qlt_le_weak, Ht].
    - setoid_replace ((1 + eps) * (x * t))%Q with ((1 + eps) * x * t)%Q by ring.
      apply Qmult_le_compat_r; [exact H2 | apply Qlt_le_weak, Ht]. }
  destruct (q =? 2 ^ 53) eqn:Eq.
  - apply Z.eqb_eq in Eq.
    destruct (e + 1 <=? emax - prec); [| discriminate Hfin].
    exists (Z.to_pos (2 ^ 52)), (e + 1). split; [reflexivity |].
    assert (Hv : (Qval (Z.to_pos (2 ^ 52)) (e + 1) == inject_Z q * 2 ^ e)%Q).
    { unfold Qval. rewrite Eq, Qpow_succ by reflexivity.
      change (inject_Z (Z.pos (Z.to_pos (2 ^ 52)))) with (2 ^ 52)%Q.
      change (inject_Z (2 ^ 53)) with (2 ^ 52 * 2)%Q. ring. }
    rewrite Hv. exact Hacc.
  - destruct (e <=? emax - prec); [| discriminate Hfin].
    exists (Z.to_pos q), e. split; [reflexivity |].
    unfold Qval. rewrite Z2Pos.id by lia. exact Hacc.
Qed.

(** ** The digits of a float near a short decimal *)

Lemma Qpow10_lt_inv (j k : Z) : (10 ^ j < 10 ^ k)%Q -> j < k.
Proof. intros H. apply (Qpower_lt_compat_l_inv 10); [exact H | reflexivity]. Qed.

Lemma Qpow10_le (j k : Z) : j <= k -> (10 ^ j <= 10 ^ k)%Q.
Proof. intros H. apply Qpower_le_compat_l; [exact H | discriminate]. Qed.

Lemma Qmult_between (lo x hi t : Q) :
  (0 < t)%Q -> (lo <= x)%Q -> (x <= hi)%Q ->
  (lo * t <= x * t)%Q /\ (x * t <= hi * t)%Q.
Proof.
  intros Ht H1 H2. split; apply Qmult_le_compat_r; try assumption;
    apply Qlt_le_weak, Ht.
Qed.

(** A float within half a unit in the last place of the decimal
    [C * 10 ^ q], whose [nc] digits are at most 15, has the digits of [C]
    at any precision [P] from [nc] to 15. *)
Lemma sig_digits_decimal (m : positive) (e C q nc P : Z) :
  1 <= nc <= P -> P <= 15 ->
  10 ^ (nc - 1) <= C < 10 ^ nc ->
  ((1 - eps) * (inject_Z C * 10 ^ q) <= Qval m e)%Q ->
  (Qval m e <= (1 + eps) * (inject_Z C * 10 ^ q))%Q ->
  sig_digits m e P = (C * 10 ^ (P - nc), nc - 1 + q).
Proof.
  intros Hnc HP HC Hlo Hhi.
  destruct (dec_exponent_Q m e) as [HX1 HX2].
  unfold sig_digits. set (X0 := dec_exponent m e) in *.
  set (f := Qval m e) in *. set (Xv := nc - 1 + q).
  (* the decimal as a rational *)
  destruct HC as [HC1 HC2].
  assert (HC2' : C <= 10 ^ nc - 1) by lia.
  rewrite Zle_Qle, inject_pow in HC1 by lia.
  rewrite Zle_Qle in HC2'. unfold Z.sub in HC2'.
  rewrite inject_Z_plus, inject_pow in HC2' by lia.
  change (inject_Z 10) with 10%Q in *. change (inject_Z (- (1))) with (- (1))%Q in HC2'.
  set (c := inject_Z C) in *.
  pose proof (Qpow_pos 10 q eq_refl) as HT. set (T := (10 ^ q)%Q) in *.
  pose proof (Qpow_pos 10 (nc - 1) eq_refl) as HK1.
  assert (HK : (10 ^ nc == 10 ^ (nc - 1) * 10)%Q).
  { rewrite <- Qpow_succ by reflexivity. replace (nc - 1 + 1) with nc by lia. reflexivity. }
  assert (HK15 : (10 ^ nc <= 10 ^ 15)%Q) by (apply Qpow10_le; lia).
  assert (HP15 : (10 ^ P <= 10 ^ 15)%Q) by (apply Qpow10_le; lia).
  assert (Heps : (eps * 10 ^ 15 < 1 # 2)%Q) by reflexivity.
  assert (Heps0 : (0 < eps)%Q) by reflexivity.
  assert (Hepsc : (eps * c <= eps * 10 ^ 15)%Q) by (apply Qmult_le_l; [exact Heps0 | lra]).
  assert (HXv : (10 ^ Xv == 10 ^ (nc - 1) * T)%Q).
  { subst Xv T. apply Qpow_add. reflexivity. }
  assert (HXv1 : (10 ^ (Xv + 1) == 10 ^ nc * T)%Q).
  { subst Xv T. replace (nc - 1 + q + 1) with (nc + q) by lia. apply Qpow_add. reflexivity. }
  (* X0 is Xv or Xv - 1 *)
  assert (HXa : X0 <= Xv).
  { assert (H : (10 ^ X0 < 10 ^ (Xv + 1))%Q).
    { apply Qle_lt_trans with f; [exact HX1 |]. apply Qle_lt_trans with ((1 + eps) * (c * T))%Q;
        [exact Hhi |]. rewrite HXv1.
      setoid_replace ((1 + eps) * (c * T))%Q with ((1 + eps) * c * T)%Q by ring.
      apply Qmult_lt_compat_r; [exact HT | lra]. }
    apply Qpow10_lt_inv in H. lia. }
  assert (HXb : Xv - 1 <= X0).
  { assert (H : (10 ^ (Xv - 1) < 10 ^ (X0 + 1))%Q).
    { apply Qlt_trans with f; [| exact HX2].
      apply Qlt_le_trans with ((1 - eps) * (c * T))%Q; [| exact Hlo].
      assert (H10 : (10 ^ (Xv - 1) * 10 == 10 ^ Xv)%Q).
      { rewrite <- Qpow_succ by reflexivity. replace (Xv - 1 + 1) with Xv by lia. reflexivity. }
      pose proof (Qpow_pos 10 (Xv - 1) eq_refl) as Hp.
      assert (H1 : (10 ^ (nc - 1) * T <= c * T)%Q)
        by (apply Qmult_le_compat_r; [exact HC1 | apply Qlt_le_weak, HT]).
      assert (H2 : (eps * (c * T) <= (1 # 2) * (c * T))%Q).
      { apply Qmult_le_compat_r; [discriminate |].
        apply Qlt_le_weak, Qmult_lt_0_compat; [lra | exact HT]. }
      rewrite <- HXv in H1. lra. }
    apply Qpow10_lt_inv in H. lia. }
  (* the scale that brings the decimal to the integer N *)
  set (N := C * 10 ^ (P - nc)).
  assert (HNq : (inject_Z N == c * 10 ^ (P - nc))%Q).
  { subst N c. rewrite inject_Z_mult, inject_pow by lia. reflexivity. }
  pose proof (Qpow_pos 10 (P - nc) eq_refl) as HPn.
  assert (HPsum : (10 ^ P == 10 ^ nc * 10 ^ (P - nc))%Q).
  { rewrite <- Qpow_add by reflexivity. replace (nc + (P - nc)) with P by lia. reflexivity. }
  assert (HN15 : (inject_Z N < 10 ^ P)%Q).
  { rewrite HNq, HPsum. apply Qmult_lt_compat_r; [exact HPn | lra]. }
  assert (HN0 : (0 < inject_Z N)%Q).
  { rewrite HNq. apply Qmult_lt_0_compat; [lra | exact HPn]. }
  assert (Hscale : forall s : Q, (0 < s)%Q -> forall V : Q,
            (c * T * s == V)%Q -> (0 < V)%Q -> (V <= 10 ^ 15)%Q ->
            (V - (1 # 2) < f * s)%Q /\ (f * s < V + (1 # 2))%Q).
  { intros s Hs V HV HV0 HV15.
    destruct (Qmult_between _ _ _ s Hs Hlo Hhi) as [H1 H2].
    setoid_replace ((1 - eps) * (c * T) * s)%Q with ((1 - eps) * (c * T * s))%Q in H1 by ring.
    setoid_replace ((1 + eps) * (c * T) * s)%Q with ((1 + eps) * (c * T * s))%Q in H2 by ring.
    rewrite HV in H1, H2.
    assert (eps * V <= eps * 10 ^ 15)%Q by (apply Qmult_le_l; assumption).
    split; lra. }
  destruct (Z.eq_dec X0 Xv) as [EX | EX].
  - (* no carry *)
    assert (HR : round_dec m e (P - 1 - X0) = N).
    { pose proof (Qpow_pos 10 (P - 1 - X0) eq_refl) as Hs.
      assert (HV : (c * T * 10 ^ (P - 1 - X0) == inject_Z N)%Q).
      { rewrite HNq. subst T. rewrite <- Qmult_assoc, <- Qpow_add by reflexivity.
        replace (q + (P - 1 - X0)) with (P - nc) by lia. reflexivity. }
      destruct (Hscale _ Hs (inject_Z N) HV HN0 ltac:(lra)) as [H1 H2].
      apply round_dec_Q; assumption. }
    rewrite HR.
    replace (N =? 10 ^ P) with false.
    + f_equal. exact EX.
    + symmetry. apply Z.eqb_neq. intros E.
      rewrite E, inject_pow in HN15 by lia. change (inject_Z 10) with 10%Q in HN15.
      exact (Qlt_irrefl _ HN15).
  - (* the float lies just below a power of ten *)
    assert (EX' : X0 = Xv - 1) by lia.
    assert (HCeq : C = 10 ^ (nc - 1)).
    { assert (H : (inject_Z C < inject_Z (10 ^ (nc - 1) + 1))%Q).
      { rewrite inject_Z_plus, inject_pow by lia.
        change (inject_Z 10) with 10%Q. change (inject_Z 1) with 1%Q. fold c.
        assert (H1 : (f < 10 ^ (nc - 1) * T)%Q).
        { rewrite <- HXv. replace Xv with (X0 + 1) by lia. exact HX2. }
        assert (H2 : ((1 - eps) * c * T < 10 ^ (nc - 1) * T)%Q).
        { setoid_replace ((1 - eps) * c * T)%Q with ((1 - eps) * (c * T))%Q by ring.
          apply Qle_lt_trans with f; assumption. }
        apply Qmult_lt_r in H2; [| exact HT]. lra. }
      rewrite <- Zlt_Qlt in H.
      assert (10 ^ (nc - 1) <= C).
      { rewrite Zle_Qle, inject_pow by lia. change (inject_Z 10) with 10%Q. exact HC1. }
      lia. }
    assert (HR : round_dec m e (P - 1 - X0) = 10 ^ P).
    { pose proof (Qpow_pos 10 (P - 1 - X0) eq_refl) as Hs.
      assert (HV : (c * T * 10 ^ (P - 1 - X0) == 10 ^ P)%Q).
      { subst c. rewrite HCeq, inject_pow by lia. change (inject_Z 10) with 10%Q.
        subst T. rewrite <- !Qpow_add by reflexivity.
        replace (nc - 1 + q + (P - 1 - X0)) with P by lia. reflexivity. }
      destruct (Hscale _ Hs (10 ^ P)%Q HV (Qpow_pos 10 P eq_refl) HP15) as [H1 H2].
      apply round_dec_Q; rewrite inject_pow by lia; assumption. }
    rewrite HR, Z.eqb_refl. f_equal; [| lia].
    subst N. rewrite HCeq, <- Z.pow_add_r by lia. f_equal. lia.
Qed.

(** ** Canonical digits *)

Lemma digits_rec_fuel (f1 : nat) : forall f2 n acc,
  0 <= n < 2 ^ Z.of_nat (S f1) -> n < 2 ^ Z.of_nat (S f2) ->
  digits_rec (S f1) n acc = digits_rec (S f2) n acc.
Proof.
  induction f1 as [| f1 IH]; intros f2 n acc H1 H2.
  - change (2 ^ Z.of_nat 1) with 2 in H1. cbn [digits_rec].
    replace (n <? 10) with true by (symmetry; apply Z.ltb_lt; lia).
    reflexivity.
  - cbn [digits_rec]. destruct (n <? 10) eqn:E; [reflexivity |].
    apply Z.ltb_ge in E. fold (digits_rec (S f1)).
    rewrite (Nat2Z.inj_succ (S f1)), Z.pow_succ_r in H1 by lia.
    destruct f2 as [| f2]; [change (2 ^ Z.of_nat 1) with 2 in H2; lia |].
    rewrite (Nat2Z.inj_succ (S f2)), Z.pow_succ_r in H2 by lia.
    fold (digits_rec (S f2)). apply IH.
    + split; [apply Z.div_pos; lia | apply Z.div_lt_upper_bound; lia].
    + apply Z.div_lt_upper_bound; lia.
Qed.

Lemma log2_fuel (n : Z) : 0 <= n -> n < 2 ^ Z.of_nat (S (Z.to_nat (Z.log2 n))).
Proof.
  intros Hn. destruct (Z.eq_dec n 0) as [-> | Hz]; [reflexivity |].
  rewrite Nat2Z.inj_succ, Z2Nat.id by apply Z.log2_nonneg.
  apply Z.log2_spec. lia.
Qed.

Lemma digits_snoc (a b : Z) :
  0 < a -> 0 <= b < 10 ->
  digits_of_Z (10 * a + b) = digits_of_Z a ++ [digit_char b].
Proof.
  intros Ha Hb. unfold digits_of_Z at 1. cbn [digits_rec].
  replace (10 * a + b <? 10) with false by (symmetry; apply Z.ltb_ge; lia).
  replace ((10 * a + b) / 10) with a
    by (apply Z.div_unique with b; lia).
  replace ((10 * a + b) mod 10) with b
    by (apply Z.mod_unique with a; lia).
  rewrite digits_rec_app. f_equal. unfold digits_of_Z.
  pose proof (log2_fuel (10 * a + b) ltac:(lia)) as H.
  pose proof (log2_fuel a ltac:(lia)) as H'.
  destruct (Z.to_nat (Z.log2 (10 * a + b))) as [| f1].
  - change (2 ^ Z.of_nat 1) with 2 in H. lia.
  - apply digits_rec_fuel; [| exact H'].
    rewrite (Nat2Z.inj_succ (S f1)), Z.pow_succ_r in H by lia. lia.
Qed.

Lemma digits_small (b : Z) : 0 <= b < 10 -> digits_of_Z b = [digit_char b].
Proof.
  intros Hb. unfold digits_of_Z. cbn [digits_rec].
  replace (b <? 10) with true by (symmetry; apply Z.ltb_lt; lia).
  rewrite Z.mod_small by lia. reflexivity.
Qed.

Lemma digit_char_val (c : ascii) : digit c -> digit_char (digit_val c) = c.
Proof.
  unfold digit. destruct c as [[] [] [] [] [] [] [] []]; cbv; intros H;
    try discriminate H; reflexivity.
Qed.

Lemma digits_mul_pow10 (D : Z) (j : nat) :
  0 < D -> digits_of_Z (D * 10 ^ Z.of_nat j) = digits_of_Z D ++ zeros j.
Proof.
  intros HD. induction j as [| j IH].
  - cbn [Z.of_nat]. rewrite Z.pow_0_r, Z.mul_1_r, app_nil_r. reflexivity.
  - rewrite Nat2Z.inj_succ, Z.pow_succ_r by lia.
    replace (D * (10 * 10 ^ Z.of_nat j)) with (10 * (D * 10 ^ Z.of_nat j) + 0) by ring.
    assert (0 < 10 ^ Z.of_nat j) by (apply Z.pow_pos_nonneg; lia).
    rewrite digits_snoc by nia. rewrite IH, <- app_assoc.
    change [digit_char 0] with ["0"%char]. rewrite zeros_snoc. reflexivity.
Qed.

Lemma Z_of_digits_cons_zero (w : str) : Z_of_digits ("0"%char :: w) = Z_of_digits w.
Proof. reflexivity. Qed.

Lemma Z_of_digits_upper (w : str) : Forall digit w -> Z_of_digits w < 10 ^ len w.
Proof.
  induction w as [| c w IH] using rev_ind; intros H; [reflexivity |].
  apply Forall_app in H. destruct H as [Hw Hc]. inversion Hc; subst.
  rewrite Z_of_digits_snoc. unfold len. rewrite length_app, Nat2Z.inj_add.
  change (Z.of_nat (length [c])) with 1. rewrite Z.pow_add_r by lia.
  specialize (IH Hw). unfold len in IH. pose proof (digit_val_range c H1). lia.
Qed.

(** The digits of [n > 0] start with a digit that is not 0. *)
Lemma digits_of_Z_head (n : Z) :
  0 < n -> exists d rest, digits_of_Z n = d :: rest /\ d <> "0"%char.
Proof.
  intros Hn. destruct (ndigits_bounds n ltac:(lia)) as (_ & Hlo & _).
  pose proof (Z_of_digits_of_Z n ltac:(lia)) as Hv.
  pose proof (digits_of_Z_digits n) as Hd.
  unfold ndigits in Hlo.
  remember (digits_of_Z n) as w eqn:Ew. clear Ew.
  destruct w as [| d rest]; [change (Z_of_digits []) with 0 in Hv; lia |].
  exists d, rest. split; [reflexivity |]. intros ->.
  apply Forall_inv_tail in Hd. rewrite Z_of_digits_cons_zero in Hv.
  pose proof (Z_of_digits_upper rest Hd) as Hup.
  unfold len in *. cbn [length] in Hlo. rewrite Nat2Z.inj_succ in Hlo.
  replace (Z.succ (Z.of_nat (length rest)) - 1) with (Z.of_nat (length rest)) in Hlo by lia.
  lia.
Qed.

(** Digits that start with a digit other than 0 are those of their
    number. *)
Lemma digits_of_Z_of_digits (w : str) :
  Forall digit w ->
  match w with [] => False | c :: _ => c <> "0"%char end ->
  digits_of_Z (Z_of_digits w) = w.
Proof.
  induction w as [| c w IH] using rev_ind; intros Hd Hh; [contradiction |].
  apply Forall_app in Hd. destruct Hd as [Hw Hc]. inversion Hc; subst.
  rewrite Z_of_digits_snoc. destruct w as [| d w].
  - cbn [app] in *. change (Z_of_digits []) with 0. rewrite Z.mul_0_r, Z.add_0_l.
    rewrite digits_small by (apply digit_val_range; assumption).
    rewrite digit_char_val by assumption. reflexivity.
  - cbn [app] in Hh. specialize (IH Hw Hh).
    assert (0 < Z_of_digits (d :: w)).
    { pose proof (Z_of_digits_nonneg _ Hw).
      destruct (Z.eq_dec (Z_of_digits (d :: w)) 0) as [E | E]; [| lia].
      rewrite E in IH. inversion Hw; subst.
      change (digits_of_Z 0) with ["0"%char] in IH. congruence. }
    rewrite digits_snoc by (try apply digit_val_range; assumption).
    rewrite IH, digit_char_val by assumption. reflexivity.
Qed.

Lemma canonical_digits (w : str) :
  Forall digit w -> 0 < Z_of_digits w ->
  exists z, w = zeros z ++ digits_of_Z (Z_of_digits w).
Proof.
  induction w as [| c w IH]; intros Hd Hp; [cbn in Hp; lia |].
  inversion Hd; subst.
  destruct (ascii_dec c "0") as [-> | Hc].
  - rewrite Z_of_digits_cons_zero in *. destruct (IH H2 Hp) as [z Hz].
    exists (S z). cbn [zeros repeat app]. f_equal. exact Hz.
  - exists O. cbn [zeros repeat app]. symmetry.
    apply digits_of_Z_of_digits; assumption.
Qed.

(** ** Trailing zeros *)

Lemma lstrip_zeros (j : nat) (y : str) : lstrip "0" (zeros j ++ y) = lstrip "0" y.
Proof. induction j as [| j IH]; [reflexivity | exact IH]. Qed.

Lemma rev_zeros (j : nat) : rev (zeros j) = zeros j.
Proof.
  induction j as [| j IH]; [reflexivity |].
  cbn [zeros repeat rev]. fold (zeros j). rewrite IH. apply zeros_snoc.
Qed.

Lemma rstrip_zeros (x : str) (j : nat) : rstrip "0" (x ++ zeros j) = rstrip "0" x.
Proof.
  unfold rstrip. rewrite rev_app_distr, rev_zeros, lstrip_zeros. reflexivity.
Qed.

Lemma rstrip_cons (d : ascii) (x : str) :
  d <> "0"%char -> rstrip "0" (d :: x) = d :: rstrip "0" x.
Proof. intros H. exact (rstrip_app "0" d [] x H). Qed.

Lemma rstrip_last (x : str) (c : ascii) :
  c <> "0"%char -> rstrip "0" (x ++ [c]) = x ++ [c].
Proof. intros H. rewrite rstrip_app by assumption. reflexivity. Qed.

Lemma rstrip_length (x : str) : (length (rstrip "0" x) <= length x)%nat.
Proof.
  destruct (rstrip_prefix "0" x) as [q Hq]. rewrite Hq at 2.
  rewrite length_app. lia.
Qed.

(** ** The float of a decimal literal *)

(** [float] of the decimal [C * 10 ^ q] is within one part in [2 ^ 53] of
    it. *)
Lemma float_of_dec_accurate (s : bool) (C q : Z) :
  0 < C < 10 ^ 16 -> -300 <= q <= 290 ->
  exists m e, float_of_dec s C q = S754_finite s m e /\
    ((1 - eps) * (inject_Z C * 10 ^ q) <= Qval m e)%Q /\
    (Qval m e <= (1 + eps) * (inject_Z C * 10 ^ q))%Q.
Proof.
  intros HC Hq. unfold float_of_dec.
  assert (H16 : 10 ^ 16 * 10 ^ 290 <= max_float) by (vm_compute; discriminate).
  assert (H300 : 10 ^ 300 <= 2 ^ 1022) by (vm_compute; discriminate).
  assert (Hmax : 0 < max_float) by reflexivity.
  destruct (0 <=? q) eqn:E.
  - apply Z.leb_le in E.
    assert (Hp : 0 < 10 ^ q) by (apply Z.pow_pos_nonneg; lia).
    assert (Hp' : 10 ^ q <= 10 ^ 290) by (apply Z.pow_le_mono_r; lia).
    assert (H2 : 0 < 2 ^ 1022) by (apply Z.pow_pos_nonneg; lia).
    destruct (float_of_ratio_accurate s (C * 10 ^ q) 1) as (m & e & Hf & Hlo & Hhi).
    + nia.
    + lia.
    + set (a := 10 ^ q) in *. set (b := 2 ^ 1022) in *. nia.
    + set (a := 10 ^ q) in *. set (b := 10 ^ 290) in *. set (c := 10 ^ 16) in *.
      assert (C * a <= c * b) by nia. lia.
    + exists m, e. split; [exact Hf |].
      rewrite inject_Z_mult, inject_pow in Hlo, Hhi by lia.
      change (inject_Z 1) with 1%Q in Hlo, Hhi. rewrite Qmult_1_r in Hlo, Hhi.
      split; assumption.
  - apply Z.leb_gt in E. set (k := - q) in *.
    assert (Hp : 0 < 10 ^ k) by (apply Z.pow_pos_nonneg; lia).
    assert (Hp' : 10 ^ k <= 10 ^ 300) by (apply Z.pow_le_mono_r; lia).
    destruct (float_of_ratio_accurate s C (10 ^ k)) as (m & e & Hf & Hlo & Hhi).
    + lia.
    + lia.
    + set (a := 10 ^ k) in *. set (b := 2 ^ 1022) in *. set (c := 10 ^ 300) in *.
      assert (a <= b) by lia. nia.
    + set (a := 10 ^ k) in *. set (c := 10 ^ 16) in *.
      assert (c <= max_float).
      { assert (c * 1 <= c * 10 ^ 290) by (apply Z.mul_le_mono_nonneg_l; [subst c |]; lia).
        lia. }
      nia.
    + exists m, e. split; [exact Hf |].
      rewrite inject_pow in Hlo, Hhi by lia.
      assert (Ht : (0 < 10 ^ q)%Q) by (apply Qpow_pos; reflexivity).
      assert (Hone : (10 ^ k * 10 ^ q == 1)%Q).
      { replace q with (- k) by (subst k; lia). apply Qpow_opp_r. reflexivity. }
      change (inject_Z 10) with 10%Q in Hlo, Hhi.
      destruct (Qmult_between _ _ _ (10 ^ q)%Q Ht (Qle_refl _) Hlo) as [_ H1].
      destruct (Qmult_between _ _ _ (10 ^ q)%Q Ht (Qle_refl _) Hhi) as [_ H2].
      assert (Hv : (Qval m e * 10 ^ k * 10 ^ q == Qval m e)%Q).
      { rewrite <- Qmult_assoc, Hone. ring. }
      rewrite Hv in H1, H2. split.
      * setoid_replace ((1 - eps) * (inject_Z C * 10 ^ q))%Q
          with ((1 - eps) * inject_Z C * 10 ^ q)%Q by ring. exact H1.
      * setoid_replace ((1 + eps) * (inject_Z C * 10 ^ q))%Q
          with ((1 + eps) * inject_Z C * 10 ^ q)%Q by ring. exact H2.
Qed.

(** ** The mantissa the parser rebuilds *)

(** Behind the first digit [d0] of a number [pre ++ d0 :: dr] that is not 0,
    the parser keeps as many digits as the user wrote. *)
Lemma mantissa_length (pre dr : str) (d0 : ascii) (j : nat) :
  d0 <> "0"%char ->
  length (rstrip "0" (dr ++ zeros j) ++
          zeros (length (pre ++ d0 :: dr) - length (rstrip "0" (pre ++ d0 :: dr)))) =
  length dr.
Proof.
  intros Hd. rewrite rstrip_zeros, rstrip_app by assumption.
  rewrite !length_app. cbn [length]. unfold zeros. rewrite repeat_length.
  pose proof (rstrip_length dr). lia.
Qed.

Lemma sign_of_avoids (c : ascii) (es : str) (neg : bool) :
  sign_of es = Some neg -> c <> "-"%char -> c <> "+"%char -> avoids c es.
Proof.
  intros He Hm Hp. destruct es as [| d [| d' es]]; cbn in He.
  - constructor.
  - destruct d as [[] [] [] [] [] [] [] []]; try discriminate He;
      (constructor; [congruence | constructor]).
  - destruct d as [[] [] [] [] [] [] [] []]; discriminate He.
Qed.

Lemma user_zeros_point (es ip fp : str) (neg : bool) :
  sign_of es = Some neg -> Forall digit ip -> Forall digit fp ->
  user_zeros (es ++ ip ++ "."%char :: fp) =
  zeros (length (es ++ ip ++ fp) - length (rstrip "0" (es ++ ip ++ fp))).
Proof.
  intros He Hi Hf. unfold user_zeros.
  replace (contains "." (es ++ ip ++ "."%char :: fp)) with true.
  2:{ rewrite app_assoc. symmetry. apply contains_app_r. }
  cbv zeta. rewrite !remove_char_app.
  rewrite (remove_char_avoids "." es)
    by (apply (sign_of_avoids _ es neg He); discriminate).
  rewrite (remove_char_avoids "." ip) by (apply digits_avoid; [reflexivity | exact Hi]).
  replace (remove_char "." ("."%char :: fp)) with fp; [reflexivity |].
  symmetry. change (remove_char "." ("."%char :: fp)) with (remove_char "." fp).
  apply remove_char_avoids, digits_avoid; [reflexivity | exact Hf].
Qed.

(** A literal with a decimal point that denotes a number other than zero with
    at most nine digits from its first nonzero one on: the parser counts these
    digits, and places the least significant one at the last digit written. *)
Lemma find_point_literal (depth : nat) (es : str) (neg : bool) (ip fp : str) :
  sign_of es = Some neg -> Forall digit ip -> Forall digit fp ->
  0 < Z_of_digits (ip ++ fp) < 10 ^ 9 -> len fp <= 300 ->
  find_sigfigs_lsf_rec (S (S depth)) (es ++ ip ++ "."%char :: fp) =
  Ok (ndigits (Z_of_digits (ip ++ fp)), - len fp).
Proof.
  intros Hes Hi Hf HD Hk.
  assert (Hw : Forall digit (ip ++ fp)) by (apply Forall_app; split; assumption).
  assert (Hne : ip ++ fp <> []).
  { intros E. rewrite E in HD. change (Z_of_digits []) with 0 in HD. lia. }
  pose proof (py_float_point es neg ip fp Hes Hi Hf Hne) as Hpy.
  destruct (canonical_digits (ip ++ fp) Hw ltac:(lia)) as [z Hz].
  set (D := Z_of_digits (ip ++ fp)) in *.
  assert (Hlen : 0 <= len fp) by (unfold len; lia).
  destruct (float_of_dec_accurate neg D (- len fp)) as (m & e & Hfl & Hlo & Hhi);
    [lia | lia |].
  rewrite Hfl in Hpy.
  destruct (sign_of_no_space es neg Hes) as (_ & Hes_e & Hes_u & _).
  set (x := es ++ ip ++ "."%char :: fp) in *.
  assert (Hu : no_upper x).
  { apply Forall_app. split; [exact Hes_u |].
    apply Forall_app. split; [apply digits_no_upper, Hi |].
    constructor; [reflexivity | apply digits_no_upper, Hf]. }
  assert (He : avoids "e" x).
  { apply Forall_app. split; [exact Hes_e |].
    apply Forall_app. split; [apply digits_avoid; [reflexivity | exact Hi] |].
    constructor; [discriminate | apply digits_avoid; [reflexivity | exact Hf]]. }
  destruct (find_plain_finite depth x neg m e Hu He Hpy) as (d & rest & Hds & ->).
  destruct (ndigits_bounds D ltac:(lia)) as [Hn1 Hn2].
  assert (Hn9 : ndigits D <= 9).
  { destruct (Z_le_gt_dec (ndigits D) 9) as [L | G]; [exact L | exfalso].
    assert (10 ^ 9 <= 10 ^ (ndigits D - 1)) by (apply Z.pow_le_mono_r; lia). lia. }
  rewrite (sig_digits_decimal m e D (- len fp) (ndigits D) 9) in *;
    try assumption; try lia.
  cbn [fst snd] in *.
  replace (9 - ndigits D) with (Z.of_nat (Z.to_nat (9 - ndigits D))) in Hds by lia.
  rewrite digits_mul_pow10 in Hds by lia.
  destruct (digits_of_Z_head D ltac:(lia)) as (d0 & dr & Hdd & Hd0).
  rewrite Hdd in Hds, Hz. cbn [app] in Hds. injection Hds as <- <-.
  subst x. rewrite (user_zeros_point es ip fp neg) by assumption.
  rewrite Hz, (app_assoc es).
  cbv zeta. unfold len at 1 3. rewrite mantissa_length by assumption.
  unfold ndigits, len in *. rewrite Hdd. cbn [length].
  f_equal. f_equal; lia.
Qed.

Lemma ndigits_le_9 (C : Z) : 0 < C < 10 ^ 9 -> 1 <= ndigits C <= 9.
Proof.
  intros HC. destruct (ndigits_bounds C ltac:(lia)) as [Hn1 Hn2].
  split; [exact Hn1 |].
  destruct (Z_le_gt_dec (ndigits C) 9) as [L | G]; [exact L | exfalso].
  assert (10 ^ 9 <= 10 ^ (ndigits C - 1)) by (apply Z.pow_le_mono_r; lia). lia.
Qed.

(** ** Rendering, and parsing the rendering *)

(** A float within one part in [2 ^ 53] of the decimal [C * 10 ^ q],
    [C < 10 ^ 9], rendered with as many significant digits as [C] has: the
    parser finds this count, and [q] as the place of the last digit. *)
Lemma render_reparse (neg : bool) (m : positive) (e C q : Z) :
  0 < C < 10 ^ 9 -> -9000 <= q <= 9000 ->
  ((1 - eps) * (inject_Z C * 10 ^ q) <= Qval m e)%Q ->
  (Qval m e <= (1 + eps) * (inject_Z C * 10 ^ q))%Q ->
  find_sigfigs_lsf (format_g_alt (ndigits C) (S754_finite neg m e)) =
  Ok (ndigits C, q).
Proof.
  intros HC Hq Hlo Hhi.
  destruct (ndigits_le_9 C HC) as [Hn1 Hn9].
  destruct (ndigits_bounds C ltac:(lia)) as [_ Hn2].
  unfold format_g_alt. rewrite Z.max_l by lia.
  rewrite (sig_digits_decimal m e C q (ndigits C) (ndigits C)) by (assumption || lia).
  rewrite Z.sub_diag, Z.pow_0_r, Z.mul_1_r.
  destruct (digits_of_Z_head C ltac:(lia)) as (d0 & dr & Hdd & Hd0).
  pose proof (digits_of_Z_digits C) as Hdig. rewrite Hdd in Hdig.
  assert (Hnd : ndigits C = 1 + len dr).
  { unfold ndigits, len. rewrite Hdd. cbn [length]. lia. }
  unfold find_sigfigs_lsf, recursion_limit.
  destruct ((ndigits C - 1 + q <? -4) || (ndigits C <=? ndigits C - 1 + q)) eqn:E.
  - rewrite Hdd, layout_exp_alt, app_assoc.
    rewrite find_sci_mantissa by (inversion Hdig; assumption || lia).
    f_equal. f_equal; lia.
  - apply orb_false_iff in E. destruct E as [E1 E2].
    apply Z.ltb_ge in E1. apply Z.leb_gt in E2.
    replace (ndigits C - 1 - (ndigits C - 1 + q)) with (- q) by lia.
    destruct (layout_fixed_shape true (digits_of_Z C) (Z.to_nat (- q)))
      as (ip & fp & Hlay & Hcat & Hlen & Hne); [left; reflexivity |].
    rewrite Hlay.
    assert (Hw : Forall digit (ip ++ fp)).
    { rewrite Hcat. apply pad_left_digits, digits_of_Z_digits. }
    apply Forall_app in Hw. destruct Hw as [Hip Hfp].
    assert (Hnum : Z_of_digits (ip ++ fp) = C).
    { rewrite Hcat, Z_of_digits_pad. apply Z_of_digits_of_Z. lia. }
    assert (Hk : len fp = - q) by (unfold len; rewrite Hlen; lia).
    rewrite (find_point_literal 998 (sign_str neg) neg ip fp (sign_of_sign_str neg) Hip Hfp);
      rewrite ?Hnum; try lia.
    rewrite Hk. f_equal. f_equal. lia.
Qed.

(** ** Whole-number literals *)

Lemma digit_char_nonzero (b : Z) : 1 <= b <= 9 -> digit_char b <> "0"%char.
Proof.
  intros Hb.
  assert (H : b = 1 \/ b = 2 \/ b = 3 \/ b = 4 \/ b = 5 \/ b = 6 \/ b = 7 \/
              b = 8 \/ b = 9) by lia.
  repeat (destruct H as [-> | H]; [discriminate |]). subst b. discriminate.
Qed.

(** The digits of a number that is not a multiple of ten do not end in 0. *)
Lemma digits_of_Z_no_trailing_zero (C : Z) :
  0 < C -> C mod 10 <> 0 -> rstrip "0" (digits_of_Z C) = digits_of_Z C.
Proof.
  intros HC Hm. pose proof (Z.mod_pos_bound C 10 ltac:(lia)) as Hb.
  destruct (Z_lt_ge_dec C 10) as [L | G].
  - rewrite digits_small by lia.
    apply (rstrip_last [] (digit_char C)), digit_char_nonzero.
    rewrite Z.mod_small in Hm by lia. lia.
  - rewrite (Z.div_mod C 10) at 1 2 by lia.
    assert (0 < C / 10) by (apply Z.div_str_pos; lia).
    rewrite digits_snoc by lia.
    apply rstrip_last, digit_char_nonzero. lia.
Qed.

Lemma float_of_dec_shift (s : bool) (C t : Z) :
  0 <= t -> float_of_dec s (C * 10 ^ t) 0 = float_of_dec s C t.
Proof.
  intros Ht. unfold float_of_dec.
  replace (0 <=? t) with true by (symmetry; apply Z.leb_le; exact Ht).
  change (0 <=? 0) with true. cbv iota.
  change (10 ^ 0) with 1. rewrite Z.mul_1_r. reflexivity.
Qed.

(** A literal without a decimal point that denotes [C * 10 ^ t], where [C]
    has at most nine digits and does not end in 0: the parser counts the
    digits of [C], and places the least significant one at [t]. *)
Lemma find_int_literal (depth : nat) (es : str) (neg : bool) (ip : str) (C t : Z) :
  sign_of es = Some neg ->
  Forall digit ip -> Z_of_digits ip = C * 10 ^ t ->
  0 < C < 10 ^ 9 -> C mod 10 <> 0 -> 0 <= t <= 290 ->
  exists m e,
    py_float (es ++ ip) = Ok (S754_finite neg m e) /\
    ((1 - eps) * (inject_Z C * 10 ^ t) <= Qval m e)%Q /\
    (Qval m e <= (1 + eps) * (inject_Z C * 10 ^ t))%Q /\
    find_sigfigs_lsf_rec (S (S depth)) (es ++ ip) = Ok (ndigits C, t).
Proof.
  intros Hes Hi HD HC Hm Ht.
  assert (Hp : 0 < 10 ^ t) by (apply Z.pow_pos_nonneg; lia).
  assert (Hne : ip <> []).
  { intros ->. change (Z_of_digits []) with 0 in HD. nia. }
  pose proof (py_float_int es neg ip Hes Hi Hne) as Hpy.
  rewrite HD, float_of_dec_shift in Hpy by lia.
  destruct (float_of_dec_accurate neg C t) as (m & e & Hfl & Hlo & Hhi);
    [lia | lia |].
  rewrite Hfl in Hpy. exists m, e.
  split; [exact Hpy |]. split; [exact Hlo |]. split; [exact Hhi |].
  destruct (sign_of_no_space es neg Hes) as (_ & Hes_e & Hes_u & _).
  set (x := es ++ ip) in *.
  assert (Hu : no_upper x).
  { apply Forall_app. split; [exact Hes_u | apply digits_no_upper, Hi]. }
  assert (He : avoids "e" x).
  { apply Forall_app. split; [exact Hes_e |].
    apply digits_avoid; [reflexivity | exact Hi]. }
  assert (Hdot : avoids "." x).
  { apply Forall_app. split; [apply (sign_of_avoids _ es neg Hes); discriminate |].
    apply digits_avoid; [reflexivity | exact Hi]. }
  destruct (find_plain_finite depth x neg m e Hu He Hpy) as (d & rest & Hds & ->).
  destruct (ndigits_le_9 C HC) as [Hn1 Hn9].
  destruct (ndigits_bounds C ltac:(lia)) as [_ Hn2].
  rewrite (sig_digits_decimal m e C t (ndigits C) 9) in *;
    try assumption; try lia.
  cbn [fst snd] in *.
  replace (9 - ndigits C) with (Z.of_nat (Z.to_nat (9 - ndigits C))) in Hds by lia.
  rewrite digits_mul_pow10 in Hds by lia.
  destruct (digits_of_Z_head C ltac:(lia)) as (d0 & dr & Hdd & Hd0).
  pose proof (digits_of_Z_no_trailing_zero C ltac:(lia) Hm) as Hlast.
  rewrite Hdd in Hds, Hlast. cbn [app] in Hds. injection Hds as <- <-.
  rewrite rstrip_cons in Hlast by assumption. injection Hlast as Hlast.
  unfold user_zeros. rewrite (contains_avoids "." x Hdot).
  cbv zeta. rewrite app_nil_r, rstrip_zeros, Hlast.
  unfold ndigits. rewrite Hdd. unfold len. cbn [length].
  f_equal. f_equal; lia.
Qed.

(** A literal that reads as a finite float other than zero, for which the
    parser finds [n] figures and the place [l], makes the round trip as soon
    as the parser finds the same in the float rendered with [n] figures. *)
Lemma round_trips_finite (s : str) (neg : bool) (m : positive) (e n l : Z) :
  py_float s = Ok (S754_finite neg m e) ->
  find_sigfigs_lsf s = Ok (n, l) -> 1 <= n <= INT_MAX ->
  find_sigfigs_lsf (format_g_alt n (S754_finite neg m e)) = Ok (n, l) ->
  round_trips s.
Proof.
  intros Hpy Hfind Hn Hre.
  exists (mkSigFig (S754_finite neg m e) (SfInt n) (Some (LsfInt l))),
    (format_g_alt n (S754_finite neg m e)), n, l.
  split; [| split; [| split; [exact Hre | split; reflexivity]]].
  - unfold SigFig_init. rewrite Hpy. cbn [bind].
    replace (eqb (S754_finite neg m e) zero) with false by (destruct neg; reflexivity).
    rewrite Hfind. reflexivity.
  - unfold SigFig_str. cbn [sf value sf_eqb].
    replace (n =? 0) with false by (symmetry; apply Z.eqb_neq; lia).
    unfold format_sf, spec_precision.
    replace ((n <? 0) || (INT_MAX <? n)) with false; [reflexivity |].
    symmetry. apply orb_false_iff. split; apply Z.ltb_ge; lia.
Qed.

(** The number a digit string that does not start with 0 denotes has
    these very digits. *)
Lemma leading_digit_number (w : str) :
  Forall digit w ->
  match w with [] => False | d :: _ => d <> "0"%char end ->
  len w <= 9 ->
  0 < Z_of_digits w < 10 ^ 9 /\ ndigits (Z_of_digits w) = len w.
Proof.
  intros Hw Hh H9.
  pose proof (digits_of_Z_of_digits w Hw Hh) as Hd.
  pose proof (Z_of_digits_nonneg w Hw) as H0.
  pose proof (Z_of_digits_upper w Hw) as Hup.
  assert (10 ^ len w <= 10 ^ 9) by (apply Z.pow_le_mono_r; lia).
  split; [| unfold ndigits; rewrite Hd; reflexivity].
  split; [| lia].
  destruct (Z.eq_dec (Z_of_digits w) 0) as [E | E]; [| lia].
  rewrite E in Hd. change (digits_of_Z 0) with ["0"%char] in Hd.
  rewrite <- Hd in Hh. congruence.
Qed.

(** C1 (amended): the round trip holds for every literal that denotes a
    number other than zero with at most nine significant digits, in one of
    three forms, the sign being optional:
    - digits with a decimal point, where the significant digits run from
      the first nonzero digit to the last digit written, at most 300 of
      them behind the point;
    - digits without a decimal point, where the significant digits [C] run
      from the first nonzero digit to the last nonzero one, followed by
      [t <= 290] zeros;
    - scientific form with a minus sign or none, a mantissa [ip.fp] whose
      first digit is not 0, and an exponent of at most as many digits as
      [int] converts (4300) that places the last digit between
      [10 ^ -300] and [10 ^ 290].
    For such a literal the instance is built, it renders to a text, and the
    parser finds in that text the very count and place the instance
    holds. *)
Theorem round_trip_nine_digits :
  (forall (es : str) (neg : bool) (ip fp : str),
     sign_of es = Some neg -> Forall digit ip -> Forall digit fp ->
     0 < Z_of_digits (ip ++ fp) < 10 ^ 9 -> len fp <= 300 ->
     round_trips (es ++ ip ++ "."%char :: fp)) /\
  (forall (es : str) (neg : bool) (ip : str) (C t : Z),
     sign_of es = Some neg -> Forall digit ip ->
     Z_of_digits ip = C * 10 ^ t ->
     0 < C < 10 ^ 9 -> C mod 10 <> 0 -> 0 <= t <= 290 ->
     round_trips (es ++ ip)) /\
  (forall (neg sneg : bool) (ip fp xs ed : str) (c : ascii),
     Forall digit ip -> Forall digit fp ->
     match ip ++ fp with [] => False | d :: _ => d <> "0"%char end ->
     len (ip ++ fp) <= 9 ->
     c = "e"%char \/ c = "E"%char ->
     sign_of xs = Some sneg -> Forall digit ed -> ed <> [] ->
     len ed <= int_max_str_digits ->
     -300 <= (if sneg then - Z_of_digits ed else Z_of_digits ed) - len fp <= 290 ->
     round_trips (sign_str neg ++ ip ++ "."%char :: fp ++ c :: xs ++ ed)).
Proof.
  split; [| split].
  - intros es neg ip fp Hes Hi Hf HD Hk.
    assert (Hne : ip ++ fp <> []).
    { intros E. rewrite E in HD. change (Z_of_digits []) with 0 in HD. lia. }
    pose proof (py_float_point es neg ip fp Hes Hi Hf Hne) as Hpy.
    assert (Hlen : 0 <= len fp) by (unfold len; lia).
    destruct (float_of_dec_accurate neg (Z_of_digits (ip ++ fp)) (- len fp))
      as (m & e & Hfl & Hlo & Hhi); [lia | lia |].
    rewrite Hfl in Hpy.
    pose proof (ndigits_le_9 _ HD) as Hn.
    apply (round_trips_finite _ neg m e (ndigits (Z_of_digits (ip ++ fp))) (- len fp)).
    + exact Hpy.
    + apply (find_point_literal 998 es neg); assumption.
    + unfold INT_MAX. lia.
    + apply render_reparse; assumption || lia.
  - intros es neg ip C t Hes Hi HD HC Hm Ht.
    destruct (find_int_literal 998 es neg ip C t Hes Hi HD HC Hm Ht)
      as (m & e & Hpy & Hlo & Hhi & Hfind).
    pose proof (ndigits_le_9 _ HC) as Hn.
    apply (round_trips_finite _ neg m e (ndigits C) t).
    + exact Hpy.
    + exact Hfind.
    + unfold INT_MAX. lia.
    + apply render_reparse; assumption || lia.
  - intros neg sneg ip fp xs ed c Hi Hf Hh H9 Hc Hx Hed Hne' Hlen Hq.
    assert (Hw : Forall digit (ip ++ fp)) by (apply Forall_app; split; assumption).
    destruct (leading_digit_number (ip ++ fp) Hw Hh H9) as [HD Hnd].
    assert (Hne : ip ++ fp <> []) by (destruct (ip ++ fp); [contradiction | discriminate]).
    pose proof (py_float_sci (sign_str neg) neg ip fp xs ed c sneg
                  (sign_of_sign_str neg) Hi Hf Hne Hc Hx Hed Hne') as Hpy.
    pose proof (find_scientific neg sneg ip fp xs ed c Hi Hf Hc Hx Hed Hne' Hlen) as Hfind.
    cbv zeta in Hfind. rewrite <- app_assoc in Hfind. cbn [app] in Hfind.
    set (X := if sneg then - Z_of_digits ed else Z_of_digits ed) in *.
    destruct (float_of_dec_accurate neg (Z_of_digits (ip ++ fp)) (X - len fp))
      as (m & e & Hfl & Hlo & Hhi); [lia | lia |].
    rewrite Hfl in Hpy.
    pose proof (ndigits_le_9 _ HD) as Hn.
    apply (round_trips_finite _ neg m e (ndigits (Z_of_digits (ip ++ fp))) (X - len fp)).
    + exact Hpy.
    + rewrite Hfind, Hnd. unfold len. rewrite !length_app. cbn [length].
      f_equal. f_equal; [lia |].
      destruct (0 <? Z.of_nat (length fp)) eqn:E; [lia |].
      apply Z.ltb_ge in E. lia.
    + unfold INT_MAX. lia.
    + apply render_reparse; assumption || lia.
Qed.

Lemma round_trip_nine_digits_witness :
  round_trips (py "50.00") /\ round_trips (py "-1200") /\
  round_trips (py "6.02e23").
Proof.
  split; [| split].
  - apply (proj1 round_trip_nine_digits [] false (py "50") (py "00")).
    + reflexivity.
    + repeat constructor.
    + repeat constructor.
    + vm_compute. split; reflexivity.
    + vm_compute. discriminate.
  - apply (proj1 (proj2 round_trip_nine_digits) (py "-") true (py "1200") 12 2).
    + reflexivity.
    + repeat constructor.
    + reflexivity.
    + vm_compute. split; reflexivity.
    + vm_compute. discriminate.
    + lia.
  - apply (proj2 (proj2 round_trip_nine_digits)
             false false (py "6") (py "02") [] (py "23") "e"%char).
    + repeat constructor.
    + repeat constructor.
    + discriminate.
    + vm_compute. discriminate.
    + left. reflexivity.
    + reflexivity.
    + repeat constructor.
    + discriminate.
    + vm_compute. discriminate.
    + vm_compute. split; discriminate.
Defined.

(** ** Where the round trip stops *)

Ltac trace_round_trip :=
  let v := fresh "v" in
  let Hv := fresh "Hv" in
  let Htext := fresh "Htext" in
  let Hfind := fresh "Hfind" in
  let Hsf := fresh "Hsf" in
  let Hlsf := fresh "Hlsf" in
  intros (v & text & n & l & Hv & Htext & Hfind & Hsf & Hlsf);
  vm_compute in Hv; injection Hv as <-;
  vm_compute in Htext; injection Htext as <-;
  vm_compute in Hfind;
  first [ discriminate Hfind
        | injection Hfind as <- <-; vm_compute in Hsf, Hlsf;
          first [discriminate Hsf | discriminate Hlsf] ].

(** Beyond the forms of the amended C1 the round trip can fail: with more
    than nine significant digits (['1.2345678912340'] holds 10 figures, its
    rendering parses to 9), with a mantissa that starts with 0 (['0.5e1']
    holds the place 0, its rendering ['5.0'] parses to -1), with a plus
    sign before a mantissa (['+5.0e3'] holds the place 2, its rendering
    parses to 1), and on overflow (['1.0e999'] renders as ['inf'], which
    the parser does not accept). *)
Lemma round_trip_limits :
  ~ round_trips (py "1.2345678912340") /\
  ~ round_trips (py "0.5e1") /\
  ~ round_trips (py "+5.0e3") /\
  ~ round_trips (py "1.0e999").
Proof. repeat split; trace_round_trip. Qed.

(** ** Sums and differences that round to zero *)

(** The same arithmetic through [+] and through [-]: [0.14 + (-0.1)] keeps
    two figures and renders as ['0.040'], where [0.14 - 0.1], which checks
    for a text of zeros, has no figure left and renders as ['0.0']. *)
Lemma add_sub_disagree_on_zero_text :
  SigFig_of_str "0.14" = Ok v_0_14 /\ SigFig_of_str "-0.1" = Ok v_m0_1 /\
  SigFig_of_str "0.1" = Ok v_0_1 /\
  SigFig_add v_0_14 (OSigFig v_m0_1) = Ok v_sum_0_04 /\
  SigFig_str v_sum_0_04 = Ok (py "0.040") /\
  SigFig_sub v_0_14 (OSigFig v_0_1) = Ok v_diff_0_04 /\
  SigFig_str v_diff_0_04 = Ok (py "0.0").
Proof. repeat split; vm_compute; reflexivity. Qed.
